(** * CloudExport: the credit ledger, the cost estimator, the job controller
      and the worker loop, embedded from the Python sources.

    Conventions of the embedding.
    - Python [float] amounts are modelled as rationals [Q] (exact
      arithmetic); equalities between amounts are stated with [==].
    - A relational table is a list of rows in insertion order; the [jobs]
      table, which is only ever addressed by primary key, is a finite map
      from the job id to its row.
    - [Query.one_or_none()] returns the single matching row, [None] when
      there is none and raises [MultipleResultsFound] otherwise.
    - Exceptions are values of type [Exn]; a function that can raise returns
      a sum [Exn + A]. *)

From Stdlib Require Import QArith Qround Qabs Qminmax Lqa ZArith List Bool Floats.
From stdpp Require Import gmap strings list pretty.

Local Open Scope string_scope.
Local Open Scope list_scope.

(** ** Exceptions *)

Inductive Exn : Type :=
  | ValueError (msg : string)
  | RuntimeError (msg : string)
  | HTTPException (status_code : Z) (detail : string)
  | MultipleResultsFound
  | IntegrityError
  | OtherException (msg : string).

#[global] Instance Exn_eq_dec : EqDecision Exn.
Proof. solve_decision. Defined.

(** [str(err)] *)
Definition str_exn (e : Exn) : string :=
  match e with
  | ValueError m | RuntimeError m | OtherException m => m
  | HTTPException _ d => d
  | MultipleResultsFound => "Multiple rows were found when one or none was required"
  | IntegrityError => "IntegrityError"
  end.

(** [isinstance(err, RuntimeError)] *)
Definition is_RuntimeError (e : Exn) : bool :=
  match e with RuntimeError _ => true | _ => false end.

Definition Result (A : Type) : Type := Exn + A.

Definition rbind {A B} (m : Result A) (k : A -> Result B) : Result B :=
  match m with inl e => inl e | inr a => k a end.

Notation "x <-? m ; k" := (rbind m (fun x => k))
  (at level 100, m at next level, right associativity).

Definition one_or_none {A} (rows : list A) : Result (option A) :=
  match rows with
  | [] => inr None
  | [x] => inr (Some x)
  | _ => inl MultipleResultsFound
  end.

(** ** Rationals: boolean comparisons and Python's [round], [int] *)

Definition Qlt_bool (a b : Q) : bool := negb (Qle_bool b a).

Lemma Qlt_bool_iff (a b : Q) : Qlt_bool a b = true <-> (a < b)%Q.
Proof.
  unfold Qlt_bool. rewrite negb_true_iff.
  split; intros H.
  - apply Qnot_le_lt. intros Hle. apply Qle_bool_iff in Hle. congruence.
  - destruct (Qle_bool b a) eqn:E; [|reflexivity].
    apply Qle_bool_iff in E. exfalso. revert E. apply Qlt_not_le. exact H.
Qed.

Lemma Qlt_bool_false (a b : Q) : Qlt_bool a b = false <-> (b <= a)%Q.
Proof.
  unfold Qlt_bool. rewrite negb_false_iff. apply Qle_bool_iff.
Qed.

Lemma Qle_bool_false (a b : Q) : Qle_bool a b = false <-> (b < a)%Q.
Proof.
  split; intros H.
  - apply Qnot_le_lt. intros Hle. apply Qle_bool_iff in Hle. congruence.
  - destruct (Qle_bool a b) eqn:E; [|reflexivity].
    apply Qle_bool_iff in E. exfalso. revert E. apply Qlt_not_le. exact H.
Qed.

(** Round half to even, to an integer. *)
Definition Qround_half_even (q : Q) : Z :=
  let f := Qfloor q in
  let r := (q - inject_Z f)%Q in
  if Qlt_bool r (1 # 2) then f
  else if Qlt_bool (1 # 2) r then (f + 1)%Z
  else if Z.even f then f else (f + 1)%Z.

(** [round(x, 2)] *)
Definition round2 (q : Q) : Q := (inject_Z (Qround_half_even (q * 100)) / 100)%Q.

(** [int(x)]: truncation towards zero. *)
Definition Qint (q : Q) : Z := Z.quot (Qnum q) (Z.pos (Qden q)).

(** ** Data model ([models.py]) *)

Inductive EntryType := PURCHASE | ADJUSTMENT | RESERVE | REFUND | SETTLEMENT.
Inductive EntryStatus := posted | reserved | voided.

#[global] Instance EntryType_eq_dec : EqDecision EntryType.
Proof. solve_decision. Defined.
#[global] Instance EntryStatus_eq_dec : EqDecision EntryStatus.
Proof. solve_decision. Defined.

(** The JSON [details] column, restricted to the values the code writes. *)
Inductive Details :=
  | NoDetails
  | DReason (reason : string)
  | DInsufficientFunds (shortfall : Q)
  | DSource (source : string).

(** A row of [credit_ledger].  The surrogate key [id] and [created_at] are
    filled by column defaults and never read by the code below; rows are
    identified by their position in the table. *)
Record CreditLedger := mkEntry {
  le_user_id : string;
  le_entry_type : EntryType;
  le_status : EntryStatus;
  le_amount_usd : Q;
  le_currency : string;
  le_job_id : option string;
  le_external_id : option string;
  le_details : Details
}.

Definition set_settled (e : CreditLedger) (st : EntryStatus) (amt : Q) (d : Details) :=
  {| le_user_id := le_user_id e; le_entry_type := le_entry_type e;
     le_status := st; le_amount_usd := amt; le_currency := le_currency e;
     le_job_id := le_job_id e; le_external_id := le_external_id e;
     le_details := d |}.

(** The two [UniqueConstraint]s of [CreditLedger.__table_args__]; as in SQL,
    a NULL never collides. *)
Definition clash (e e' : CreditLedger) : Prop :=
  (le_external_id e ≠ None ∧ le_external_id e' = le_external_id e) ∨
  (le_job_id e ≠ None ∧ le_job_id e' = le_job_id e ∧ le_entry_type e' = le_entry_type e).

#[global] Instance clash_dec e e' : Decision (clash e e').
Proof. unfold clash. apply _. Defined.

(** [db.add(entry); db.commit()] for a new ledger row. *)
Definition ledger_add (ledger : list CreditLedger) (e : CreditLedger)
  : Result (list CreditLedger) :=
  if decide (Exists (clash e) ledger) then inl IntegrityError
  else inr (ledger ++ [e]).

(** ** [credits.py]

    Amounts are Python floats.  They are modelled as exact rationals: sums
    and comparisons below are those of the exact values, which the sums of
    doubles can miss in the last place. *)

Record CreditBalance := mkBalance {
  posted_usd : Q;
  reserved_usd : Q;
  available_usd : Q
}.

(** [func.coalesce(func.sum(CreditLedger.amount_usd), 0.0)] *)
Definition sum_amount (rows : list CreditLedger) : Q :=
  foldr (fun e acc => (le_amount_usd e + acc)%Q) 0%Q rows.

Definition get_balances (ledger : list CreditLedger) (user_id : string) : CreditBalance :=
  let posted_ :=
    sum_amount (filter (fun e => le_user_id e = user_id ∧ le_status e = posted) ledger) in
  let reserved_ :=
    sum_amount (filter (fun e => le_user_id e = user_id ∧ le_status e = reserved) ledger) in
  let available := (posted_ + reserved_)%Q in
  {| posted_usd := posted_; reserved_usd := reserved_; available_usd := available |}.

Definition reserve_credits (ledger : list CreditLedger)
    (user_id job_id : string) (amount_usd : Q)
  : Result (list CreditLedger * CreditBalance) :=
  if Qle_bool amount_usd 0 then inl (ValueError "Reservation amount must be positive")
  else
    existing <-? one_or_none
      (filter (fun e => le_user_id e = user_id ∧ le_job_id e = Some job_id
                        ∧ le_entry_type e = RESERVE) ledger);
    match existing with
    | Some _ => inr (ledger, get_balances ledger user_id)
    | None =>
        let balances := get_balances ledger user_id in
        if Qlt_bool (available_usd balances) amount_usd
        then inl (ValueError "Insufficient credits")
        else
          let entry := {| le_user_id := user_id; le_entry_type := RESERVE;
                          le_status := reserved; le_amount_usd := (- amount_usd)%Q;
                          le_currency := "USD"; le_job_id := Some job_id;
                          le_external_id := None; le_details := NoDetails |} in
          ledger' <-? ledger_add ledger entry;
          inr (ledger', get_balances ledger' user_id)
    end.

(** Rows matching a filter together with their position, so that a row
    fetched by a query can be mutated in place. *)
Definition select {A} (P : A -> Prop) `{!∀ e, Decision (P e)}
    (rows : list A) : list (nat * A) :=
  filter (fun ie => P ie.2) (imap (fun i e => (i, e)) rows).

Definition settle_job_credits (ledger : list CreditLedger)
    (job_id : string) (actual_cost_usd : Q) : Result (list CreditLedger) :=
  entry <-? one_or_none
    (select (fun e => le_job_id e = Some job_id ∧ le_entry_type e = RESERVE) ledger);
  match entry with
  | None => inr ledger
  | Some (i, entry) =>
      if negb (bool_decide (le_status entry = reserved)) then inr ledger
      else
        let reserved_ := Qabs (le_amount_usd entry) in
        let balances := get_balances ledger (le_user_id entry) in
        let max_charge := Qmax 0 (available_usd balances + reserved_) in
        let actual_cost := Qmax 0 (Qmin actual_cost_usd max_charge) in
        let details' :=
          if Qlt_bool max_charge actual_cost_usd
          then DInsufficientFunds (round2 (actual_cost_usd - max_charge))
          else le_details entry in
        let ledger1 := <[i := set_settled entry posted (- actual_cost)%Q details']> ledger in
        if Qlt_bool actual_cost reserved_ then
          ledger_add ledger1
            {| le_user_id := le_user_id entry; le_entry_type := REFUND;
               le_status := posted; le_amount_usd := (reserved_ - actual_cost)%Q;
               le_currency := "USD"; le_job_id := Some job_id;
               le_external_id := None; le_details := DReason "unused_reservation" |}
        else if Qlt_bool reserved_ actual_cost then
          ledger_add ledger1
            {| le_user_id := le_user_id entry; le_entry_type := SETTLEMENT;
               le_status := posted; le_amount_usd := (- (actual_cost - reserved_))%Q;
               le_currency := "USD"; le_job_id := Some job_id;
               le_external_id := None; le_details := DReason "overage" |}
        else inr ledger1
  end.

Definition void_reservation (ledger : list CreditLedger)
    (job_id : string) (reason : string) : Result (list CreditLedger) :=
  entry <-? one_or_none
    (select (fun e => le_job_id e = Some job_id ∧ le_entry_type e = RESERVE) ledger);
  match entry with
  | None => inr ledger
  | Some (i, entry) =>
      if negb (bool_decide (le_status entry = reserved)) then inr ledger
      else inr (<[i := set_settled entry voided (le_amount_usd entry) (DReason reason)]> ledger)
  end.

(** [if external_id:] is the truthiness of a Python string: the empty string
    skips the lookup. *)
Definition credit_purchase (ledger : list CreditLedger)
    (user_id : string) (amount_usd : Q) (external_id source : string)
  : Result (list CreditLedger) :=
  existing <-?
    (if bool_decide (external_id ≠ "")
     then one_or_none (filter (fun e => le_external_id e = Some external_id) ledger)
     else inr None);
  match existing with
  | Some _ => inr ledger
  | None =>
      ledger_add ledger
        {| le_user_id := user_id; le_entry_type := PURCHASE; le_status := posted;
           le_amount_usd := amount_usd; le_currency := "USD"; le_job_id := None;
           le_external_id := Some external_id; le_details := DSource source |}
  end.

Definition manual_adjust (ledger : list CreditLedger)
    (user_id : string) (amount_usd : Q) (reason : string) (external_id : option string)
  : Result (list CreditLedger) :=
  existing <-?
    (match external_id with
     | Some x => if bool_decide (x ≠ "")
                 then one_or_none (filter (fun e => le_external_id e = Some x) ledger)
                 else inr None
     | None => inr None
     end);
  match existing with
  | Some _ => inr ledger
  | None =>
      ledger_add ledger
        {| le_user_id := user_id; le_entry_type := ADJUSTMENT; le_status := posted;
           le_amount_usd := amount_usd; le_currency := "USD"; le_job_id := None;
           le_external_id := external_id; le_details := DReason reason |}
  end.

(** ** Manifest and request schema ([schemas.py]) *)

Record ManifestComposition := {
  comp_name : string;
  durationSeconds : Q
}.

Record Manifest := {
  project_hash_ : string;
  composition : ManifestComposition;
  fonts : list string;
  effects : list string;
  expressionsCount : Z
}.

(** [customOptions]: the two keys the code reads; an absent key is [None]. *)
Record CustomOptions := {
  bitrateMbps : option Q;
  codec : option string
}.

(** ** [compatibility.py] *)

Definition BLOCKED_EFFECT_PREFIXES : list string :=
  ["Sapphire"; "Boris"; "RedGiant"; "VideoCopilot"; "Element3D"; "Trapcode"].

Definition BLOCKED_EFFECTS : list string := ["VC Element"; "Trapcode Particular"].

Definition startswith (s p : string) : bool := String.prefix p s.

Fixpoint classify_effects (effs : list string) : list string * list string :=
  match effs with
  | [] => ([], [])
  | effect :: rest =>
      let '(native, third_party) := classify_effects rest in
      if startswith effect "ADBE" then (effect :: native, third_party)
      else if bool_decide (effect ∈ BLOCKED_EFFECTS) then (native, effect :: third_party)
      else if existsb (startswith effect) BLOCKED_EFFECT_PREFIXES
           then (native, effect :: third_party)
      else if startswith effect "PG" || startswith effect "CC"
           then (effect :: native, third_party)
      else (native, effect :: third_party)
  end.

Definition nonempty {A} (l : list A) : bool :=
  match l with [] => false | _ => true end.

(** [check_manifest]: the warning texts are kept, the list of third-party
    names inside the first one is not. *)
Definition check_manifest (manifest : Manifest) : list string * list string :=
  let third_party := (classify_effects (effects manifest)).2 in
  let w1 := if nonempty third_party then ["Third-party effects detected"] else [] in
  let w2 := if nonempty (fonts manifest) then []
            else ["No fonts detected; verify text layers use default fonts."] in
  let w3 := if (100 <? expressionsCount manifest)%Z
            then ["High expression count may slow render."] else [] in
  (w1 ++ w2 ++ w3, []).

(** ** [config.py] *)

Record Settings := {
  min_job_cost_usd : Q;
  storage_rate_per_gb_hour : Q;
  transfer_rate_per_gb : Q;
  upload_mbps : Q;
  gpu_rate_per_minute : gmap string Q;
  gpu_speed_factor : gmap string Q;
  render_timeout_minutes : Z;
  lemon_webhook_secret : option string;
  (** [json.loads(settings.lemon_variant_credits or '{}')]; [None] stands
      for a string that does not parse. *)
  lemon_variant_credits : option (gmap string Q);
  lemon_auto_create_users : bool
}.

Definition default_settings : Settings :=
  {| min_job_cost_usd := 1;
     storage_rate_per_gb_hour := 1 # 1000;
     transfer_rate_per_gb := 5 # 100;
     upload_mbps := 50;
     gpu_rate_per_minute := <["rtx4090" := (1 # 2)%Q]> (<["a100" := 2%Q]> ∅);
     gpu_speed_factor := <["rtx4090" := 1%Q]> (<["a100" := (16 # 10)%Q]> ∅);
     render_timeout_minutes := 120;
     lemon_webhook_secret := None;
     lemon_variant_credits := Some ∅;
     lemon_auto_create_users := false |}.

(** ** [pricing.py]

    The prices over exact rationals, as the models of the controller and
    the worker use them.  [Binary64] below repeats the same functions in
    double precision; the two can differ by a cent where the exact total is
    a tie between two cents. *)

Definition PRESET_BITRATES : gmap string Q :=
  <["web" := 8%Q]> (<["social" := 12%Q]> (<["high_quality" := 200%Q]> ∅)).

Definition GiB : Q := inject_Z (1024 ^ 3).

Definition estimate_output_size_gb (duration_seconds : Q) (preset : string)
    (custom_options : option CustomOptions) : Q :=
  let bitrate_mbps := default 8%Q (PRESET_BITRATES !! preset) in
  let bitrate_mbps :=
    match custom_options with
    | Some co => if bool_decide (preset = "custom")
                 then default bitrate_mbps (bitrateMbps co) else bitrate_mbps
    | None => bitrate_mbps
    end in
  let bits := (bitrate_mbps * 1000000 * duration_seconds)%Q in
  let bytes_out := (bits / 8)%Q in
  (bytes_out / GiB)%Q.

Definition compute_complexity (manifest : Manifest) : Q :=
  let effs := effects manifest in
  let third_party := (classify_effects effs).2 in
  let c := 1%Q in
  let c := if (10 <? Z.of_nat (length effs))%Z then (c + (1 # 2))%Q else c in
  let c := if (30 <? Z.of_nat (length effs))%Z then (c + 1)%Q else c in
  let c := if nonempty third_party then (c + (1 # 2))%Q else c in
  let expressions := expressionsCount manifest in
  let c := if (50 <? expressions)%Z then (c + (1 # 2))%Q else c in
  let c := if (150 <? expressions)%Z then (c + (1 # 2))%Q else c in
  c.

Definition choose_gpu_class (manifest : Manifest) (preset : string) : string :=
  let duration := durationSeconds (composition manifest) in
  let complexity := compute_complexity manifest in
  if Qlt_bool 600 duration || Qle_bool (25 # 10) complexity
     || bool_decide (preset = "high_quality")
  then "a100" else "rtx4090".

Section Pricing.
Context (settings : Settings).

Definition estimate_cost (manifest : Manifest) (preset : string)
    (bundle_size_bytes : Z) (custom_options : option CustomOptions)
  : Result (Q * Z * string * list string) :=
  let gpu_class := choose_gpu_class manifest preset in
  let complexity := compute_complexity manifest in
  let duration_seconds := durationSeconds (composition manifest) in
  let speed_factor := default 1%Q (gpu_speed_factor settings !! gpu_class) in
  if Qeq_bool speed_factor 0 then inl (OtherException "float division by zero")
  else
  let render_minutes := ((duration_seconds / 60) * (complexity / speed_factor))%Q in
  let rate := default 1%Q (gpu_rate_per_minute settings !! gpu_class) in
  let output_gb := estimate_output_size_gb duration_seconds preset custom_options in
  let bundle_gb := (inject_Z bundle_size_bytes / GiB)%Q in
  let storage_hours := Qmax 1 (render_minutes / 60) in
  let storage_cost :=
    ((bundle_gb + output_gb) * storage_rate_per_gb_hour settings * storage_hours)%Q in
  let transfer_cost := (output_gb * transfer_rate_per_gb settings)%Q in
  let render_cost := (render_minutes * rate)%Q in
  let total := Qmax (min_job_cost_usd settings)
                    (render_cost + storage_cost + transfer_cost) in
  if Qeq_bool (upload_mbps settings * 1000000) 0
  then inl (OtherException "float division by zero")
  else
  let upload_seconds :=
    (inject_Z (bundle_size_bytes * 8) / (upload_mbps settings * 1000000))%Q in
  let eta_seconds := Qint (render_minutes * 60 + upload_seconds + 120) in
  let w1 := if Qlt_bool 5 bundle_gb
            then ["Large bundle; upload may take longer."] else [] in
  let w2 := if Qle_bool (25 # 10) complexity
            then ["Complex composition; expect longer render time."] else [] in
  inr (round2 total, eta_seconds, gpu_class, w1 ++ w2).

Definition compute_actual_cost (manifest : Manifest) (preset : string)
    (bundle_size_bytes : Z) (render_minutes : Q)
    (custom_options : option CustomOptions) : Q :=
  let gpu_class := choose_gpu_class manifest preset in
  let rate := default 1%Q (gpu_rate_per_minute settings !! gpu_class) in
  let render_cost := (render_minutes * rate)%Q in
  let duration_seconds := durationSeconds (composition manifest) in
  let output_gb := estimate_output_size_gb duration_seconds preset custom_options in
  let bundle_gb := (inject_Z bundle_size_bytes / GiB)%Q in
  let storage_hours := Qmax 1 (render_minutes / 60) in
  let storage_cost :=
    ((bundle_gb + output_gb) * storage_rate_per_gb_hour settings * storage_hours)%Q in
  let transfer_cost := (output_gb * transfer_rate_per_gb settings)%Q in
  let total := Qmax (min_job_cost_usd settings)
                    (render_cost + storage_cost + transfer_cost) in
  round2 total.

(** The estimator's render minutes as the specification words them:
    [(duration / 60) x complexity / gpuSpeedFactor]. *)
Definition spec_render_minutes (manifest : Manifest) (preset : string) : Q :=
  let gpu_class := choose_gpu_class manifest preset in
  (durationSeconds (composition manifest) / 60 * compute_complexity manifest
   / default 1%Q (gpu_speed_factor settings !! gpu_class))%Q.
End Pricing.

(** ** Prices in double precision

    [pricing.py] computes with Python [float]s, IEEE 754 binary64.  Here the
    same functions are written over the primitive floats, operation by
    operation and in the order of the source.  The numbers a request and
    the configuration carry are decimals; they are kept as rationals in
    [Manifest] and [Settings] and enter the computation through [of_Q]. *)
Module Binary64.

Definition Z2SF (n : Z) : spec_float :=
  match n with
  | Z0 => S754_zero false
  | Zpos p => S754_finite false p 0
  | Zneg p => S754_finite true p 0
  end.

(** The double nearest to [n / d], ties to even: [int / int] and [float(s)]
    for a decimal [s]. *)
Definition of_ratio (n d : Z) : float := SF2Prim (SFdiv prec emax (Z2SF n) (Z2SF d)).

Definition of_Q (q : Q) : float := of_ratio (Qnum q) (Z.pos (Qden q)).

(** [float(n)] for an [int]. *)
Definition of_int (n : Z) : float := of_ratio n 1.

(** The exact value of a finite double. *)
Definition to_Q (x : float) : option Q :=
  match Prim2SF x with
  | S754_zero _ => Some 0%Q
  | S754_finite s m e =>
      let v := match e with
               | Zneg k => (Z.pos m # Pos.pow 2 k)%Q
               | _ => inject_Z (Z.pos m * 2 ^ e)
               end in
      Some (if s then Qopp v else v)
  | _ => None
  end.

(** [max(a, b)] keeps [a] unless [b > a]. *)
Definition max (a b : float) : float := if PrimFloat.ltb a b then b else a.

(** [round(x, 2)]: the exact value, rounded to two decimals with ties to
    even, then the nearest double; zeros, infinities and NaN are returned
    as they are. *)
Definition round2 (x : float) : float :=
  match to_Q x, Prim2SF x with
  | Some q, S754_finite s _ _ =>
      let n := Qround_half_even (q * 100) in
      if (n =? 0)%Z then (if s then neg_zero else zero) else of_ratio n 100
  | _, _ => x
  end.

(** [int(x)] *)
Definition int (x : float) : Result Z :=
  match to_Q x with
  | Some q => inr (Z.quot (Qnum q) (Z.pos (Qden q)))
  | None =>
      if PrimFloat.is_nan x then inl (ValueError "cannot convert float NaN to integer")
      else inl (OtherException "cannot convert float infinity to integer")
  end.

Definition estimate_output_size_gb (duration_seconds : float) (preset : string)
    (custom_options : option CustomOptions) : float :=
  let bitrate_mbps := of_Q (default 8%Q (PRESET_BITRATES !! preset)) in
  let bitrate_mbps :=
    match custom_options with
    | Some co => if bool_decide (preset = "custom")
                 then from_option of_Q bitrate_mbps (bitrateMbps co) else bitrate_mbps
    | None => bitrate_mbps
    end in
  let bits := (bitrate_mbps * of_int 1000000 * duration_seconds)%float in
  let bytes_out := (bits / of_int 8)%float in
  (bytes_out / of_int (1024 ^ 3))%float.

Definition compute_complexity (manifest : Manifest) : float :=
  let effs := effects manifest in
  let third_party := (classify_effects effs).2 in
  let half := of_Q (1 # 2) in
  let c := of_int 1 in
  let c := if (10 <? Z.of_nat (length effs))%Z then (c + half)%float else c in
  let c := if (30 <? Z.of_nat (length effs))%Z then (c + of_int 1)%float else c in
  let c := if nonempty third_party then (c + half)%float else c in
  let expressions := expressionsCount manifest in
  let c := if (50 <? expressions)%Z then (c + half)%float else c in
  let c := if (150 <? expressions)%Z then (c + half)%float else c in
  c.

Definition choose_gpu_class (manifest : Manifest) (preset : string) : string :=
  let duration := of_Q (durationSeconds (composition manifest)) in
  let complexity := compute_complexity manifest in
  if PrimFloat.ltb (of_int 600) duration || PrimFloat.leb (of_Q (25 # 10)) complexity
     || bool_decide (preset = "high_quality")
  then "a100" else "rtx4090".

Section Pricing.
Context (settings : Settings).

Definition estimate_cost (manifest : Manifest) (preset : string)
    (bundle_size_bytes : Z) (custom_options : option CustomOptions)
  : Result (float * Z * string * list string) :=
  let gpu_class := choose_gpu_class manifest preset in
  let complexity := compute_complexity manifest in
  let duration_seconds := of_Q (durationSeconds (composition manifest)) in
  let speed_factor := of_Q (default 1%Q (gpu_speed_factor settings !! gpu_class)) in
  if PrimFloat.eqb speed_factor 0 then inl (OtherException "float division by zero")
  else
  let render_minutes := ((duration_seconds / of_int 60) * (complexity / speed_factor))%float in
  let rate := of_Q (default 1%Q (gpu_rate_per_minute settings !! gpu_class)) in
  let output_gb := estimate_output_size_gb duration_seconds preset custom_options in
  let bundle_gb := of_ratio bundle_size_bytes (1024 ^ 3) in
  let storage_hours := max (of_int 1) (render_minutes / of_int 60)%float in
  let storage_cost :=
    ((bundle_gb + output_gb) * of_Q (storage_rate_per_gb_hour settings)
     * storage_hours)%float in
  let transfer_cost := (output_gb * of_Q (transfer_rate_per_gb settings))%float in
  let render_cost := (render_minutes * rate)%float in
  let total := max (of_Q (min_job_cost_usd settings))
                   (render_cost + storage_cost + transfer_cost)%float in
  let megabits := (of_Q (upload_mbps settings) * of_int 1000000)%float in
  if PrimFloat.eqb megabits 0 then inl (OtherException "float division by zero")
  else
  let upload_seconds := (of_int (bundle_size_bytes * 8) / megabits)%float in
  eta_seconds <-? int (render_minutes * of_int 60 + upload_seconds + of_int 120)%float;
  let w1 := if PrimFloat.ltb (of_int 5) bundle_gb
            then ["Large bundle; upload may take longer."] else [] in
  let w2 := if PrimFloat.leb (of_Q (25 # 10)) complexity
            then ["Complex composition; expect longer render time."] else [] in
  inr (round2 total, eta_seconds, gpu_class, w1 ++ w2).

Definition compute_actual_cost (manifest : Manifest) (preset : string)
    (bundle_size_bytes : Z) (render_minutes : float)
    (custom_options : option CustomOptions) : float :=
  let gpu_class := choose_gpu_class manifest preset in
  let rate := of_Q (default 1%Q (gpu_rate_per_minute settings !! gpu_class)) in
  let render_cost := (render_minutes * rate)%float in
  let duration_seconds := of_Q (durationSeconds (composition manifest)) in
  let output_gb := estimate_output_size_gb duration_seconds preset custom_options in
  let bundle_gb := of_ratio bundle_size_bytes (1024 ^ 3) in
  let storage_hours := max (of_int 1) (render_minutes / of_int 60)%float in
  let storage_cost :=
    ((bundle_gb + output_gb) * of_Q (storage_rate_per_gb_hour settings)
     * storage_hours)%float in
  let transfer_cost := (output_gb * of_Q (transfer_rate_per_gb settings))%float in
  let total := max (of_Q (min_job_cost_usd settings))
                   (render_cost + storage_cost + transfer_cost)%float in
  round2 total.

(** The estimator's render minutes as the specification groups them:
    [(duration / 60) x complexity / gpuSpeedFactor]. *)
Definition spec_render_minutes (manifest : Manifest) (preset : string) : float :=
  let gpu_class := choose_gpu_class manifest preset in
  (of_Q (durationSeconds (composition manifest)) / of_int 60 * compute_complexity manifest
   / of_Q (default 1%Q (gpu_speed_factor settings !! gpu_class)))%float.
End Pricing.
End Binary64.

(** ** Tables: users, jobs, events, usage, cache ([models.py]) *)

Inductive JobStatus :=
  | CREATED | QUEUED | DOWNLOADING | VALIDATING | RENDERING
  | PACKAGING | UPLOADING | COMPLETED | FAILED | CANCELLED.

#[global] Instance JobStatus_eq_dec : EqDecision JobStatus.
Proof. solve_decision. Defined.

Record User := mkUser {
  u_id : string;
  u_email : string;
  u_api_key_hash : string;
  u_api_key_hint : string;
  u_is_active : bool;
  u_monthly_limit_usd : Q;
  u_per_job_max_usd : Q;
  u_is_admin : bool
}.

Record Job := mkJob {
  job_uuid : string;
  job_user_id : string;
  job_status : JobStatus;
  job_preset : string;
  job_gpu_class : string;
  job_manifest : Manifest;
  job_custom_options : option CustomOptions;
  job_manifest_hash : string;
  job_project_hash : string;
  job_bundle_key : string;
  job_bundle_sha256 : string;
  job_bundle_size_bytes : Z;
  job_result_key : option string;
  job_output_name : string;
  job_notification_email : option string;
  job_cost_estimate_usd : Q;
  job_cost_final_usd : option Q;
  job_eta_seconds : Z;
  job_progress_percent : Q;
  job_attempts : Z;
  job_max_attempts : Z;
  job_error_message : option string;
  job_cancel_requested : bool;
  job_cache_hit : bool;
  job_created_at : Z;
  job_started_at : option Z;
  job_finished_at : option Z
}.

(** Attribute assignment [job.field = v] on a row object. *)
Definition set_job_status (v : JobStatus) (j : Job) : Job :=
  {| job_uuid := job_uuid j; job_user_id := job_user_id j; job_status := v; job_preset := job_preset j;
     job_gpu_class := job_gpu_class j; job_manifest := job_manifest j;
     job_custom_options := job_custom_options j; job_manifest_hash := job_manifest_hash j;
     job_project_hash := job_project_hash j; job_bundle_key := job_bundle_key j;
     job_bundle_sha256 := job_bundle_sha256 j; job_bundle_size_bytes := job_bundle_size_bytes j;
     job_result_key := job_result_key j; job_output_name := job_output_name j;
     job_notification_email := job_notification_email j;
     job_cost_estimate_usd := job_cost_estimate_usd j; job_cost_final_usd := job_cost_final_usd j;
     job_eta_seconds := job_eta_seconds j; job_progress_percent := job_progress_percent j;
     job_attempts := job_attempts j; job_max_attempts := job_max_attempts j;
     job_error_message := job_error_message j; job_cancel_requested := job_cancel_requested j;
     job_cache_hit := job_cache_hit j; job_created_at := job_created_at j;
     job_started_at := job_started_at j; job_finished_at := job_finished_at j |}.

Definition set_job_progress_percent (v : Q) (j : Job) : Job :=
  {| job_uuid := job_uuid j; job_user_id := job_user_id j; job_status := job_status j;
     job_preset := job_preset j; job_gpu_class := job_gpu_class j; job_manifest := job_manifest j;
     job_custom_options := job_custom_options j; job_manifest_hash := job_manifest_hash j;
     job_project_hash := job_project_hash j; job_bundle_key := job_bundle_key j;
     job_bundle_sha256 := job_bundle_sha256 j; job_bundle_size_bytes := job_bundle_size_bytes j;
     job_result_key := job_result_key j; job_output_name := job_output_name j;
     job_notification_email := job_notification_email j;
     job_cost_estimate_usd := job_cost_estimate_usd j; job_cost_final_usd := job_cost_final_usd j;
     job_eta_seconds := job_eta_seconds j; job_progress_percent := v;
     job_attempts := job_attempts j; job_max_attempts := job_max_attempts j;
     job_error_message := job_error_message j; job_cancel_requested := job_cancel_requested j;
     job_cache_hit := job_cache_hit j; job_created_at := job_created_at j;
     job_started_at := job_started_at j; job_finished_at := job_finished_at j |}.

Definition set_job_started_at (v : option Z) (j : Job) : Job :=
  {| job_uuid := job_uuid j; job_user_id := job_user_id j; job_status := job_status j;
     job_preset := job_preset j; job_gpu_class := job_gpu_class j; job_manifest := job_manifest j;
     job_custom_options := job_custom_options j; job_manifest_hash := job_manifest_hash j;
     job_project_hash := job_project_hash j; job_bundle_key := job_bundle_key j;
     job_bundle_sha256 := job_bundle_sha256 j; job_bundle_size_bytes := job_bundle_size_bytes j;
     job_result_key := job_result_key j; job_output_name := job_output_name j;
     job_notification_email := job_notification_email j;
     job_cost_estimate_usd := job_cost_estimate_usd j; job_cost_final_usd := job_cost_final_usd j;
     job_eta_seconds := job_eta_seconds j; job_progress_percent := job_progress_percent j;
     job_attempts := job_attempts j; job_max_attempts := job_max_attempts j;
     job_error_message := job_error_message j; job_cancel_requested := job_cancel_requested j;
     job_cache_hit := job_cache_hit j; job_created_at := job_created_at j; job_started_at := v;
     job_finished_at := job_finished_at j |}.

Definition set_job_finished_at (v : option Z) (j : Job) : Job :=
  {| job_uuid := job_uuid j; job_user_id := job_user_id j; job_status := job_status j;
     job_preset := job_preset j; job_gpu_class := job_gpu_class j; job_manifest := job_manifest j;
     job_custom_options := job_custom_options j; job_manifest_hash := job_manifest_hash j;
     job_project_hash := job_project_hash j; job_bundle_key := job_bundle_key j;
     job_bundle_sha256 := job_bundle_sha256 j; job_bundle_size_bytes := job_bundle_size_bytes j;
     job_result_key := job_result_key j; job_output_name := job_output_name j;
     job_notification_email := job_notification_email j;
     job_cost_estimate_usd := job_cost_estimate_usd j; job_cost_final_usd := job_cost_final_usd j;
     job_eta_seconds := job_eta_seconds j; job_progress_percent := job_progress_percent j;
     job_attempts := job_attempts j; job_max_attempts := job_max_attempts j;
     job_error_message := job_error_message j; job_cancel_requested := job_cancel_requested j;
     job_cache_hit := job_cache_hit j; job_created_at := job_created_at j;
     job_started_at := job_started_at j; job_finished_at := v |}.

Definition set_job_error_message (v : option string) (j : Job) : Job :=
  {| job_uuid := job_uuid j; job_user_id := job_user_id j; job_status := job_status j;
     job_preset := job_preset j; job_gpu_class := job_gpu_class j; job_manifest := job_manifest j;
     job_custom_options := job_custom_options j; job_manifest_hash := job_manifest_hash j;
     job_project_hash := job_project_hash j; job_bundle_key := job_bundle_key j;
     job_bundle_sha256 := job_bundle_sha256 j; job_bundle_size_bytes := job_bundle_size_bytes j;
     job_result_key := job_result_key j; job_output_name := job_output_name j;
     job_notification_email := job_notification_email j;
     job_cost_estimate_usd := job_cost_estimate_usd j; job_cost_final_usd := job_cost_final_usd j;
     job_eta_seconds := job_eta_seconds j; job_progress_percent := job_progress_percent j;
     job_attempts := job_attempts j; job_max_attempts := job_max_attempts j; job_error_message := v;
     job_cancel_requested := job_cancel_requested j; job_cache_hit := job_cache_hit j;
     job_created_at := job_created_at j; job_started_at := job_started_at j;
     job_finished_at := job_finished_at j |}.

Definition set_job_result_key (v : option string) (j : Job) : Job :=
  {| job_uuid := job_uuid j; job_user_id := job_user_id j; job_status := job_status j;
     job_preset := job_preset j; job_gpu_class := job_gpu_class j; job_manifest := job_manifest j;
     job_custom_options := job_custom_options j; job_manifest_hash := job_manifest_hash j;
     job_project_hash := job_project_hash j; job_bundle_key := job_bundle_key j;
     job_bundle_sha256 := job_bundle_sha256 j; job_bundle_size_bytes := job_bundle_size_bytes j;
     job_result_key := v; job_output_name := job_output_name j;
     job_notification_email := job_notification_email j;
     job_cost_estimate_usd := job_cost_estimate_usd j; job_cost_final_usd := job_cost_final_usd j;
     job_eta_seconds := job_eta_seconds j; job_progress_percent := job_progress_percent j;
     job_attempts := job_attempts j; job_max_attempts := job_max_attempts j;
     job_error_message := job_error_message j; job_cancel_requested := job_cancel_requested j;
     job_cache_hit := job_cache_hit j; job_created_at := job_created_at j;
     job_started_at := job_started_at j; job_finished_at := job_finished_at j |}.

Definition set_job_cost_final_usd (v : option Q) (j : Job) : Job :=
  {| job_uuid := job_uuid j; job_user_id := job_user_id j; job_status := job_status j;
     job_preset := job_preset j; job_gpu_class := job_gpu_class j; job_manifest := job_manifest j;
     job_custom_options := job_custom_options j; job_manifest_hash := job_manifest_hash j;
     job_project_hash := job_project_hash j; job_bundle_key := job_bundle_key j;
     job_bundle_sha256 := job_bundle_sha256 j; job_bundle_size_bytes := job_bundle_size_bytes j;
     job_result_key := job_result_key j; job_output_name := job_output_name j;
     job_notification_email := job_notification_email j;
     job_cost_estimate_usd := job_cost_estimate_usd j; job_cost_final_usd := v;
     job_eta_seconds := job_eta_seconds j; job_progress_percent := job_progress_percent j;
     job_attempts := job_attempts j; job_max_attempts := job_max_attempts j;
     job_error_message := job_error_message j; job_cancel_requested := job_cancel_requested j;
     job_cache_hit := job_cache_hit j; job_created_at := job_created_at j;
     job_started_at := job_started_at j; job_finished_at := job_finished_at j |}.

Definition set_job_output_name (v : string) (j : Job) : Job :=
  {| job_uuid := job_uuid j; job_user_id := job_user_id j; job_status := job_status j;
     job_preset := job_preset j; job_gpu_class := job_gpu_class j; job_manifest := job_manifest j;
     job_custom_options := job_custom_options j; job_manifest_hash := job_manifest_hash j;
     job_project_hash := job_project_hash j; job_bundle_key := job_bundle_key j;
     job_bundle_sha256 := job_bundle_sha256 j; job_bundle_size_bytes := job_bundle_size_bytes j;
     job_result_key := job_result_key j; job_output_name := v;
     job_notification_email := job_notification_email j;
     job_cost_estimate_usd := job_cost_estimate_usd j; job_cost_final_usd := job_cost_final_usd j;
     job_eta_seconds := job_eta_seconds j; job_progress_percent := job_progress_percent j;
     job_attempts := job_attempts j; job_max_attempts := job_max_attempts j;
     job_error_message := job_error_message j; job_cancel_requested := job_cancel_requested j;
     job_cache_hit := job_cache_hit j; job_created_at := job_created_at j;
     job_started_at := job_started_at j; job_finished_at := job_finished_at j |}.

Definition set_job_attempts (v : Z) (j : Job) : Job :=
  {| job_uuid := job_uuid j; job_user_id := job_user_id j; job_status := job_status j;
     job_preset := job_preset j; job_gpu_class := job_gpu_class j; job_manifest := job_manifest j;
     job_custom_options := job_custom_options j; job_manifest_hash := job_manifest_hash j;
     job_project_hash := job_project_hash j; job_bundle_key := job_bundle_key j;
     job_bundle_sha256 := job_bundle_sha256 j; job_bundle_size_bytes := job_bundle_size_bytes j;
     job_result_key := job_result_key j; job_output_name := job_output_name j;
     job_notification_email := job_notification_email j;
     job_cost_estimate_usd := job_cost_estimate_usd j; job_cost_final_usd := job_cost_final_usd j;
     job_eta_seconds := job_eta_seconds j; job_progress_percent := job_progress_percent j;
     job_attempts := v; job_max_attempts := job_max_attempts j;
     job_error_message := job_error_message j; job_cancel_requested := job_cancel_requested j;
     job_cache_hit := job_cache_hit j; job_created_at := job_created_at j;
     job_started_at := job_started_at j; job_finished_at := job_finished_at j |}.

Definition set_job_cancel_requested (v : bool) (j : Job) : Job :=
  {| job_uuid := job_uuid j; job_user_id := job_user_id j; job_status := job_status j;
     job_preset := job_preset j; job_gpu_class := job_gpu_class j; job_manifest := job_manifest j;
     job_custom_options := job_custom_options j; job_manifest_hash := job_manifest_hash j;
     job_project_hash := job_project_hash j; job_bundle_key := job_bundle_key j;
     job_bundle_sha256 := job_bundle_sha256 j; job_bundle_size_bytes := job_bundle_size_bytes j;
     job_result_key := job_result_key j; job_output_name := job_output_name j;
     job_notification_email := job_notification_email j;
     job_cost_estimate_usd := job_cost_estimate_usd j; job_cost_final_usd := job_cost_final_usd j;
     job_eta_seconds := job_eta_seconds j; job_progress_percent := job_progress_percent j;
     job_attempts := job_attempts j; job_max_attempts := job_max_attempts j;
     job_error_message := job_error_message j; job_cancel_requested := v;
     job_cache_hit := job_cache_hit j; job_created_at := job_created_at j;
     job_started_at := job_started_at j; job_finished_at := job_finished_at j |}.

Record JobEvent := mkJobEvent {
  ev_job_id : string;
  ev_event_type : JobStatus;
  ev_message : string
}.

Record Usage := mkUsage {
  us_user_id : string;
  us_month : string;
  us_cost_usd : Q;
  us_minutes : Q
}.

(** [CacheEntry] declares no table constraint besides its primary key. *)
Record CacheEntry := mkCacheEntry {
  ce_manifest_hash : string;
  ce_preset : string;
  ce_result_key : string;
  ce_output_name : string
}.

(** The payload of [publish_progress] on channel [job:{id}] (the
    server-assigned [timestamp] is left out). *)
Record Message := mkMessage {
  msg_job_id : string;
  msg_status : JobStatus;
  msg_progress : Q;
  msg_error : option string
}.

(** ** The shared stores

    The relational store (five tables), the key-value store (the work
    queues [queue:{gpu_class}], head first, and the messages published so
    far, oldest first) and, as a ghost field, the successive contents of the
    [jobs] table at each commit that wrote to it (oldest first). *)

Record World := mkWorld {
  users : list User;
  jobs : gmap string Job;
  job_events : list JobEvent;
  usage : list Usage;
  cache_entries : list CacheEntry;
  credit_ledger : list CreditLedger;
  queues : gmap string (list string);
  published : list Message;
  commits : list (gmap string Job)
}.

Definition set_users (v : list User) (w : World) : World :=
  {| users := v; jobs := jobs w; job_events := job_events w; usage := usage w;
     cache_entries := cache_entries w; credit_ledger := credit_ledger w; queues := queues w;
     published := published w; commits := commits w |}.

Definition set_jobs (v : gmap string Job) (w : World) : World :=
  {| users := users w; jobs := v; job_events := job_events w; usage := usage w;
     cache_entries := cache_entries w; credit_ledger := credit_ledger w; queues := queues w;
     published := published w; commits := commits w |}.

Definition set_job_events (v : list JobEvent) (w : World) : World :=
  {| users := users w; jobs := jobs w; job_events := v; usage := usage w;
     cache_entries := cache_entries w; credit_ledger := credit_ledger w; queues := queues w;
     published := published w; commits := commits w |}.

Definition set_usage (v : list Usage) (w : World) : World :=
  {| users := users w; jobs := jobs w; job_events := job_events w; usage := v;
     cache_entries := cache_entries w; credit_ledger := credit_ledger w; queues := queues w;
     published := published w; commits := commits w |}.

Definition set_cache_entries (v : list CacheEntry) (w : World) : World :=
  {| users := users w; jobs := jobs w; job_events := job_events w; usage := usage w;
     cache_entries := v; credit_ledger := credit_ledger w; queues := queues w;
     published := published w; commits := commits w |}.

Definition set_credit_ledger (v : list CreditLedger) (w : World) : World :=
  {| users := users w; jobs := jobs w; job_events := job_events w; usage := usage w;
     cache_entries := cache_entries w; credit_ledger := v; queues := queues w;
     published := published w; commits := commits w |}.

Definition set_queues (v : gmap string (list string)) (w : World) : World :=
  {| users := users w; jobs := jobs w; job_events := job_events w; usage := usage w;
     cache_entries := cache_entries w; credit_ledger := credit_ledger w; queues := v;
     published := published w; commits := commits w |}.

Definition set_published (v : list Message) (w : World) : World :=
  {| users := users w; jobs := jobs w; job_events := job_events w; usage := usage w;
     cache_entries := cache_entries w; credit_ledger := credit_ledger w; queues := queues w;
     published := v; commits := commits w |}.

Definition set_commits (v : list (gmap string Job)) (w : World) : World :=
  {| users := users w; jobs := jobs w; job_events := job_events w; usage := usage w;
     cache_entries := cache_entries w; credit_ledger := credit_ledger w; queues := queues w;
     published := published w; commits := v |}.

(** [db.commit()] after the session wrote to [jobs]: the ghost snapshot. *)
Definition commit_jobs (w : World) : World :=
  set_commits (commits w ++ [jobs w]) w.

(** ** State and exceptions

    A computation over a store [S] returns the store it leaves behind
    together with its result or the exception it raised: what was committed
    before a [raise] stays committed. *)

Definition M (S A : Type) : Type := S -> S * Result A.

Definition mret {S A} (a : A) : M S A := fun s => (s, inr a).
Definition mraise {S A} (e : Exn) : M S A := fun s => (s, inl e).
Definition mbind {S A B} (m : M S A) (k : A -> M S B) : M S B :=
  fun s => match m s with
           | (s', inl e) => (s', inl e)
           | (s', inr a) => k a s'
           end.
Definition mget {S} : M S S := fun s => (s, inr s).
Definition mmodify {S} (f : S -> S) : M S unit := fun s => (f s, inr tt).
Definition mlift {S A} (r : Result A) : M S A := fun s => (s, r).
(** An external call that either succeeds or raises. *)
Definition mcall {S} (outcome : option Exn) : M S unit :=
  fun s => (s, match outcome with Some e => inl e | None => inr tt end).
Definition mwhen {S} (b : bool) (m : M S unit) : M S unit :=
  if b then m else mret tt.

Notation "x <~ m ;; k" := (mbind m (fun x => k))
  (at level 100, m at next level, right associativity).
Notation "m ;;; k" := (mbind m (fun _ => k))
  (at level 100, right associativity).

(** ** [queue.py] *)

Definition enqueue_job (job_id gpu_class : string) (w : World) : World :=
  set_queues (<[gpu_class := job_id :: default [] (queues w !! gpu_class)]> (queues w)) w.

(** [brpop]: the worker takes the oldest id, at the tail. *)
Definition dequeue_job (gpu_class : string) (w : World) : World * option string :=
  match last (default [] (queues w !! gpu_class)) with
  | None => (w, None)
  | Some item => (set_queues (alter (@removelast string) gpu_class (queues w)) w, Some item)
  end.

(** [lrem(queue_name, 0, job_id)]: every occurrence is removed. *)
Definition remove_job (job_id gpu_class : string) (w : World) : World :=
  set_queues (alter (filter (fun x => x ≠ job_id)) gpu_class (queues w)) w.

Definition publish_progress (payload : Message) (w : World) : World :=
  set_published (published w ++ [payload]) w.

(** Ledger operations lifted to the store. *)
Definition with_ledger (f : list CreditLedger -> Result (list CreditLedger)) : M World unit :=
  fun w => match f (credit_ledger w) with
           | inl e => (w, inl e)
           | inr l => (set_credit_ledger l w, inr tt)
           end.

(** ** The controller ([backend/app/main.py]) *)

Record JobCreateRequest := {
  req_bundleKey : string;
  req_bundleSha256 : string;
  req_bundleSizeBytes : Z;
  req_manifestHash : string;
  req_manifest : Manifest;
  req_preset : string;
  req_allowCache : bool;
  req_outputName : string;
  req_notificationEmail : option string;
  req_customOptions : option CustomOptions
}.

Record JobCreateResponse := {
  rsp_jobId : string;
  rsp_status : JobStatus;
  rsp_costUsd : Q;
  rsp_etaSeconds : Z
}.

Record CreditsResponse := {
  postedBalanceUsd : Q;
  reservedUsd : Q;
  availableUsd : Q;
  ledger_page : list CreditLedger
}.

(** [GET /credits]; the page is the hundred most recent rows of the user. *)
Definition get_credits (user : User) (w : World) : CreditsResponse :=
  let balances := get_balances (credit_ledger w) (u_id user) in
  let entries :=
    take 100 (reverse (filter (fun e => le_user_id e = u_id user) (credit_ledger w))) in
  {| postedBalanceUsd := posted_usd balances;
     reservedUsd := reserved_usd balances;
     availableUsd := available_usd balances;
     ledger_page := entries |}.

Definition ensure_usage_limit (user : User) (estimate_cost_usd : Q) (month : string)
  : M World unit :=
  w <~ mget ;;
  row <~ mlift (one_or_none
    (filter (fun us => us_user_id us = u_id user ∧ us_month us = month) (usage w))) ;;
  let total_cost := match row with Some us => us_cost_usd us | None => 0%Q end in
  if Qlt_bool (u_per_job_max_usd user) estimate_cost_usd
  then mraise (HTTPException 400 "Job exceeds per-job max spend.")
  else if Qlt_bool (u_monthly_limit_usd user) (total_cost + estimate_cost_usd)
  then mraise (HTTPException 400 "Monthly usage limit exceeded.")
  else mret tt.

(** [db.add(job); db.commit()] for a new row; the primary key is unique. *)
Definition add_job (job : Job) : M World unit :=
  fun w => match jobs w !! job_uuid job with
           | Some _ => (w, inl IntegrityError)
           | None => (commit_jobs (set_jobs (<[job_uuid job := job]> (jobs w)) w), inr tt)
           end.

(** Flush of a modified row object and [db.commit()]. *)
Definition save_job (job : Job) (w : World) : World :=
  commit_jobs (set_jobs (<[job_uuid job := job]> (jobs w)) w).

Definition job_message (job : Job) (progress : Q) (err : option string) : Message :=
  {| msg_job_id := job_uuid job; msg_status := job_status job;
     msg_progress := progress; msg_error := err |}.

Section Controller.
Context (settings : Settings).
(** [utils.hash_manifest]: SHA-256 of the canonical JSON text. *)
Context (hash_manifest : Manifest -> string).

(** [new_id] is the UUID drawn for the row, [now] the clock reading and
    [month] the value of [current_month()]. *)
Definition create_job (payload : JobCreateRequest) (user : User)
    (new_id : string) (now : Z) (month : string) : M World JobCreateResponse :=
  let manifest_dict := req_manifest payload in
  let manifest_hash := hash_manifest manifest_dict in
  if bool_decide (manifest_hash ≠ req_manifestHash payload)
  then mraise (HTTPException 400 "Manifest hash mismatch.")
  else
  est <~ mlift (estimate_cost settings manifest_dict (req_preset payload)
                  (req_bundleSizeBytes payload) (req_customOptions payload)) ;;
  let '(cost, eta, gpu_class, warnings) := est in
  let '(compat_warnings, compat_errors) := check_manifest manifest_dict in
  if nonempty compat_errors
  then mraise (HTTPException 400 (String.concat "; " compat_errors))
  else
  ensure_usage_limit user cost month ;;;
  cache <~ (if req_allowCache payload
            then w <~ mget ;;
                 mlift (one_or_none
                   (filter (fun c => ce_manifest_hash c = manifest_hash
                                     ∧ ce_preset c = req_preset payload)
                           (cache_entries w)))
            else mret None) ;;
  let job0 :=
    {| job_uuid := new_id; job_user_id := u_id user; job_status := QUEUED;
       job_preset := req_preset payload; job_gpu_class := gpu_class;
       job_manifest := manifest_dict; job_custom_options := req_customOptions payload;
       job_manifest_hash := manifest_hash;
       job_project_hash := project_hash_ manifest_dict;
       job_bundle_key := req_bundleKey payload;
       job_bundle_sha256 := req_bundleSha256 payload;
       job_bundle_size_bytes := req_bundleSizeBytes payload;
       job_result_key := None; job_output_name := req_outputName payload;
       job_notification_email := req_notificationEmail payload;
       job_cost_estimate_usd := cost; job_cost_final_usd := None;
       job_eta_seconds := eta; job_progress_percent := 0; job_attempts := 0;
       job_max_attempts := 3; job_error_message := None;
       job_cancel_requested := false; job_cache_hit := false;
       job_created_at := now; job_started_at := None; job_finished_at := None |} in
  match cache with
  | Some cache =>
      let job :=
        {| job_uuid := new_id; job_user_id := u_id user; job_status := COMPLETED;
           job_preset := req_preset payload; job_gpu_class := gpu_class;
           job_manifest := manifest_dict;
           job_custom_options := req_customOptions payload;
           job_manifest_hash := manifest_hash;
           job_project_hash := project_hash_ manifest_dict;
           job_bundle_key := req_bundleKey payload;
           job_bundle_sha256 := req_bundleSha256 payload;
           job_bundle_size_bytes := req_bundleSizeBytes payload;
           job_result_key := Some (ce_result_key cache);
           job_output_name := ce_output_name cache;
           job_notification_email := req_notificationEmail payload;
           job_cost_estimate_usd := cost; job_cost_final_usd := Some cost;
           job_eta_seconds := 0; job_progress_percent := 100; job_attempts := 0;
           job_max_attempts := 3; job_error_message := None;
           job_cancel_requested := false; job_cache_hit := true;
           job_created_at := now; job_started_at := Some now;
           job_finished_at := Some now |} in
      add_job job ;;;
      (fun w => match reserve_credits (credit_ledger w) (u_id user) (job_uuid job) cost with
                | inl (ValueError _) => (w, inl (HTTPException 400 "Insufficient credits"))
                | inl e => (w, inl e)
                | inr (l, _) => (set_credit_ledger l w, inr tt)
                end) ;;;
      with_ledger (fun l => settle_job_credits l (job_uuid job) cost) ;;;
      mmodify (publish_progress (job_message job (job_progress_percent job) None)) ;;;
      mret {| rsp_jobId := job_uuid job; rsp_status := job_status job;
              rsp_costUsd := cost; rsp_etaSeconds := 0 |}
  | None =>
      let job := job0 in
      add_job job ;;;
      (fun w => match reserve_credits (credit_ledger w) (u_id user) (job_uuid job) cost with
                | inl (ValueError _) =>
                    let job' := set_job_error_message (Some "Insufficient credits")
                                  (set_job_status FAILED job) in
                    (save_job job' w, inl (HTTPException 400 "Insufficient credits"))
                | inl e => (w, inl e)
                | inr (l, _) => (set_credit_ledger l w, inr tt)
                end) ;;;
      mmodify (fun w => set_job_events
        (job_events w ++ [{| ev_job_id := job_uuid job; ev_event_type := QUEUED;
                             ev_message := "Job queued" |}]) w) ;;;
      mmodify (publish_progress (job_message job 0 None)) ;;;
      mmodify (enqueue_job (job_uuid job) gpu_class) ;;;
      mret {| rsp_jobId := job_uuid job; rsp_status := job_status job;
              rsp_costUsd := cost; rsp_etaSeconds := eta |}
  end.
End Controller.

(** [Job.id == job_id, Job.user_id == user.id] on the primary-key map. *)
Definition find_job (job_id : string) (user : User) (w : World) : option Job :=
  match jobs w !! job_id with
  | Some job => if bool_decide (job_user_id job = u_id user) then Some job else None
  | None => None
  end.

(** [GET /jobs/result/{job_id}]: the key handed to the presigner. *)
Definition job_result (job_id : string) (user : User) (w : World) : Result string :=
  match find_job job_id user w with
  | None => inl (HTTPException 404 "Job not found")
  | Some job =>
      match job_result_key job with
      | Some key =>
          if bool_decide (job_status job ≠ COMPLETED) || bool_decide (key = "")
          then inl (HTTPException 400 "Job not complete")
          else inr key
      | None => inl (HTTPException 400 "Job not complete")
      end
  end.

Definition cancel_job (job_id : string) (user : User) (now : Z) : M World string :=
  w <~ mget ;;
  match find_job job_id user w with
  | None => mraise (HTTPException 404 "Job not found")
  | Some job =>
      let job := set_job_cancel_requested true job in
      if bool_decide (job_status job = QUEUED) then
        mmodify (remove_job (job_uuid job) (job_gpu_class job)) ;;;
        let job := set_job_finished_at (Some now)
                     (set_job_progress_percent 0 (set_job_status CANCELLED job)) in
        mmodify (save_job job) ;;;
        with_ledger (fun l => void_reservation l (job_uuid job) "cancelled") ;;;
        mmodify (publish_progress
          {| msg_job_id := job_uuid job; msg_status := CANCELLED;
             msg_progress := 0; msg_error := None |}) ;;;
        mret "cancel_requested"
      else
        mmodify (save_job job) ;;;
        mret "cancel_requested"
  end.

(** *** The payment webhook *)

Record LemonAttributes := {
  at_total_usd : option Q;
  at_total : option Q;
  at_subtotal : option Q;
  at_currency : option string;
  at_user_email : option string;
  at_email : option string;
  at_variant_id : option string
}.

(** A request to [/webhooks/lemon]: the signature header, the raw body and
    what [json.loads] reads from it.  The numeric attributes hold the value
    that [float(...)] returns, [at_currency] and [at_variant_id] the value
    of [str(...)]; a body that is not JSON, or whose amount is not a
    number, is not described. *)
Record LemonRequest := {
  lr_signature : option string;
  lr_body : string;
  lr_event_name : option string;
  lr_data_id : option string;
  lr_attributes : LemonAttributes
}.

(** Truthiness of an optional string: [None] and [''] are falsy. *)
Definition truthy (o : option string) : option string :=
  match o with
  | Some s => if bool_decide (s = "") then None else Some s
  | None => None
  end.

(** A [str] that holds ASCII characters only. *)
Fixpoint is_ascii (s : string) : bool :=
  match s with
  | EmptyString => true
  | String c rest => Nat.ltb (Ascii.nat_of_ascii c) 128 && is_ascii rest
  end.

(** [hmac.compare_digest] on two [str] values: it raises [TypeError] unless
    both hold ASCII characters only. *)
Definition compare_digest (a b : string) : Result bool :=
  if is_ascii a && is_ascii b then inr (bool_decide (a = b))
  else inl (OtherException "comparing strings with non-ASCII characters is not supported").

Section Webhook.
Context (settings : Settings).

(** Two functions of Python's library are left uninterpreted: [str.upper],
    which follows the Unicode case mapping, and the hex digest
    [hmac.new(secret, payload, hashlib.sha256).hexdigest()]. *)
Context (str_upper : string -> string)
        (hexdigest : string -> string -> string).

Definition _verify_lemon_signature (secret signature payload : string) : Result bool :=
  let digest := hexdigest secret payload in
  compare_digest digest signature.

Definition _parse_lemon_amount_usd (attributes : LemonAttributes) : Result Q :=
  match at_total_usd attributes with
  | Some v => inr v
  | None =>
      match at_total attributes, at_subtotal attributes, at_currency attributes with
      | Some total, _, Some currency =>
          if bool_decide (str_upper currency ≠ "USD")
          then inl (ValueError "Unsupported currency")
          else inr (total / 100)%Q
      | None, Some subtotal, Some currency =>
          if bool_decide (str_upper currency ≠ "USD")
          then inl (ValueError "Unsupported currency")
          else inr (subtotal / 100)%Q
      | _, _, _ => inl (ValueError "Missing payment amount")
      end
  end.

(** [new_user] is the row inserted when the payer is unknown and users are
    auto-created (fresh id, hashed random key and its hint). *)
Definition lemon_webhook (request : LemonRequest) (new_user : User) : M World string :=
  match truthy (lemon_webhook_secret settings) with
  | None => mraise (HTTPException 500 "Webhook not configured")
  | Some secret =>
  match truthy (lr_signature request) with
  | None => mraise (HTTPException 401 "Invalid signature")
  | Some signature =>
  valid <~ mlift (_verify_lemon_signature secret signature (lr_body request)) ;;
  if negb valid
  then mraise (HTTPException 401 "Invalid signature")
  else
  let attributes := lr_attributes request in
  if negb (bool_decide (lr_event_name request = Some "order_created")
           || bool_decide (lr_event_name request = Some "subscription_payment_success"))
  then mret "ignored"
  else
  match truthy (match truthy (at_user_email attributes) with
                | Some e => Some e
                | None => at_email attributes
                end),
        truthy (lr_data_id request) with
  | Some email, Some external_id =>
      w <~ mget ;;
      existing <~ mlift (one_or_none
        (filter (fun e => le_external_id e = Some external_id) (credit_ledger w))) ;;
      match existing with
      | Some _ => mret "ok"
      | None =>
          match _parse_lemon_amount_usd attributes with
          | inl err => mraise (HTTPException 400 (str_exn err))
          | inr amount_usd =>
              let credits :=
                match lemon_variant_credits settings, truthy (at_variant_id attributes) with
                | Some variant_map, Some variant_id =>
                    default amount_usd (variant_map !! variant_id)
                | _, _ => amount_usd
                end in
              user <~ mlift (one_or_none
                (filter (fun u => u_email u = email) (users w))) ;;
              user <~ match user with
                      | Some u => mret u
                      | None =>
                          if negb (lemon_auto_create_users settings)
                          then mraise (HTTPException 404 "User not found")
                          else
                            let u := {| u_id := u_id new_user; u_email := email;
                                        u_api_key_hash := u_api_key_hash new_user;
                                        u_api_key_hint := u_api_key_hint new_user;
                                        u_is_active := true;
                                        u_monthly_limit_usd := 200;
                                        u_per_job_max_usd := 50;
                                        u_is_admin := false |} in
                            mmodify (fun w => set_users (users w ++ [u]) w) ;;;
                            mret u
                      end ;;
              with_ledger (fun l =>
                credit_purchase l (u_id user) credits external_id "lemon") ;;;
              mret "ok"
          end
      end
  | _, _ => mraise (HTTPException 400 "Missing email or id")
  end
  end
  end.
End Webhook.

(** ** The worker ([worker/worker.py]) *)

Definition STATUS_PROGRESS (status : JobStatus) : option Q :=
  match status with
  | DOWNLOADING => Some 10%Q
  | VALIDATING => Some 20%Q
  | RENDERING => Some 60%Q
  | PACKAGING => Some 85%Q
  | UPLOADING => Some 92%Q
  | COMPLETED => Some 100%Q
  | FAILED => Some 0%Q
  | CANCELLED => Some 0%Q
  | CREATED | QUEUED => None
  end.

Definition is_terminal (status : JobStatus) : bool :=
  match status with COMPLETED | FAILED | CANCELLED => true | _ => false end.

(** The worker's session: the store and the [job] row object it holds.
    Attribute assignments change the object; they reach the store at the
    next commit. *)
Record WState := mkWState {
  ws_world : World;
  ws_job : Job
}.

Definition set_job (f : Job -> Job) : M WState unit :=
  mmodify (fun st => {| ws_world := ws_world st; ws_job := f (ws_job st) |}).

Definition on_world (m : M World unit) : M WState unit :=
  fun st => match m (ws_world st) with
            | (w, r) => ({| ws_world := w; ws_job := ws_job st |}, r)
            end.

Definition update_job (status : JobStatus) (message : string)
    (progress : option Q) (error : option string) (now : Z) : M WState unit :=
  mmodify (fun st =>
    let job := set_job_status status (ws_job st) in
    let progress :=
      match progress with
      | Some p => p
      | None => default (job_progress_percent job) (STATUS_PROGRESS status)
      end in
    let job := set_job_progress_percent progress job in
    let job := if bool_decide (status = RENDERING)
                  && bool_decide (job_started_at job = None)
               then set_job_started_at (Some now) job else job in
    let job := if is_terminal status then set_job_finished_at (Some now) job else job in
    let job := match truthy error with
               | Some e => set_job_error_message (Some e) job
               | None => job
               end in
    let w := ws_world st in
    let w := set_job_events
               (job_events w ++ [{| ev_job_id := job_uuid job; ev_event_type := status;
                                    ev_message := message |}]) w in
    let w := save_job job w in
    let w := publish_progress
               (job_message job (job_progress_percent job) (job_error_message job)) w in
    {| ws_world := w; ws_job := job |}).

Definition update_usage (job : Job) (minutes : Q) (month : string) : M World unit :=
  w <~ mget ;;
  row <~ mlift (one_or_none
    (select (fun us => us_user_id us = job_user_id job ∧ us_month us = month) (usage w))) ;;
  let cost := default 0%Q (job_cost_final_usd job) in
  match row with
  | Some (i, us) =>
      mmodify (set_usage (<[i := {| us_user_id := us_user_id us; us_month := us_month us;
                                   us_cost_usd := (us_cost_usd us + cost)%Q;
                                   us_minutes := (us_minutes us + minutes)%Q |}]> (usage w)))
  | None =>
      mmodify (set_usage (usage w ++ [{| us_user_id := job_user_id job; us_month := month;
                                         us_cost_usd := (0 + cost)%Q;
                                         us_minutes := (0 + minutes)%Q |}]))
  end.

(** One line read from the renderer's output. *)
Inductive RenderLine :=
  | NoLine                      (** [readline()] returned the empty string *)
  | OtherLine                   (** a line without ['PROGRESS:'] *)
  | BadProgress                 (** ['PROGRESS:'] followed by no number *)
  | Progress (percent : Q).

(** A finite run of the render subprocess as the polling loop observes it.
    [RPoll]: an iteration in which [process.poll()] is still [None]; it
    records the line read, the caller whose cancel request reached the
    controller since the previous iteration (if any) and whether the elapsed
    time now exceeds [render_timeout_minutes * 60].  [RExit]: the iteration
    in which the process is found to have exited. *)
Inductive RenderTrace :=
  | RExit (line : RenderLine) (returncode : Z)
  | RPoll (line : RenderLine) (cancel_by : option User) (timed_out : bool)
          (rest : RenderTrace).

(** What the outside world answers during one run of [process_job]. *)
Record WorkerEnv := {
  env_GPU_CLASS : option string;        (** [os.environ.get('GPU_CLASS')] *)
  env_utcnow : JobStatus -> Z;          (** the clock when a status is entered *)
  env_utcnow_settle : Z;                (** the clock when minutes are billed *)
  env_month : string;                   (** [current_month()] *)
  env_download : option Exn;            (** [download_file] *)
  env_digest : string;                  (** [compute_sha256] of the bundle *)
  env_extract : option Exn;             (** [ZipFile.extractall] *)
  env_manifest_exists : bool;
  env_manifest : Result Manifest;       (** [json.loads] of [manifest.json] *)
  env_project_exists : bool;
  env_render : Result RenderTrace;      (** [inl]: [Popen] itself raised *)
  env_transcode : option Exn;           (** [subprocess.check_call] *)
  env_upload : option Exn;              (** [upload_file] *)
  env_notify : option Exn               (** presigning and [send_email] *)
}.

Section Worker.
Context (settings : Settings).
(** [Path.with_suffix] on the file name. *)
Context (with_suffix : string -> string -> string).
Context (env : WorkerEnv).

Definition handle_line (line : RenderLine) : M WState unit :=
  match line with
  | Progress percent =>
      update_job RENDERING "Rendering"
        (Some (Qmin 90 (30 + percent * (6 # 10)))) None (env_utcnow env RENDERING)
  | _ => mret tt
  end.

(** [db.refresh(job)] *)
Definition refresh : M WState unit :=
  mmodify (fun st =>
    {| ws_world := ws_world st;
       ws_job := default (ws_job st) (jobs (ws_world st) !! job_uuid (ws_job st)) |}).

(** The polling loop of [run_render], once the process is spawned. *)
Fixpoint run_render_loop (trace : RenderTrace) : M WState unit :=
  match trace with
  | RExit line returncode =>
      handle_line line ;;;
      if bool_decide (returncode ≠ 0%Z) then mraise (RuntimeError "aerender failed")
      else mret tt
  | RPoll line cancel_by timed_out rest =>
      handle_line line ;;;
      st <~ mget ;;
      match cancel_by with
      | Some caller =>
          on_world (fun w =>
            ((cancel_job (job_uuid (ws_job st)) caller (env_utcnow env CANCELLED) w).1,
             inr tt))
      | None => mret tt
      end ;;;
      refresh ;;;
      st <~ mget ;;
      if job_cancel_requested (ws_job st) then
        update_job CANCELLED "Render cancelled by user" None None
          (env_utcnow env CANCELLED) ;;;
        mraise (RuntimeError "cancelled")
      else if timed_out then
        update_job FAILED "Render timed out" None (Some "Render timeout")
          (env_utcnow env FAILED) ;;;
        mraise (RuntimeError "timeout")
      else run_render_loop rest
  end.

Definition run_render : M WState unit :=
  trace <~ mlift (env_render env) ;;
  run_render_loop trace.

(** The file name [transcode_output] produces. *)
Definition transcode_output (preset : string) (custom_options : option CustomOptions)
    (output_name : string) : M WState string :=
  let output_path :=
    if bool_decide (preset = "high_quality") then with_suffix output_name ".mov"
    else
      let chosen := "h264" in
      let chosen :=
        match custom_options with
        | Some co => if bool_decide (preset = "custom")
                     then default chosen (codec co) else chosen
        | None => chosen
        end in
      if bool_decide (chosen = "prores") then with_suffix output_name ".mov"
      else with_suffix output_name ".mp4" in
  mcall (env_transcode env) ;;;
  mret output_path.
(** The body of the [try] block of [process_job]. *)
Definition process_body : M WState unit :=
  update_job DOWNLOADING "Downloading bundle" None None (env_utcnow env DOWNLOADING) ;;;
  mcall (env_download env) ;;;
  st <~ mget ;;
  mwhen (negb (bool_decide (job_bundle_sha256 (ws_job st) ∈ ["pending"; "cache"])))
    (mwhen (bool_decide (env_digest env ≠ job_bundle_sha256 (ws_job st)))
       (mraise (RuntimeError "Bundle checksum mismatch"))) ;;;
  update_job VALIDATING "Validating bundle" None None (env_utcnow env VALIDATING) ;;;
  mcall (env_extract env) ;;;
  mwhen (negb (env_manifest_exists env))
    (mraise (RuntimeError "Manifest missing from bundle")) ;;;
  manifest <~ mlift (env_manifest env) ;;
  mwhen (nonempty (check_manifest manifest).2)
    (mraise (RuntimeError (String.concat "; " (check_manifest manifest).2))) ;;;
  mwhen (negb (env_project_exists env))
    (mraise (RuntimeError "Project file missing in bundle")) ;;;
  update_job RENDERING "Rendering" None None (env_utcnow env RENDERING) ;;;
  run_render ;;;
  update_job PACKAGING "Transcoding" None None (env_utcnow env PACKAGING) ;;;
  st <~ mget ;;
  output_path <~ transcode_output (job_preset (ws_job st))
                   (job_custom_options (ws_job st)) (job_output_name (ws_job st)) ;;
  set_job (set_job_output_name output_path) ;;;
  update_job UPLOADING "Uploading render" None None (env_utcnow env UPLOADING) ;;;
  st <~ mget ;;
  let job := ws_job st in
  let result_key :=
    ("results/" ++ job_user_id job ++ "/" ++ job_uuid job ++ "/" ++ output_path)%string in
  mcall (env_upload env) ;;;
  let started := default (env_utcnow_settle env) (job_started_at job) in
  let minutes := Qmax 1 (inject_Z (env_utcnow_settle env - started) / 60) in
  let actual_cost :=
    compute_actual_cost settings (job_manifest job) (job_preset job)
      (job_bundle_size_bytes job) minutes (job_custom_options job) in
  set_job (set_job_result_key (Some result_key)) ;;;
  set_job (set_job_cost_final_usd (Some actual_cost)) ;;;
  update_job COMPLETED "Completed" (Some 100%Q) None (env_utcnow env COMPLETED) ;;;
  on_world (with_ledger (fun l => settle_job_credits l (job_uuid job) actual_cost)) ;;;
  st <~ mget ;;
  on_world (update_usage (ws_job st) minutes (env_month env)) ;;;
  on_world (mmodify (fun w => set_cache_entries
    (cache_entries w ++ [{| ce_manifest_hash := job_manifest_hash job;
                            ce_preset := job_preset job;
                            ce_result_key := result_key;
                            ce_output_name := output_path |}]) w)) ;;;
  mwhen (bool_decide (truthy (job_notification_email job) ≠ None))
    (mcall (env_notify env)).

(** The [except] clauses of [process_job]. *)
Definition handle_error (err : Exn) : M WState unit :=
  st <~ mget ;;
  if is_RuntimeError err then
    if bool_decide (str_exn err = "cancelled") then
      on_world (with_ledger (fun l =>
        void_reservation l (job_uuid (ws_job st)) "cancelled"))
    else
      set_job (fun job => set_job_attempts (job_attempts job + 1)%Z job) ;;;
      st <~ mget ;;
      let job := ws_job st in
      if (job_attempts job <? job_max_attempts job)%Z then
        update_job QUEUED ("Retrying (" ++ pretty (job_attempts job) ++ ")")%string
          (Some 10%Q) None (env_utcnow env QUEUED) ;;;
        let enqueue := default (job_gpu_class job) (env_GPU_CLASS env) in
        on_world (mmodify (enqueue_job (job_uuid job) enqueue))
      else
        update_job FAILED "Render failed" None (Some (str_exn err))
          (env_utcnow env FAILED) ;;;
        on_world (with_ledger (fun l => void_reservation l (job_uuid job) "failed"))
  else
    update_job FAILED "Unhandled error" None (Some (str_exn err))
      (env_utcnow env FAILED) ;;;
    on_world (with_ledger (fun l =>
      void_reservation l (job_uuid (ws_job st)) "failed")).

(** [process_job]: the result is [inl] when an exception escapes. *)
Definition process_job (job_id : string) (w : World) : World * Result unit :=
  match jobs w !! job_id with
  | None => (w, inr tt)
  | Some job =>
      match process_body {| ws_world := w; ws_job := job |} with
      | (st, inr _) => (ws_world st, inr tt)
      | (st, inl err) =>
          match handle_error err st with
          | (st', r) => (ws_world st', r)
          end
      end
  end.

(** One turn of the loop of [main]. *)
Definition main_iteration (gpu_class : string) (w : World) : World * Result unit :=
  match dequeue_job gpu_class w with
  | (w', Some job_id) =>
      if bool_decide (job_id = "") then (w', inr tt) else process_job job_id w'
  | (w', None) => (w', inr tt)
  end.
End Worker.

(** ** Runs of the system *)

(** Successive deliveries of the payment webhook. *)
Fixpoint run_webhooks (settings : Settings) (str_upper : string -> string)
    (hexdigest : string -> string -> string)
    (deliveries : list (LemonRequest * User)) (w : World) : World :=
  match deliveries with
  | [] => w
  | (request, new_user) :: rest =>
      run_webhooks settings str_upper hexdigest rest
        (lemon_webhook settings str_upper hexdigest request new_user w).1
  end.

Definition empty_world : World :=
  {| users := []; jobs := ∅; job_events := []; usage := []; cache_entries := [];
     credit_ledger := []; queues := ∅; published := []; commits := [] |}.

(** The stores reachable from the empty ones through the operations that
    write to [jobs] or to the result cache, in any interleaving of whole
    requests and whole worker turns, plus ledger writes of any kind. *)
Inductive reachable (settings : Settings) (hash_manifest : Manifest -> string)
    (with_suffix : string -> string -> string) : World -> Prop :=
  | reach_empty : reachable settings hash_manifest with_suffix empty_world
  | reach_users w us :
      reachable settings hash_manifest with_suffix w ->
      reachable settings hash_manifest with_suffix (set_users us w)
  | reach_ledger w l :
      reachable settings hash_manifest with_suffix w ->
      reachable settings hash_manifest with_suffix (set_credit_ledger l w)
  | reach_create w payload user new_id now month :
      reachable settings hash_manifest with_suffix w ->
      reachable settings hash_manifest with_suffix
        (create_job settings hash_manifest payload user new_id now month w).1
  | reach_cancel w job_id user now :
      reachable settings hash_manifest with_suffix w ->
      reachable settings hash_manifest with_suffix (cancel_job job_id user now w).1
  | reach_worker w env gpu_class :
      reachable settings hash_manifest with_suffix w ->
      reachable settings hash_manifest with_suffix
        (main_iteration settings with_suffix env gpu_class w).1
  | reach_process w env job_id :
      reachable settings hash_manifest with_suffix w ->
      reachable settings hash_manifest with_suffix
        (process_job settings with_suffix env job_id w).1.

(** ** Scenario data *)

Module Scenario.
Definition alice : User :=
  {| u_id := "u1"; u_email := "alice@example.com"; u_api_key_hash := "$2b$12$hash";
     u_api_key_hint := "abcdef"; u_is_active := true; u_monthly_limit_usd := 200;
     u_per_job_max_usd := 50; u_is_admin := false |}.

Definition manifest : Manifest :=
  {| project_hash_ := "p-hash";
     composition := {| comp_name := "Main"; durationSeconds := 60 |};
     fonts := ["Arial"]; effects := ["ADBE Gaussian Blur 2"]; expressionsCount := 0 |}.

Definition hash_manifest (m : Manifest) : string := "m-hash".
Definition with_suffix (name ext : string) : string := (name ++ ext)%string.

Definition purchase (amount : Q) : CreditLedger :=
  {| le_user_id := "u1"; le_entry_type := PURCHASE; le_status := posted;
     le_amount_usd := amount; le_currency := "USD"; le_job_id := None;
     le_external_id := Some "order-1"; le_details := DSource "lemon" |}.

(** Alice holds 100 USD of posted credit. *)
Definition funded : World := set_credit_ledger [purchase 100] (set_users [alice] empty_world).

Definition request (allow_cache : bool) : JobCreateRequest :=
  {| req_bundleKey := "bundles/u1/m-hash.zip"; req_bundleSha256 := "pending";
     req_bundleSizeBytes := 120000000; req_manifestHash := "m-hash";
     req_manifest := manifest; req_preset := "web"; req_allowCache := allow_cache;
     req_outputName := "out"; req_notificationEmail := None;
     req_customOptions := None |}.

Definition submit (allow_cache : bool) (new_id : string) (w : World)
  : World * Result JobCreateResponse :=
  create_job default_settings hash_manifest (request allow_cache) alice new_id 0
    "2026-01" w.

(** An environment in which every external step succeeds and the renderer
    behaves as [trace] tells. *)
Definition env (trace : RenderTrace) : WorkerEnv :=
  {| env_GPU_CLASS := None; env_utcnow := fun _ => 1000%Z; env_utcnow_settle := 1060%Z;
     env_month := "2026-01"; env_download := None; env_digest := "0f"; env_extract := None;
     env_manifest_exists := true; env_manifest := inr manifest;
     env_project_exists := true; env_render := inr trace; env_transcode := None;
     env_upload := None; env_notify := None |}.

Definition work (trace : RenderTrace) (w : World) : World * Result unit :=
  main_iteration default_settings with_suffix (env trace) "rtx4090" w.

(** The renderer exits at once with status 0. *)
Definition quick : RenderTrace := RExit NoLine 0.
(** The renderer reports 10% and then exits with status 0. *)
Definition reporting : RenderTrace := RPoll (Progress 10) None false (RExit NoLine 0).
(** The renderer is still running when the wall-clock limit is exceeded. *)
Definition overrunning : RenderTrace := RPoll NoLine None true (RExit NoLine 0).

(** Alice's job [j1], submitted and queued. *)
Definition queued : World := (submit true "j1" funded).1.

Definition progress_of (job_id : string) (w : World) : list Q :=
  map (fun m => Qred (msg_progress m))
      (filter (fun m => msg_job_id m = job_id) (published w)).
(** The ledger after Alice reserved 10 USD for job [j1]. *)
Definition reserved_ten : list CreditLedger :=
  match reserve_credits [purchase 100] "u1" "j1" 10 with
  | inr (l, _) => l
  | inl _ => []
  end.

(** A composition of 1098.81 seconds without effects or expressions, and
    the size of its bundle. *)
Definition long_manifest : Manifest :=
  {| project_hash_ := "p-hash";
     composition := {| comp_name := "Main"; durationSeconds := 109881 # 100 |};
     fonts := []; effects := []; expressionsCount := 0 |}.

Definition long_bundle_size_bytes : Z := 1003224400.

(** A configured webhook and a signed [order_created] delivery of 25 USD
    for Alice with external id [order-7]. *)
Definition lemon_settings : Settings :=
  {| min_job_cost_usd := 1; storage_rate_per_gb_hour := 1 # 1000;
     transfer_rate_per_gb := 5 # 100; upload_mbps := 50;
     gpu_rate_per_minute := ∅; gpu_speed_factor := ∅;
     render_timeout_minutes := 120; lemon_webhook_secret := Some "whsec";
     lemon_variant_credits := Some ∅; lemon_auto_create_users := false |}.

(** Stand-ins for the two library functions: upper-casing of the ASCII
    letters, which is what [str.upper] does on ASCII strings, and a toy
    keyed checksum in place of HMAC-SHA256. *)
Definition ascii_upper (c : Ascii.ascii) : Ascii.ascii :=
  let n := Ascii.nat_of_ascii c in
  if Nat.leb 97 n && Nat.leb n 122 then Ascii.ascii_of_nat (n - 32) else c.

Fixpoint str_upper (s : string) : string :=
  match s with
  | EmptyString => EmptyString
  | String c rest => String (ascii_upper c) (str_upper rest)
  end.

Fixpoint byte_sum (s : string) : N :=
  match s with
  | EmptyString => 0%N
  | String c rest => (Ascii.N_of_ascii c + byte_sum rest)%N
  end.

Definition hexdigest (secret payload : string) : string :=
  pretty (byte_sum secret + byte_sum payload)%N.

Definition order : LemonRequest :=
  {| lr_signature := Some (hexdigest "whsec" "order-7 for alice");
     lr_body := "order-7 for alice";
     lr_event_name := Some "order_created"; lr_data_id := Some "order-7";
     lr_attributes := {| at_total_usd := Some 25%Q; at_total := None;
                         at_subtotal := None; at_currency := None;
                         at_user_email := Some "alice@example.com";
                         at_email := None; at_variant_id := None |} |}.
End Scenario.

(** * Properties *)

(** ** The credit ledger *)



(** C1 (evaluation at the failing input): with 100 USD posted, reserving 10
    and settling at 4 leaves the reserved sum at 0 but the posted balance at
    102, not at 96: the RESERVE row is rewritten to -4 and a REFUND row of +6
    is posted on top of it. *)
Theorem settle_below_reservation_posts_refund_twice :
  exists l1 b l2,
    reserve_credits [Scenario.purchase 100] "u1" "j1" 10 = inr (l1, b)
    /\ settle_job_credits l1 "j1" 4 = inr l2
    /\ (posted_usd (get_balances [Scenario.purchase 100] "u1") == 100)%Q
    /\ (posted_usd (get_balances l2 "u1") == 102)%Q
    /\ (reserved_usd (get_balances l2 "u1") == 0)%Q
    /\ map (fun e => (le_entry_type e, le_status e, Qred (le_amount_usd e))) l2
       = [(PURCHASE, posted, 100%Q); (RESERVE, posted, (-4)%Q); (REFUND, posted, 6%Q)].
Proof.
  eexists _, _, _. split; [vm_compute; reflexivity|].
  split; [vm_compute; reflexivity|].
  repeat split; vm_compute; reflexivity.
Qed.

(** *** Queries with positions *)

Lemma select_snoc {A} (P : A -> Prop) `{!∀ e, Decision (P e)} (l : list A) (e : A) :
  select P (l ++ [e]) = select P l ++ (if decide (P e) then [(length l, e)] else []).
Proof.
  unfold select. rewrite imap_app, filter_app. f_equal.
  simpl. rewrite Nat.add_0_r. rewrite filter_cons. simpl.
  destruct (decide (P e)); reflexivity.
Qed.

Lemma filter_none {A} (P : A -> Prop) `{!∀ e, Decision (P e)} (l : list A) :
  Forall (fun e => ¬ P e) l -> filter P l = [].
Proof.
  intros Hall. induction Hall as [|e l He Hl IH]; [reflexivity|].
  rewrite filter_cons. destruct (decide (P e)); [contradiction|exact IH].
Qed.

Lemma select_none {A} (P : A -> Prop) `{!∀ e, Decision (P e)} (l : list A) :
  Forall (fun e => ¬ P e) l -> select P l = [].
Proof.
  intros Hall. unfold select. apply filter_none.
  apply Forall_forall. intros [i e] Hin. simpl.
  apply elem_of_lookup_imap in Hin as (i' & e' & Heq & Hl). inversion Heq; subst.
  rewrite Forall_forall in Hall. apply Hall. eapply list_elem_of_lookup_2. exact Hl.
Qed.

Lemma insert_snoc {A} (l : list A) (e e' : A) :
  <[length l := e']> (l ++ [e]) = l ++ [e'].
Proof.
  rewrite insert_app_r_alt by lia. rewrite Nat.sub_diag. reflexivity.
Qed.

Lemma filter_snoc {A} (P : A -> Prop) `{!∀ e, Decision (P e)} (l : list A) (e : A) :
  filter P (l ++ [e]) = filter P l ++ (if decide (P e) then [e] else []).
Proof.
  rewrite filter_app. reflexivity.
Qed.


(** *** Reserve, then settle *)


(** *** The balance query *)

(** C2 (counterexample): while Alice's reservation of 10 USD is live, the
    balance query reports a reserved balance of -10, which is negative and
    differs from the absolute value of the reserved sum. *)
Lemma reserved_balance_is_negative_while_live :
  let w := set_credit_ledger Scenario.reserved_ten Scenario.funded in
  (reservedUsd (get_credits Scenario.alice w) == -10)%Q
  /\ ¬ (0 <= reservedUsd (get_credits Scenario.alice w))%Q
  /\ ¬ (reservedUsd (get_credits Scenario.alice w)
        == Qabs (sum_amount
             (filter (fun e => le_user_id e = "u1" ∧ le_status e = reserved)
                     (credit_ledger w))))%Q.
Proof.
  repeat split.
  - intros H. vm_compute in H. apply H. reflexivity.
  - intros H. vm_compute in H. discriminate H.
Qed.

(** The ledgers the program can build: every write to [credit_ledger] goes
    through one of the five operations of [credits.py], starting from the
    empty table. *)
Inductive ledger_reachable : list CreditLedger -> Prop :=
  | ledger_empty : ledger_reachable []
  | ledger_reserve l user_id job_id amount l' b :
      ledger_reachable l ->
      reserve_credits l user_id job_id amount = inr (l', b) ->
      ledger_reachable l'
  | ledger_settle l job_id actual_cost l' :
      ledger_reachable l ->
      settle_job_credits l job_id actual_cost = inr l' ->
      ledger_reachable l'
  | ledger_void l job_id reason l' :
      ledger_reachable l ->
      void_reservation l job_id reason = inr l' ->
      ledger_reachable l'
  | ledger_purchase l user_id amount external_id source l' :
      ledger_reachable l ->
      credit_purchase l user_id amount external_id source = inr l' ->
      ledger_reachable l'
  | ledger_adjust l user_id amount reason external_id l' :
      ledger_reachable l ->
      manual_adjust l user_id amount reason external_id = inr l' ->
      ledger_reachable l'.

(** Rows in status [reserved] carry a negative amount. *)
Definition reserved_negative (l : list CreditLedger) : Prop :=
  Forall (fun e => le_status e = reserved -> (le_amount_usd e < 0)%Q) l.

Lemma ledger_add_reserved_negative l e l' :
  reserved_negative l -> (le_status e = reserved -> (le_amount_usd e < 0)%Q) ->
  ledger_add l e = inr l' -> reserved_negative l'.
Proof.
  intros Hl He. unfold ledger_add. destruct (decide _); [discriminate|].
  intros [= <-]. apply Forall_app. split; [exact Hl|]. constructor; [exact He|constructor].
Qed.

Lemma ledger_reachable_reserved_negative l :
  ledger_reachable l -> reserved_negative l.
Proof.
  induction 1 as [|l u j a l' b _ IH Hop|l j c l' _ IH Hop|l j r l' _ IH Hop
                 |l u a x s l' _ IH Hop|l u a r x l' _ IH Hop].
  - constructor.
  - unfold reserve_credits in Hop.
    destruct (Qle_bool a 0) eqn:Hpos; [discriminate|]. apply Qle_bool_false in Hpos.
    destruct (one_or_none _) as [?|[?|]]; cbn [rbind] in Hop; try discriminate.
    { injection Hop as <- _. exact IH. }
    destruct (Qlt_bool _ a); [discriminate|].
    destruct (ledger_add l _) as [?|l1] eqn:Hadd; cbn [rbind] in Hop; [discriminate|].
    injection Hop as <- _.
    refine (ledger_add_reserved_negative _ _ _ IH _ Hadd).
    intros _. cbn [le_amount_usd]. lra.
  - unfold settle_job_credits in Hop.
    destruct (one_or_none _) as [?|[[i e]|]]; cbn [rbind] in Hop; try discriminate.
    2:{ injection Hop as <-. exact IH. }
    destruct (negb _); [injection Hop as <-; exact IH|].
    cbv zeta in Hop.
    match type of Hop with
    | context [<[i := ?x]> l] =>
        assert (H1 : reserved_negative (<[i := x]> l))
          by (apply Forall_insert; [exact IH|intros Hst; discriminate Hst])
    end.
    destruct (Qlt_bool _ _);
      [refine (ledger_add_reserved_negative _ _ _ H1 _ Hop); intros Hst; discriminate Hst|].
    destruct (Qlt_bool _ _);
      [refine (ledger_add_reserved_negative _ _ _ H1 _ Hop); intros Hst; discriminate Hst|].
    injection Hop as <-. exact H1.
  - unfold void_reservation in Hop.
    destruct (one_or_none _) as [?|[[i e]|]]; cbn [rbind] in Hop; try discriminate.
    2:{ injection Hop as <-. exact IH. }
    destruct (negb _); injection Hop as <-; [exact IH|].
    apply Forall_insert; [exact IH|intros Hst; discriminate Hst].
  - unfold credit_purchase in Hop.
    destruct (if bool_decide (x ≠ "") then _ else _) as [?|[?|]];
      cbn [rbind] in Hop; try discriminate.
    { injection Hop as <-. exact IH. }
    refine (ledger_add_reserved_negative _ _ _ IH _ Hop). intros Hst; discriminate Hst.
  - unfold manual_adjust in Hop.
    destruct (match x with Some _ => _ | None => _ end) as [?|[?|]];
      cbn [rbind] in Hop; try discriminate.
    { injection Hop as <-. exact IH. }
    refine (ledger_add_reserved_negative _ _ _ IH _ Hop). intros Hst; discriminate Hst.
Qed.

Lemma sum_amount_negative_rows (rows : list CreditLedger) :
  Forall (fun e => (le_amount_usd e < 0)%Q) rows -> (sum_amount rows <= 0)%Q.
Proof.
  induction 1 as [|e rows He _ IH]; simpl; lra.
Qed.

(** C2 (amended): for every user and every store, the reserved balance that
    [/credits] returns is the signed sum of the amounts of the user's rows
    in status [reserved] (no absolute value is taken), and available is
    posted plus that sum.  In every ledger the five ledger operations can
    build from the empty table, each of these rows has a negative amount:
    the reserved balance is then never positive, and it is minus the
    absolute value of the sum. *)
Theorem reserved_balance_is_signed_sum (user : User) (w : World) :
  let response := get_credits user w in
  let reserved_rows :=
    filter (fun e => le_user_id e = u_id user ∧ le_status e = reserved) (credit_ledger w) in
  reservedUsd response = sum_amount reserved_rows
  /\ availableUsd response = (postedBalanceUsd response + reservedUsd response)%Q
  /\ (ledger_reachable (credit_ledger w) ->
      Forall (fun e => (le_amount_usd e < 0)%Q) reserved_rows
      /\ (reservedUsd response <= 0)%Q
      /\ (reservedUsd response == - Qabs (sum_amount reserved_rows))%Q).
Proof.
  cbv zeta. split; [reflexivity|]. split; [reflexivity|].
  intros Hreach. apply ledger_reachable_reserved_negative in Hreach.
  assert (Hrows : Forall (fun e => (le_amount_usd e < 0)%Q)
                    (filter (fun e => le_user_id e = u_id user ∧ le_status e = reserved)
                            (credit_ledger w))).
  { apply Forall_forall. intros e He. apply list_elem_of_filter in He as [[_ Hst] He].
    unfold reserved_negative in Hreach. rewrite Forall_forall in Hreach.
    exact (Hreach e He Hst). }
  pose proof (sum_amount_negative_rows _ Hrows) as Hsum.
  split; [exact Hrows|].
  unfold get_credits, get_balances. cbn [reservedUsd reserved_usd].
  split; [exact Hsum|].
  rewrite Qabs_neg by exact Hsum. ring.
Qed.

Lemma reserved_balance_is_signed_sum_witness :
  let w := set_credit_ledger Scenario.reserved_ten Scenario.funded in
  ledger_reachable (credit_ledger w)
  /\ (reservedUsd (get_credits Scenario.alice w) <= 0)%Q.
Proof.
  assert (Hreach : ledger_reachable Scenario.reserved_ten).
  { apply (ledger_reserve [Scenario.purchase 100] "u1" "j1" 10 _
             (get_balances Scenario.reserved_ten "u1")).
    - apply (ledger_purchase [] "u1" 100 "order-1" "lemon"); [constructor|reflexivity].
    - vm_compute. reflexivity. }
  split; [exact Hreach|].
  exact (proj1 (proj2 (proj2 (proj2 (reserved_balance_is_signed_sum Scenario.alice
           (set_credit_ledger Scenario.reserved_ten Scenario.funded))) Hreach))).
Defined.

(** ** The cost estimator *)

#[global] Instance Qlt_bool_comp : Proper (Qeq ==> Qeq ==> eq) Qlt_bool.
Proof.
  intros a a' Ha b b' Hb. unfold Qlt_bool. f_equal. apply Qleb_comp; assumption.
Qed.

#[global] Instance Qround_half_even_comp : Proper (Qeq ==> eq) Qround_half_even.
Proof.
  intros q q' Hq. unfold Qround_half_even.
  rewrite (Qfloor_comp _ _ Hq).
  assert (Hr : (q - inject_Z (Qfloor q') == q' - inject_Z (Qfloor q'))%Q)
    by (rewrite Hq; reflexivity).
  cbv zeta.
  rewrite (Qlt_bool_comp _ _ Hr (1 # 2)%Q _ (Qeq_refl _)).
  rewrite (Qlt_bool_comp (1 # 2)%Q _ (Qeq_refl _) _ _ Hr).
  reflexivity.
Qed.

#[global] Instance round2_comp : Proper (Qeq ==> eq) round2.
Proof.
  intros q q' Hq. unfold round2.
  assert (Hm : (q * 100 == q' * 100)%Q) by (rewrite Hq; reflexivity).
  rewrite Hm. reflexivity.
Qed.

(** The cost is a function of the render minutes up to [==]. *)
Lemma compute_actual_cost_comp settings manifest preset size custom (m m' : Q) :
  (m == m')%Q ->
  compute_actual_cost settings manifest preset size m custom
  = compute_actual_cost settings manifest preset size m' custom.
Proof.
  intros Hm. unfold compute_actual_cost. apply round2_comp.
  rewrite Hm. reflexivity.
Qed.

(** In exact arithmetic the grouping of the render minutes does not
    matter: whenever the estimator returns, the cost function applied to
    [(duration / 60) x complexity / gpuSpeedFactor] returns the estimator's
    cost. *)
Lemma exact_actual_cost_at_spec_minutes
    (settings : Settings) (manifest : Manifest) (preset : string)
    (bundle_size_bytes : Z) (custom_options : option CustomOptions)
    (cost : Q) (eta : Z) (gpu_class : string) (warnings : list string) :
  estimate_cost settings manifest preset bundle_size_bytes custom_options
    = inr (cost, eta, gpu_class, warnings) ->
  compute_actual_cost settings manifest preset bundle_size_bytes
    (spec_render_minutes settings manifest preset) custom_options = cost.
Proof.
  intros Hest. unfold estimate_cost in Hest.
  destruct (Qeq_bool _ 0); [discriminate|].
  destruct (Qeq_bool (upload_mbps settings * 1000000) 0); [discriminate|].
  inversion Hest; subst; clear Hest.
  rewrite (compute_actual_cost_comp _ _ _ _ _ _
    (durationSeconds (composition manifest) / 60 *
     (compute_complexity manifest /
      default 1%Q (gpu_speed_factor settings !! choose_gpu_class manifest preset)))%Q).
  - reflexivity.
  - unfold spec_render_minutes, Qdiv. ring.
Qed.

(** ** The cost estimator in double precision *)




(** At that input the exact model of the estimator above returns 22.94,
    where the doubles give 22.95: the exact total is 22.945, a tie that
    [round2] resolves to the even cent, and the total in double precision
    lies just above it. *)
Example exact_and_double_estimates_differ :
  estimate_cost default_settings Scenario.long_manifest "web"
    Scenario.long_bundle_size_bytes None
  = inr ((2294 # 100)%Q, 967%Z, "a100", [])
  /\ Binary64.estimate_cost default_settings Scenario.long_manifest "web"
       Scenario.long_bundle_size_bytes None
     = inr (Binary64.of_Q (2295 # 100), 967%Z, "a100", []).
Proof. split; vm_compute; reflexivity. Qed.

(** ** The payment webhook *)

Lemma truthy_Some o s : truthy o = Some s -> o = Some s.
Proof.
  unfold truthy. destruct o as [t|]; [|discriminate].
  case_bool_decide; [discriminate|]. congruence.
Qed.

Lemma one_or_none_None {A} (l : list A) : one_or_none l = inr None -> l = [].
Proof. destruct l as [|? [|? ?]]; simpl; congruence. Qed.

(** Case analysis on the innermost scrutinee of the goal. *)
Ltac case_inner :=
  match goal with
  | |- context [match ?t with _ => _ end] =>
      lazymatch t with
      | context [match _ with _ => _ end] => fail
      | _ => destruct t eqn:?
      end
  end.

Ltac run_M :=
  unfold mbind, mget, mlift, mraise, mret, mmodify, mcall, mwhen, with_ledger in *.

Lemma credit_purchase_ledger l user_id amount x source l' :
  credit_purchase l user_id amount x source = inr l' ->
  l' = l \/ exists e, l' = l ++ [e] /\ le_entry_type e = PURCHASE
                      /\ le_status e = posted /\ le_external_id e = Some x.
Proof.
  unfold credit_purchase, ledger_add. intros H.
  destruct (if bool_decide (x ≠ "") then _ else _) as [?|[?|]]; cbn [rbind] in H;
    [discriminate| |].
  - left. congruence.
  - destruct (decide _); [discriminate|]. injection H as <-.
    right. eexists. split; [reflexivity|]. repeat split.
Qed.

(** One delivery carrying external id [x] either leaves the ledger as it is
    or, when no row carries [x] yet, appends one posted PURCHASE row with
    that id. *)
Lemma lemon_webhook_ledger settings str_upper hexdigest request new_user w x :
  lr_data_id request = Some x ->
  let w' := (lemon_webhook settings str_upper hexdigest request new_user w).1 in
  credit_ledger w' = credit_ledger w
  \/ (filter (fun e => le_external_id e = Some x) (credit_ledger w) = []
      /\ exists e, credit_ledger w' = credit_ledger w ++ [e]
                   /\ le_entry_type e = PURCHASE /\ le_status e = posted
                   /\ le_external_id e = Some x).
Proof.
  intros Hid. unfold lemon_webhook. rewrite Hid.
  destruct (truthy (Some x)) as [x'|] eqn:Hx.
  2:{ run_M. repeat (case_inner; try solve [left; reflexivity]). }
  apply truthy_Some in Hx. injection Hx as <-.
  run_M.
  repeat (case_inner;
          cbn beta iota zeta delta [fst snd credit_ledger set_users set_credit_ledger];
          try solve [left; reflexivity]).
  all: match goal with
       | H : one_or_none _ = inr None, H' : credit_purchase _ _ _ _ _ = inr _ |- _ =>
           apply one_or_none_None in H;
           apply credit_purchase_ledger in H' as [->|(e & -> & ?)];
           [left; reflexivity | right; split; [exact H | exists e; auto]]
       end.
Qed.

Lemma filter_and_length_le {A} (P Q : A -> Prop)
    `{!∀ e, Decision (P e)} `{!∀ e, Decision (P e ∧ Q e)} (l : list A) :
  length (filter (fun e => P e ∧ Q e) l) <= length (filter P l).
Proof.
  induction l as [|e l IH]; [reflexivity|].
  rewrite !filter_cons.
  destruct (decide (P e ∧ Q e)) as [[HP _]|Hn]; destruct (decide (P e)); simpl; try lia.
  contradiction.
Qed.

(** C7: however many times the payment webhook is delivered with a payload
    carrying external id [x], a ledger that respects the uniqueness of
    [external_id] ends with at most one PURCHASE row for [x], and over the
    whole sequence at most one row (a posted PURCHASE for [x]) is added, so
    a posted balance rises at most once. *)
Theorem purchase_is_idempotent (settings : Settings) (str_upper : string -> string)
    (hexdigest : string -> string -> string) (x : string)
    (deliveries : list (LemonRequest * User)) (w : World) :
  Forall (fun d => lr_data_id d.1 = Some x) deliveries ->
  length (filter (fun e => le_external_id e = Some x) (credit_ledger w)) <= 1 ->
  let w' := run_webhooks settings str_upper hexdigest deliveries w in
  length (filter (fun e => le_external_id e = Some x ∧ le_entry_type e = PURCHASE)
                 (credit_ledger w')) <= 1
  /\ (credit_ledger w' = credit_ledger w
      \/ exists e, credit_ledger w' = credit_ledger w ++ [e]
                   /\ le_entry_type e = PURCHASE /\ le_status e = posted
                   /\ le_external_id e = Some x).
Proof.
  intros Hall Huniq. cbv zeta.
  assert (Hgoal :
    length (filter (fun e => le_external_id e = Some x)
                   (credit_ledger
                      (run_webhooks settings str_upper hexdigest deliveries w))) <= 1
    /\ (credit_ledger (run_webhooks settings str_upper hexdigest deliveries w)
        = credit_ledger w
        \/ exists e, credit_ledger (run_webhooks settings str_upper hexdigest deliveries w)
                     = credit_ledger w ++ [e]
                     /\ le_entry_type e = PURCHASE /\ le_status e = posted
                     /\ le_external_id e = Some x)).
  { revert w Huniq. induction Hall as [|[request new_user] rest Hid _ IH];
      intros w Huniq.
    - simpl. split; [exact Huniq|left; reflexivity].
    - simpl in Hid. cbn [run_webhooks].
      destruct (lemon_webhook_ledger settings str_upper hexdigest request
                  new_user w x Hid)
        as [Hsame|(Hnone & e & Happ & Hty & Hst & Hext)].
      + specialize
          (IH (lemon_webhook settings str_upper hexdigest request new_user w).1).
        rewrite Hsame in IH. apply IH. exact Huniq.
      + specialize
          (IH (lemon_webhook settings str_upper hexdigest request new_user w).1).
        rewrite Happ in IH.
        assert (Hone : length (filter (fun e0 => le_external_id e0 = Some x)
                                 (credit_ledger w ++ [e])) = 1).
        { rewrite filter_snoc, Hnone. destruct (decide _); [reflexivity|contradiction]. }
        destruct IH as [Hcount [Hkeep|(e' & Hmore & _ & _ & Hext')]]; [lia| |].
        * split; [exact Hcount|]. right. exists e. rewrite Hkeep. auto.
        * exfalso. rewrite Hmore in Hcount.
          rewrite filter_snoc, length_app, Hone in Hcount.
          destruct (decide _); [simpl in Hcount; lia|contradiction]. }
  destruct Hgoal as [Hcount Hshape]. split; [|exact Hshape].
  etransitivity; [|exact Hcount]. apply filter_and_length_le.
Qed.

Lemma purchase_is_idempotent_witness :
  let w' := run_webhooks Scenario.lemon_settings Scenario.str_upper
              Scenario.hexdigest
              [(Scenario.order, Scenario.alice); (Scenario.order, Scenario.alice);
               (Scenario.order, Scenario.alice)] Scenario.funded in
  length (filter (fun e => le_external_id e = Some "order-7"
                           ∧ le_entry_type e = PURCHASE) (credit_ledger w')) <= 1
  /\ (credit_ledger w' = credit_ledger Scenario.funded
      \/ exists e, credit_ledger w' = credit_ledger Scenario.funded ++ [e]
                   /\ le_entry_type e = PURCHASE /\ le_status e = posted
                   /\ le_external_id e = Some "order-7").
Proof.
  apply (purchase_is_idempotent Scenario.lemon_settings Scenario.str_upper
           Scenario.hexdigest "order-7").
  - repeat constructor.
  - vm_compute. lia.
Defined.

(** Scenario 5 of the specification: three deliveries of the same order post
    one PURCHASE row and raise Alice's posted balance once, from 100 to 125. *)
Example webhook_replayed_three_times :
  let w' := run_webhooks Scenario.lemon_settings Scenario.str_upper
              Scenario.hexdigest
              [(Scenario.order, Scenario.alice); (Scenario.order, Scenario.alice);
               (Scenario.order, Scenario.alice)] Scenario.funded in
  length (credit_ledger w') = 2
  /\ (posted_usd (get_balances (credit_ledger w') "u1") == 125)%Q.
Proof. split; vm_compute; reflexivity. Qed.

(** ** Cancellation *)

Lemma elem_of_select {A} (P : A -> Prop) `{!∀ e, Decision (P e)} (l : list A) i e :
  (i, e) ∈ select P l <-> l !! i = Some e ∧ P e.
Proof.
  unfold select. rewrite list_elem_of_filter. simpl.
  rewrite elem_of_lookup_imap. split.
  - intros (HP & i' & e' & Heq & Hl). inversion Heq; subst. auto.
  - intros (Hl & HP). split; [exact HP|]. exists i, e. auto.
Qed.

Lemma select_snd_gen {A} (P : A -> Prop) `{!∀ e, Decision (P e)} (l : list A)
    (g : nat -> nat) :
  (filter (fun ie : nat * A => P ie.2) (imap (fun i e => (g i, e)) l)).*2 = filter P l.
Proof.
  revert g. induction l as [|e l IH]; intros g; [reflexivity|].
  rewrite imap_cons.
  change (imap (_ ∘ S) l) with (imap (fun i e0 => (g (S i), e0)) l).
  rewrite !filter_cons. cbn [snd].
  specialize (IH (fun i => g (S i))).
  destruct (decide (P e)); [rewrite fmap_cons; cbn [snd]; f_equal|]; exact IH.
Qed.

Lemma select_length {A} (P : A -> Prop) `{!∀ e, Decision (P e)} (l : list A) :
  length (select P l) = length (filter P l).
Proof.
  rewrite <- (select_snd_gen P l (fun i => i)). rewrite length_fmap. reflexivity.
Qed.

(** Under the [(job_id, entry_type)] uniqueness of the ledger,
    [void_reservation] returns and leaves no RESERVE row of the job in
    status [reserved]. *)
Lemma void_reservation_voids (l : list CreditLedger) (job_id reason : string) :
  length (filter (fun e => le_job_id e = Some job_id ∧ le_entry_type e = RESERVE) l) <= 1 ->
  exists l', void_reservation l job_id reason = inr l'
    /\ length l' = length l
    /\ Forall (fun e => le_job_id e = Some job_id ∧ le_entry_type e = RESERVE ->
                        le_status e ≠ reserved) l'.
Proof.
  intros Huniq. rewrite <- select_length in Huniq.
  unfold void_reservation.
  destruct (select _ l) as [|[i e] [|? ?]] eqn:Hsel; simpl in Huniq; [| |lia].
  - exists l. split; [reflexivity|]. split; [reflexivity|].
    apply Forall_forall. intros x Hx HP.
    apply list_elem_of_lookup in Hx as [k Hk].
    assert (Hin : (k, x) ∈ select (fun e => le_job_id e = Some job_id
                                           ∧ le_entry_type e = RESERVE) l)
      by (apply elem_of_select; auto).
    rewrite Hsel in Hin. inversion Hin.
  - assert (Honly : forall k x, l !! k = Some x ->
              le_job_id x = Some job_id ∧ le_entry_type x = RESERVE -> k = i ∧ x = e).
    { intros k x Hk HP.
      assert (Hin : (k, x) ∈ select (fun e => le_job_id e = Some job_id
                                             ∧ le_entry_type e = RESERVE) l)
        by (apply elem_of_select; auto).
      rewrite Hsel in Hin. apply list_elem_of_singleton in Hin. inversion Hin; auto. }
    cbn [rbind one_or_none].
    destruct (bool_decide (le_status e = reserved)) eqn:Hst; cbn [negb].
    + eexists. split; [reflexivity|]. split; [apply length_insert|].
      apply Forall_forall. intros x Hx HP.
      apply list_elem_of_lookup in Hx as [k Hk].
      destruct (decide (k = i)) as [->|Hne].
      * assert (Hlt : i < length l).
        { apply lookup_lt_Some in Hk. rewrite length_insert in Hk. exact Hk. }
        rewrite list_lookup_insert_eq in Hk by exact Hlt.
        injection Hk as <-. simpl. discriminate.
      * rewrite list_lookup_insert_ne in Hk by auto.
        destruct (Honly k x Hk HP) as [? _]. contradiction.
    + exists l. split; [reflexivity|]. split; [reflexivity|].
      apply Forall_forall. intros x Hx HP.
      apply list_elem_of_lookup in Hx as [k Hk].
      destruct (Honly k x Hk HP) as [_ ->].
      apply bool_decide_eq_false in Hst. exact Hst.
Qed.

(** With at most one RESERVE row for the job, [void_reservation] returns
    the ledger in which that row, if it is still [reserved], has status
    [voided] and the reason as details, and every other row is as it was. *)
Lemma void_reservation_marks (l : list CreditLedger) (job_id reason : string) :
  length (filter (fun e => le_job_id e = Some job_id ∧ le_entry_type e = RESERVE) l) <= 1 ->
  void_reservation l job_id reason
  = inr ((fun e =>
            if decide (le_job_id e = Some job_id ∧ le_entry_type e = RESERVE
                       ∧ le_status e = reserved)
            then {| le_user_id := le_user_id e; le_entry_type := le_entry_type e;
                    le_status := voided; le_amount_usd := le_amount_usd e;
                    le_currency := le_currency e; le_job_id := le_job_id e;
                    le_external_id := le_external_id e;
                    le_details := DReason reason |}
            else e) <$> l).
Proof.
  intros Huniq. rewrite <- select_length in Huniq.
  unfold void_reservation.
  destruct (select _ l) as [|[i e] [|? ?]] eqn:Hsel; simpl in Huniq; [| |lia].
  - cbn [rbind one_or_none]. f_equal. apply list_eq. intros k.
    rewrite list_lookup_fmap. destruct (l !! k) as [x|] eqn:Hk; [|reflexivity].
    cbn [fmap option_fmap option_map]. destruct (decide _) as [(Hj & Ht & _)|_]; [|reflexivity].
    assert (Hin : (k, x) ∈ select (fun e => le_job_id e = Some job_id
                                           ∧ le_entry_type e = RESERVE) l)
      by (apply elem_of_select; auto).
    rewrite Hsel in Hin. inversion Hin.
  - assert (Honly : forall k x, l !! k = Some x ->
              le_job_id x = Some job_id ∧ le_entry_type x = RESERVE -> k = i ∧ x = e).
    { intros k x Hk HP.
      assert (Hin : (k, x) ∈ select (fun e => le_job_id e = Some job_id
                                             ∧ le_entry_type e = RESERVE) l)
        by (apply elem_of_select; auto).
      rewrite Hsel in Hin. apply list_elem_of_singleton in Hin. inversion Hin; auto. }
    assert (Hie : (i, e) ∈ select (fun e => le_job_id e = Some job_id
                                           ∧ le_entry_type e = RESERVE) l)
      by (rewrite Hsel; left).
    apply elem_of_select in Hie as [Hi [Hj Ht]].
    cbn [rbind one_or_none].
    destruct (bool_decide (le_status e = reserved)) eqn:Hst; cbn [negb].
    + apply bool_decide_eq_true in Hst.
      f_equal. apply list_eq. intros k. rewrite list_lookup_fmap.
      destruct (decide (k = i)) as [->|Hne].
      * rewrite list_lookup_insert_eq by (eapply lookup_lt_Some; exact Hi).
        rewrite Hi. cbn [fmap option_fmap option_map].
        destruct (decide _) as [_|Hno]; [reflexivity|].
        exfalso. apply Hno. auto.
      * rewrite list_lookup_insert_ne by auto.
        destruct (l !! k) as [x|] eqn:Hk; [|reflexivity].
        cbn [fmap option_fmap option_map].
        destruct (decide _) as [(Hj' & Ht' & _)|_]; [|reflexivity].
        destruct (Honly k x Hk (conj Hj' Ht')) as [? _]. contradiction.
    + apply bool_decide_eq_false in Hst.
      f_equal. apply list_eq. intros k. rewrite list_lookup_fmap.
      destruct (l !! k) as [x|] eqn:Hk; [|reflexivity].
      cbn [fmap option_fmap option_map].
      destruct (decide _) as [(Hj' & Ht' & Hs')|_]; [|reflexivity].
      destruct (Honly k x Hk (conj Hj' Ht')) as [_ ->]. contradiction.
Qed.

(** C8: for a job owned by the caller, [cancel] acknowledges with
    ['cancel_requested'] and stores the row with [cancel_requested = true].
    If the job is QUEUED, the stored row also has status CANCELLED,
    progress 0 and the finish time, the id is removed from the queue of the
    job's GPU class, the RESERVE row of the job that is still [reserved]
    becomes [voided] (reason ['cancelled'], amount kept), and one CANCELLED
    message with progress 0 is published.  In any other status the flag is
    the only field that changes, and queues, ledger and published messages
    are as before.  Every other field of the row, every other row, every
    other ledger entry and every other table is unchanged in both cases. *)
Theorem cancel_sets_flag_and_cancels_only_queued
    (job_id : string) (user : User) (now : Z) (w : World) (job : Job) :
  find_job job_id user w = Some job ->
  job_uuid job = job_id ->
  length (filter (fun e => le_job_id e = Some job_id ∧ le_entry_type e = RESERVE)
                 (credit_ledger w)) <= 1 ->
  let w' := (cancel_job job_id user now w).1 in
  let stored (status : JobStatus) (progress : Q) (finished_at : option Z) :=
    {| job_uuid := job_uuid job; job_user_id := job_user_id job; job_status := status;
       job_preset := job_preset job; job_gpu_class := job_gpu_class job;
       job_manifest := job_manifest job; job_custom_options := job_custom_options job;
       job_manifest_hash := job_manifest_hash job;
       job_project_hash := job_project_hash job; job_bundle_key := job_bundle_key job;
       job_bundle_sha256 := job_bundle_sha256 job;
       job_bundle_size_bytes := job_bundle_size_bytes job;
       job_result_key := job_result_key job; job_output_name := job_output_name job;
       job_notification_email := job_notification_email job;
       job_cost_estimate_usd := job_cost_estimate_usd job;
       job_cost_final_usd := job_cost_final_usd job;
       job_eta_seconds := job_eta_seconds job; job_progress_percent := progress;
       job_attempts := job_attempts job; job_max_attempts := job_max_attempts job;
       job_error_message := job_error_message job; job_cancel_requested := true;
       job_cache_hit := job_cache_hit job; job_created_at := job_created_at job;
       job_started_at := job_started_at job; job_finished_at := finished_at |} in
  (cancel_job job_id user now w).2 = inr "cancel_requested"
  /\ users w' = users w /\ job_events w' = job_events w /\ usage w' = usage w
  /\ cache_entries w' = cache_entries w
  /\ (job_cancel_requested <$> jobs w' !! job_id) = Some true
  /\ if bool_decide (job_status job = QUEUED) then
       (jobs w' = <[job_id := stored CANCELLED 0%Q (Some now)]> (jobs w)
       /\ (job_status <$> jobs w' !! job_id) = Some CANCELLED
       /\ queues w' = alter (filter (fun x => x ≠ job_id)) (job_gpu_class job) (queues w)
       /\ (job_id ∉ default [] (queues w' !! job_gpu_class job))
       /\ credit_ledger w'
          = (fun e =>
               if decide (le_job_id e = Some job_id ∧ le_entry_type e = RESERVE
                          ∧ le_status e = reserved)
               then {| le_user_id := le_user_id e; le_entry_type := le_entry_type e;
                       le_status := voided; le_amount_usd := le_amount_usd e;
                       le_currency := le_currency e; le_job_id := le_job_id e;
                       le_external_id := le_external_id e;
                       le_details := DReason "cancelled" |}
               else e) <$> credit_ledger w
       /\ Forall (fun e => le_job_id e = Some job_id ∧ le_entry_type e = RESERVE ->
                           le_status e ≠ reserved) (credit_ledger w')
       /\ published w' = published w ++ [{| msg_job_id := job_id; msg_status := CANCELLED;
                                            msg_progress := 0; msg_error := None |}])
     else
       (jobs w'
        = <[job_id := stored (job_status job) (job_progress_percent job)
                        (job_finished_at job)]> (jobs w)
        /\ queues w' = queues w
        /\ credit_ledger w' = credit_ledger w
        /\ published w' = published w).
Proof.
  intros Hfind Hid Huniq. cbv zeta. subst job_id.
  pose proof (void_reservation_marks (credit_ledger w) (job_uuid job) "cancelled" Huniq)
    as Hvoid.
  unfold cancel_job. run_M. rewrite Hfind.
  change (job_status (set_job_cancel_requested true job)) with (job_status job).
  destruct (bool_decide (job_status job = QUEUED)) eqn:Hq.
  - cbn [job_uuid set_job_finished_at set_job_progress_percent set_job_status
         set_job_cancel_requested job_gpu_class].
    cbn [credit_ledger save_job commit_jobs set_commits set_jobs remove_job set_queues].
    rewrite Hvoid.
    cbn [fst snd users job_events usage cache_entries jobs queues credit_ledger published
         publish_progress set_published set_credit_ledger set_commits set_jobs set_queues
         job_uuid].
    do 5 (split; [reflexivity|]).
    split; [cbn; rewrite lookup_insert_eq; reflexivity|].
    split; [reflexivity|].
    split; [cbn; rewrite lookup_insert_eq; reflexivity|]. split; [reflexivity|].
    split.
    { cbn. rewrite lookup_alter_eq.
      destruct (queues w !! job_gpu_class job) as [q|]; simpl.
      + intros Hin. apply list_elem_of_filter in Hin as [Hne _]. contradiction.
      + apply not_elem_of_nil. }
    split; [reflexivity|]. split; [|reflexivity].
    cbn. apply Forall_forall. intros x Hx [Hj Ht] Hs.
    apply list_elem_of_fmap in Hx as (y & -> & _).
    destruct (decide _) as [_|Hno]; [discriminate Hs|].
    apply Hno. auto.
  - cbn [fst snd users job_events usage cache_entries jobs queues credit_ledger published
         save_job commit_jobs set_commits set_jobs job_uuid set_job_cancel_requested].
    do 5 (split; [reflexivity|]).
    split; [cbn; rewrite lookup_insert_eq; reflexivity|].
    repeat split.
Qed.

Lemma cancel_sets_flag_and_cancels_only_queued_witness :
  exists job,
    find_job "j1" Scenario.alice Scenario.queued = Some job
    /\ job_status job = QUEUED
    /\ (cancel_job "j1" Scenario.alice 5 Scenario.queued).2 = inr "cancel_requested"
    /\ (job_cancel_requested <$> jobs (cancel_job "j1" Scenario.alice 5 Scenario.queued).1
                                 !! "j1") = Some true.
Proof.
  eexists. split; [vm_compute; reflexivity|]. split; [reflexivity|].
  edestruct (cancel_sets_flag_and_cancels_only_queued "j1" Scenario.alice 5 Scenario.queued)
    as (Hr & _ & _ & _ & _ & Hflag & _);
    [vm_compute; reflexivity|reflexivity|vm_compute; lia|].
  split; [exact Hr|exact Hflag].
Defined.

(** Scenario 4 of the specification: cancelling Alice's queued job empties
    the queue, voids the reservation and publishes the CANCELLED event. *)
Example cancel_while_queued :
  let w' := (cancel_job "j1" Scenario.alice 5 Scenario.queued).1 in
  (job_status <$> jobs w' !! "j1") = Some CANCELLED
  /\ queues w' !! "rtx4090" = Some []
  /\ map (fun e => (le_entry_type e, le_status e)) (credit_ledger w')
     = [(PURCHASE, posted); (RESERVE, voided)]
  /\ map msg_status (published w') = [QUEUED; CANCELLED].
Proof. repeat split; vm_compute; reflexivity. Qed.

(** ** The worker: evaluated runs *)

Definition job_view (job_id : string) (w : World) :=
  (fun j => (job_status j, job_attempts j, job_error_message j, job_result_key j))
    <$> jobs w !! job_id.

Definition ledger_view (w : World) :=
  map (fun e => (le_entry_type e, le_status e)) (credit_ledger w).

Definition published_view (w : World) :=
  map (fun m => (msg_status m, Qred (msg_progress m), msg_error m)) (published w).

(** C3 (evaluation at the failing input): Alice's queued job [j1], first
    attempt, renderer still running when the timeout expires.  [run_render]
    marks the job FAILED with ['Render timeout'], but the [RuntimeError] it
    raises is handled like any transient failure: the job goes back to
    QUEUED with progress 10, its id is pushed on the queue again and the
    reservation stays [reserved].  Only the third timeout ends in FAILED,
    and then the stored error message is ['timeout']. *)
Theorem render_timeout_is_retried :
  let w1 := (Scenario.work Scenario.overrunning Scenario.queued).1 in
  let w3 := (Scenario.work Scenario.overrunning
               (Scenario.work Scenario.overrunning w1).1).1 in
  job_view "j1" w1 = Some (QUEUED, 1%Z, Some "Render timeout", None)
  /\ queues w1 !! "rtx4090" = Some ["j1"]
  /\ ledger_view w1 = [(PURCHASE, posted); (RESERVE, reserved)]
  /\ published_view w1
     = [(QUEUED, 0%Q, None); (DOWNLOADING, 10%Q, None); (VALIDATING, 20%Q, None);
        (RENDERING, 60%Q, None); (FAILED, 0%Q, Some "Render timeout");
        (QUEUED, 10%Q, Some "Render timeout")]
  /\ job_view "j1" w3 = Some (FAILED, 3%Z, Some "timeout", None)
  /\ ledger_view w3 = [(PURCHASE, posted); (RESERVE, voided)].
Proof. repeat split; vm_compute; reflexivity. Qed.

(** C4 (evaluation at the failing input): two jobs with the same manifest
    hash and preset are queued before either completes; each completion
    inserts its own cache row, the table ends with two rows for the pair,
    and the next submission with [allowCache] fails in the controller's
    [one_or_none()] lookup. *)
Theorem second_completion_duplicates_cache_row :
  let w2 := (Scenario.submit true "j2" Scenario.queued).1 in
  let w4 := (Scenario.work Scenario.quick (Scenario.work Scenario.quick w2).1).1 in
  job_view "j1" w4 = Some (COMPLETED, 0%Z, None, Some "results/u1/j1/out.mp4")
  /\ job_view "j2" w4 = Some (COMPLETED, 0%Z, None, Some "results/u1/j2/out.mp4")
  /\ map (fun c => (ce_manifest_hash c, ce_preset c)) (cache_entries w4)
     = [("m-hash", "web"); ("m-hash", "web")]
  /\ (Scenario.submit true "j3" w4).2 = inl MultipleResultsFound.
Proof. repeat split; vm_compute; reflexivity. Qed.

(** C5 (evaluation at the failing input): the worker pops [j1], the owner
    cancels the still QUEUED job (CANCELLED, reservation voided), and
    [process_job], which only checks that the row exists, then runs on the
    CANCELLED row all the same: with a renderer that exits at once the job
    ends COMPLETED with a result key. *)
Lemma worker_processes_cancelled_job :
  let popped := dequeue_job "rtx4090" Scenario.queued in
  let w := (cancel_job "j1" Scenario.alice 5 popped.1).1 in
  let w' := (process_job default_settings Scenario.with_suffix
               (Scenario.env Scenario.quick) "j1" w).1 in
  popped.2 = Some "j1"
  /\ job_view "j1" w = Some (CANCELLED, 0%Z, None, None)
  /\ job_view "j1" w' = Some (COMPLETED, 0%Z, None, Some "results/u1/j1/out.mp4")
  /\ jobs w' !! "j1" ≠ jobs w !! "j1".
Proof.
  repeat split; try (vm_compute; reflexivity).
  intros H. apply (f_equal (fmap job_status)) in H. vm_compute in H. discriminate H.
Qed.

Fixpoint non_decreasing (l : list Q) : bool :=
  match l with
  | a :: (b :: _) as rest => Qle_bool a b && non_decreasing rest
  | _ => true
  end.

(** C6 (evaluation at the failing input): a renderer that reports 10% makes
    the worker publish [min(90, 30 + 10 x 0.6) = 36] after the 60 published
    on entering RENDERING, three events before the terminal one: the
    progress published for the job is not non-decreasing. *)
Lemma progress_drops_on_first_render_report :
  let w' := (Scenario.work Scenario.reporting Scenario.queued).1 in
  Scenario.progress_of "j1" w' = [0; 10; 20; 60; 36; 85; 92; 100]%Q
  /\ non_decreasing (removelast (Scenario.progress_of "j1" w')) = false.
Proof. split; vm_compute; reflexivity. Qed.

(** ** Reasoning about stateful code *)

(** [hoare P m Q E]: from a store satisfying [P], [m] leaves a store
    satisfying [Q a] when it returns [a] and [E e] when it raises [e]. *)
Definition hoare {S A} (P : S -> Prop) (m : M S A)
    (Q : A -> S -> Prop) (E : Exn -> S -> Prop) : Prop :=
  forall s, P s -> match m s with
                   | (s', inr a) => Q a s'
                   | (s', inl e) => E e s'
                   end.

(** [preserves I m]: [I] survives [m], whether it returns or raises. *)
Definition preserves {S A} (I : S -> Prop) (m : M S A) : Prop :=
  hoare I m (fun _ => I) (fun _ => I).

Section HoareRules.
Context {S : Type}.
Implicit Types (P : S -> Prop) (E : Exn -> S -> Prop).

Lemma hoare_conseq {A} P P' (Q Q' : A -> S -> Prop) E E' (m : M S A) :
  hoare P' m Q' E' ->
  (forall s, P s -> P' s) ->
  (forall a s, Q' a s -> Q a s) ->
  (forall e s, E' e s -> E e s) ->
  hoare P m Q E.
Proof.
  intros H HP HQ HE s Hs. specialize (H s (HP s Hs)).
  destruct (m s) as [s' [e|a]]; auto.
Qed.

Lemma hoare_ret {A} (Q : A -> S -> Prop) E (a : A) : hoare (Q a) (mret a) Q E.
Proof. intros s Hs. exact Hs. Qed.

Lemma hoare_raise {A} (Q : A -> S -> Prop) E (e : Exn) :
  hoare (E e) (mraise e : M S A) Q E.
Proof. intros s Hs. exact Hs. Qed.

Lemma hoare_bind {A B} P (R : A -> S -> Prop) (Q : B -> S -> Prop) E
    (m : M S A) (k : A -> M S B) :
  hoare P m R E ->
  (forall a, hoare (R a) (k a) Q E) ->
  hoare P (mbind m k) Q E.
Proof.
  intros Hm Hk s Hs. unfold mbind. specialize (Hm s Hs).
  destruct (m s) as [s' [e|a]]; [exact Hm|]. apply Hk. exact Hm.
Qed.

Lemma hoare_get (Q : S -> S -> Prop) E : hoare (fun s => Q s s) mget Q E.
Proof. intros s Hs. exact Hs. Qed.

Lemma hoare_modify (f : S -> S) (Q : unit -> S -> Prop) E :
  hoare (fun s => Q tt (f s)) (mmodify f) Q E.
Proof. intros s Hs. exact Hs. Qed.

Lemma hoare_lift {A} (r : Result A) (Q : A -> S -> Prop) E :
  hoare (fun s => match r with inr a => Q a s | inl e => E e s end) (mlift r) Q E.
Proof. intros s Hs. unfold mlift. destruct r; exact Hs. Qed.

Lemma hoare_call (o : option Exn) (Q : unit -> S -> Prop) E :
  hoare (fun s => match o with None => Q tt s | Some e => E e s end) (mcall o) Q E.
Proof. intros s Hs. unfold mcall. destruct o; exact Hs. Qed.

(** Rules for invariants. *)

Lemma preserves_ret {A} (I : S -> Prop) (a : A) : preserves I (mret a).
Proof. intros s Hs. exact Hs. Qed.

Lemma preserves_raise {A} (I : S -> Prop) (e : Exn) : preserves I (mraise e : M S A).
Proof. intros s Hs. exact Hs. Qed.

Lemma preserves_get (I : S -> Prop) : preserves I mget.
Proof. intros s Hs. exact Hs. Qed.

Lemma preserves_lift {A} (I : S -> Prop) (r : Result A) : preserves I (mlift r).
Proof. intros s Hs. unfold mlift. destruct r; exact Hs. Qed.

Lemma preserves_call (I : S -> Prop) (o : option Exn) : preserves I (mcall o).
Proof. intros s Hs. unfold mcall. destruct o; exact Hs. Qed.

Lemma preserves_modify (I : S -> Prop) (f : S -> S) :
  (forall s, I s -> I (f s)) -> preserves I (mmodify f).
Proof. intros H s Hs. apply H. exact Hs. Qed.

Lemma preserves_bind {A B} (I : S -> Prop) (m : M S A) (k : A -> M S B) :
  preserves I m -> (forall a, preserves I (k a)) -> preserves I (mbind m k).
Proof. intros Hm Hk. eapply hoare_bind; [exact Hm|]. exact Hk. Qed.

Lemma preserves_when (I : S -> Prop) (b : bool) (m : M S unit) :
  preserves I m -> preserves I (mwhen b m).
Proof. intros H. destruct b; [exact H|apply preserves_ret]. Qed.

Lemma preserves_final {A} (I : S -> Prop) (m : M S A) (s : S) :
  preserves I m -> I s -> I (m s).1.
Proof.
  intros H Hs. specialize (H s Hs). destruct (m s) as [s' [e|a]]; exact H.
Qed.
End HoareRules.

(** The worker's session inherits the invariants of the store. *)
Definition in_world (I : World -> Prop) : WState -> Prop := fun st => I (ws_world st).

Lemma preserves_on_world (I : World -> Prop) (m : M World unit) :
  preserves I m -> preserves (in_world I) (on_world m).
Proof.
  intros H st Hst. unfold on_world. specialize (H (ws_world st) Hst).
  destruct (m (ws_world st)) as [w [e|[]]]; exact H.
Qed.

Lemma preserves_set_job (I : World -> Prop) (f : Job -> Job) :
  preserves (in_world I) (set_job f).
Proof. intros st Hst. exact Hst. Qed.

Lemma preserves_with_ledger (I : World -> Prop) f :
  (forall w l, I w -> I (set_credit_ledger l w)) -> preserves I (with_ledger f).
Proof.
  intros H w Hw. unfold with_ledger. destruct (f (credit_ledger w)); auto.
Qed.

(** Structural steps of an invariant proof: sequencing, branching and the
    operations that cannot break any invariant. *)
Ltac preserves_step :=
  lazymatch goal with
  | |- hoare ?I ?m (fun _ => ?I) (fun _ => ?I) => change (preserves I m)
  | |- preserves _ (mbind _ _) => apply preserves_bind; [|intros ?]
  | |- preserves _ (mret _) => apply preserves_ret
  | |- preserves _ (mraise _) => apply preserves_raise
  | |- preserves _ mget => apply preserves_get
  | |- preserves _ (mlift _) => apply preserves_lift
  | |- preserves _ (mcall _) => apply preserves_call
  | |- preserves _ (mwhen _ _) => apply preserves_when
  | |- preserves _ (set_job _) => apply preserves_set_job
  | |- preserves _ (if ?b then _ else _) => destruct b
  | |- preserves _ (match ?x with _ => _ end) => destruct x
  | |- preserves _ (let (_, _) := ?x in _) => destruct x
  end.

(** ** Completed jobs carry their result *)

(** What [job_result] and the billing need of a COMPLETED row. *)
Definition complete_ready (j : Job) : Prop :=
  (exists key, job_result_key j = Some key /\ key ≠ "") /\ job_cost_final_usd j ≠ None.

Definition completed_have_results (table : gmap string Job) : Prop :=
  forall id j, table !! id = Some j -> job_status j = COMPLETED -> complete_ready j.

(** The invariant: it holds of the [jobs] table, of every committed version
    of it, and no cache row has an empty result key. *)
Definition store_ok (w : World) : Prop :=
  completed_have_results (jobs w)
  /\ Forall completed_have_results (commits w)
  /\ Forall (fun c => ce_result_key c ≠ "") (cache_entries w).

Lemma completed_have_results_insert table id j :
  completed_have_results table ->
  (job_status j = COMPLETED -> complete_ready j) ->
  completed_have_results (<[id := j]> table).
Proof.
  intros Ht Hj id' j' Hl Hst.
  destruct (decide (id = id')) as [->|Hne].
  - rewrite lookup_insert_eq in Hl. injection Hl as <-. auto.
  - rewrite lookup_insert_ne in Hl by exact Hne. eauto.
Qed.

Lemma store_ok_save_job w j :
  store_ok w -> (job_status j = COMPLETED -> complete_ready j) ->
  store_ok (save_job j w).
Proof.
  intros (Hj & Hc & Hcache) Hready.
  assert (Hnew : completed_have_results (<[job_uuid j := j]> (jobs w)))
    by (apply completed_have_results_insert; assumption).
  split; [exact Hnew|]. split; [|exact Hcache].
  cbn. apply Forall_app. split; [exact Hc|]. constructor; [exact Hnew|constructor].
Qed.

Lemma add_job_store_ok j :
  (job_status j = COMPLETED -> complete_ready j) -> preserves store_ok (add_job j).
Proof.
  intros Hready w Hw. unfold add_job.
  destruct (jobs w !! job_uuid j); [exact Hw|].
  apply (store_ok_save_job w j Hw Hready).
Qed.

Lemma find_job_lookup job_id user w job :
  find_job job_id user w = Some job -> jobs w !! job_id = Some job.
Proof.
  unfold find_job. destruct (jobs w !! job_id) as [j|]; [|discriminate].
  case_bool_decide; congruence.
Qed.

Lemma complete_ready_flag j b :
  complete_ready j -> complete_ready (set_job_cancel_requested b j).
Proof. intros H. exact H. Qed.

Lemma cancel_job_store_ok job_id user now : preserves store_ok (cancel_job job_id user now).
Proof.
  intros w Hw. unfold cancel_job. run_M.
  destruct (find_job job_id user w) as [job|] eqn:Hfind; [|exact Hw].
  apply find_job_lookup in Hfind.
  change (job_status (set_job_cancel_requested true job)) with (job_status job).
  destruct (bool_decide (job_status job = QUEUED)) eqn:Hq.
  - cbn beta iota.
    match goal with
    | |- context [void_reservation ?l ?j ?r] => destruct (void_reservation l j r)
    end; cbn beta iota;
      refine (store_ok_save_job (remove_job _ _ w) _ Hw _); intros Hst; discriminate Hst.
  - cbn beta iota. refine (store_ok_save_job w _ Hw _). intros Hst.
    destruct Hw as (Hj & _). exact (Hj job_id job Hfind Hst).
Qed.

Lemma one_or_none_Some {A} (l : list A) (x : A) : one_or_none l = inr (Some x) -> l = [x].
Proof. destruct l as [|? [|? ?]]; simpl; congruence. Qed.

Lemma hoare_pure {S A} (I : S -> Prop) (phi : Prop) (m : M S A) :
  (phi -> preserves I m) ->
  hoare (fun s => I s /\ phi) m (fun _ => I) (fun _ => I).
Proof. intros H s [Hs Hphi]. exact (H Hphi s Hs). Qed.

Lemma ensure_usage_limit_preserves (I : World -> Prop) user cost month :
  preserves I (ensure_usage_limit user cost month).
Proof. unfold ensure_usage_limit. repeat preserves_step. Qed.

Lemma create_job_store_ok settings hash_manifest payload user new_id now month :
  preserves store_ok (create_job settings hash_manifest payload user new_id now month).
Proof.
  unfold create_job. cbv zeta.
  preserves_step; [apply preserves_raise|].
  preserves_step; [apply preserves_lift|].
  destruct a as [[[cost eta] gpu_class] warnings].
  destruct (check_manifest (req_manifest payload)) as [compat_warnings compat_errors].
  preserves_step; [apply preserves_raise|].
  preserves_step; [apply ensure_usage_limit_preserves|].
  eapply hoare_bind with
    (R := fun cache s => store_ok s /\ forall c, cache = Some c -> ce_result_key c ≠ "").
  - intros s Hs. destruct (req_allowCache payload); [|split; [exact Hs|discriminate]].
    run_M. destruct (one_or_none _) as [e|[c|]] eqn:Hone; [exact Hs| |].
    + split; [exact Hs|]. intros c' [= <-].
      apply one_or_none_Some in Hone.
      assert (Hin : c ∈ filter (fun c => ce_manifest_hash c = hash_manifest (req_manifest payload)
                                          ∧ ce_preset c = req_preset payload)
                               (cache_entries s)) by (rewrite Hone; left).
      apply list_elem_of_filter in Hin as [_ Hin].
      destruct Hs as (_ & _ & Hcache). rewrite Forall_forall in Hcache. auto.
    + split; [exact Hs|discriminate].
  - intros cache. apply hoare_pure. intros Hkey.
    destruct cache as [cache|].
    + preserves_step.
      { apply add_job_store_ok. intros _. split; [|discriminate].
        eexists. split; [reflexivity|]. apply Hkey. reflexivity. }
      preserves_step.
      { intros s Hs. destruct (reserve_credits _ _ _ _) as [[]|[? ?]]; exact Hs. }
      preserves_step.
      { apply preserves_with_ledger. intros s l Hs. exact Hs. }
      preserves_step; [apply preserves_modify; intros s Hs; exact Hs|].
      apply preserves_ret.
    + preserves_step.
      { apply add_job_store_ok. intros Hst. discriminate Hst. }
      preserves_step.
      { intros s Hs. destruct (reserve_credits _ _ _ _) as [[]|[? ?]]; try exact Hs.
        apply store_ok_save_job; [exact Hs|]. intros Hst. discriminate Hst. }
      preserves_step; [apply preserves_modify; intros s Hs; exact Hs|].
      preserves_step; [apply preserves_modify; intros s Hs; exact Hs|].
      preserves_step; [apply preserves_modify; intros s Hs; exact Hs|].
      apply preserves_ret.
Qed.

(** [update_job] writes the session's row: the invariant survives as long as
    a row written as COMPLETED already carries its result key and cost. *)
Lemma update_job_store_ok status message progress error now :
  hoare (fun st => store_ok (ws_world st)
                   /\ (status = COMPLETED -> complete_ready (ws_job st)))
        (update_job status message progress error now)
        (fun _ => in_world store_ok) (fun _ => in_world store_ok).
Proof.
  intros st [Hw Hready]. unfold update_job, mmodify, in_world. cbn [ws_world].
  match goal with
  | |- store_ok (publish_progress _ (save_job ?j ?w)) =>
      refine (store_ok_save_job w j Hw _)
  end.
  intros Hst.
  assert (Hs : status = COMPLETED).
  { revert Hst. repeat case_inner; cbn; congruence. }
  specialize (Hready Hs).
  repeat case_inner; exact Hready.
Qed.

Lemma update_job_preserves status message progress error now :
  status ≠ COMPLETED ->
  preserves (in_world store_ok) (update_job status message progress error now).
Proof.
  intros Hne. eapply hoare_conseq; [apply update_job_store_ok| |auto|auto].
  intros st Hst. split; [exact Hst|]. intros ->. contradiction.
Qed.

Lemma update_usage_store_ok job minutes month :
  preserves store_ok (update_usage job minutes month).
Proof.
  unfold update_usage. repeat preserves_step;
    apply preserves_modify; intros s Hs; exact Hs.
Qed.

Section WorkerInvariant.
Context (settings : Settings) (with_suffix : string -> string -> string)
        (env : WorkerEnv).

Lemma handle_line_store_ok line :
  preserves (in_world store_ok) (handle_line env line).
Proof.
  destruct line; try apply preserves_ret.
  apply update_job_preserves. discriminate.
Qed.

Lemma run_render_loop_store_ok trace :
  preserves (in_world store_ok) (run_render_loop env trace).
Proof.
  induction trace as [line rc|line cancel_by timed_out rest IH]; cbn [run_render_loop].
  - preserves_step; [apply handle_line_store_ok|]. repeat preserves_step.
  - preserves_step; [apply handle_line_store_ok|].
    preserves_step; [apply preserves_get|].
    preserves_step.
    { destruct cancel_by as [caller|]; [|apply preserves_ret].
      apply preserves_on_world. intros w Hw.
      exact (preserves_final _ _ w (cancel_job_store_ok _ caller _) Hw). }
    preserves_step.
    { apply preserves_modify. intros st Hst. exact Hst. }
    preserves_step; [apply preserves_get|].
    preserves_step.
    + preserves_step; [apply update_job_preserves; discriminate|apply preserves_raise].
    + preserves_step; [|exact IH].
      preserves_step; [apply update_job_preserves; discriminate|apply preserves_raise].
Qed.

Lemma process_body_store_ok :
  preserves (in_world store_ok) (process_body settings with_suffix env).
Proof.
  unfold process_body.
  preserves_step; [apply update_job_preserves; discriminate|].
  preserves_step; [apply preserves_call|].
  preserves_step; [apply preserves_get|].
  preserves_step; [repeat preserves_step|].
  preserves_step; [apply update_job_preserves; discriminate|].
  preserves_step; [apply preserves_call|].
  preserves_step; [repeat preserves_step|].
  preserves_step; [apply preserves_lift|].
  preserves_step; [repeat preserves_step|].
  preserves_step; [repeat preserves_step|].
  preserves_step; [apply update_job_preserves; discriminate|].
  preserves_step.
  { unfold run_render. preserves_step; [apply preserves_lift|].
    apply run_render_loop_store_ok. }
  preserves_step; [apply update_job_preserves; discriminate|].
  preserves_step; [apply preserves_get|].
  preserves_step; [unfold transcode_output; repeat preserves_step|].
  preserves_step; [apply preserves_set_job|].
  preserves_step; [apply update_job_preserves; discriminate|].
  preserves_step; [apply preserves_get|].
  cbv zeta.
  preserves_step; [apply preserves_call|].
  (* the result key and the final cost are set on the row, then committed
     together with the COMPLETED status *)
  eapply hoare_bind with
    (R := fun _ st => store_ok (ws_world st)
                      /\ exists key, job_result_key (ws_job st) = Some key /\ key ≠ "").
  { intros st Hst. split; [exact Hst|]. eexists. split; [reflexivity|]. discriminate. }
  intros _.
  eapply hoare_bind with
    (R := fun _ st => store_ok (ws_world st) /\ complete_ready (ws_job st)).
  { intros st [Hst Hkey]. split; [exact Hst|]. split; [exact Hkey|discriminate]. }
  intros _.
  eapply hoare_bind with (R := fun _ => in_world store_ok).
  { eapply hoare_conseq; [apply update_job_store_ok| |auto|auto].
    intros st [Hst Hready]. split; [exact Hst|]. intros _. exact Hready. }
  intros _. preserves_step.
  preserves_step.
  { apply preserves_on_world. apply preserves_with_ledger. intros s l Hs. exact Hs. }
  preserves_step; [apply preserves_get|].
  preserves_step; [apply preserves_on_world, update_usage_store_ok|].
  preserves_step.
  { apply preserves_on_world. apply preserves_modify.
    intros s (Hj & Hc & Hcache). split; [exact Hj|]. split; [exact Hc|].
    cbn. apply Forall_app. split; [exact Hcache|].
    constructor; [|constructor]. cbn. discriminate. }
  repeat preserves_step.
Qed.
End WorkerInvariant.

Section WorkerInvariantTop.
Context (settings : Settings) (with_suffix : string -> string -> string)
        (env : WorkerEnv).

Lemma handle_error_store_ok err :
  preserves (in_world store_ok) (handle_error env err).
Proof.
  unfold handle_error.
  preserves_step; [apply preserves_get|].
  preserves_step.
  - preserves_step.
    + apply preserves_on_world, preserves_with_ledger. intros s l Hs. exact Hs.
    + preserves_step; [apply preserves_set_job|].
      preserves_step; [apply preserves_get|].
      cbv zeta. preserves_step.
      * preserves_step; [apply update_job_preserves; discriminate|].
        apply preserves_on_world, preserves_modify. intros s Hs. exact Hs.
      * preserves_step; [apply update_job_preserves; discriminate|].
        apply preserves_on_world, preserves_with_ledger. intros s l Hs. exact Hs.
  - preserves_step; [apply update_job_preserves; discriminate|].
    apply preserves_on_world, preserves_with_ledger. intros s l Hs. exact Hs.
Qed.

Lemma process_job_store_ok job_id w :
  store_ok w -> store_ok (process_job settings with_suffix env job_id w).1.
Proof.
  intros Hw. unfold process_job.
  destruct (jobs w !! job_id) as [job|]; [|exact Hw].
  pose proof (process_body_store_ok settings with_suffix env
                {| ws_world := w; ws_job := job |} Hw) as Hbody.
  destruct (process_body _ _ _ _) as [st [err|[]]]; [|exact Hbody].
  pose proof (handle_error_store_ok err st Hbody) as Herr.
  destruct (handle_error env err st) as [st' [e|[]]]; exact Herr.
Qed.

Lemma main_iteration_store_ok gpu_class w :
  store_ok w -> store_ok (main_iteration settings with_suffix env gpu_class w).1.
Proof.
  intros Hw. unfold main_iteration, dequeue_job.
  destruct (last _) as [item|]; [|exact Hw].
  case_bool_decide; [exact Hw|].
  apply process_job_store_ok. exact Hw.
Qed.
End WorkerInvariantTop.

Lemma reachable_store_ok settings hash_manifest with_suffix w :
  reachable settings hash_manifest with_suffix w -> store_ok w.
Proof.
  induction 1 as [|w us _ IH|w l _ IH|w payload user new_id now month _ IH
                 |w job_id user now _ IH|w env gpu_class _ IH|w env job_id _ IH].
  - split; [|split; constructor]. intros id j Hl. cbn in Hl.
    rewrite lookup_empty in Hl. discriminate.
  - exact IH.
  - exact IH.
  - exact (preserves_final _ _ w (create_job_store_ok _ _ _ _ _ _ _) IH).
  - exact (preserves_final _ _ w (cancel_job_store_ok _ _ _) IH).
  - apply main_iteration_store_ok. exact IH.
  - apply process_job_store_ok. exact IH.
Qed.

(** C10: in every reachable store, and in every version of the [jobs] table
    that was ever committed on the way, a COMPLETED job has a result key and
    a final cost; hence [job_result] answers for every COMPLETED job of the
    caller with that key. *)
Theorem completed_jobs_have_result_and_cost
    (settings : Settings) (hash_manifest : Manifest -> string)
    (with_suffix : string -> string -> string) (w : World) :
  reachable settings hash_manifest with_suffix w ->
  (forall id j, jobs w !! id = Some j -> job_status j = COMPLETED ->
     job_result_key j ≠ None /\ job_cost_final_usd j ≠ None)
  /\ Forall (fun table : gmap string Job =>
       forall id j, table !! id = Some j -> job_status j = COMPLETED ->
         job_result_key j ≠ None /\ job_cost_final_usd j ≠ None) (commits w)
  /\ (forall job_id user job,
        find_job job_id user w = Some job -> job_status job = COMPLETED ->
        exists key, job_result_key job = Some key /\ job_result job_id user w = inr key).
Proof.
  intros Hreach. apply reachable_store_ok in Hreach as (Hjobs & Hcommits & _).
  assert (Hweak : forall table, completed_have_results table ->
            forall id j, table !! id = Some j -> job_status j = COMPLETED ->
              job_result_key j ≠ None /\ job_cost_final_usd j ≠ None).
  { intros table Ht id j Hl Hst. destruct (Ht id j Hl Hst) as [(key & Hk & _) Hc].
    split; [congruence|exact Hc]. }
  split; [exact (Hweak _ Hjobs)|]. split.
  - eapply Forall_impl; [exact Hcommits|]. exact Hweak.
  - intros job_id user job Hfind Hst.
    destruct (Hjobs job_id job (find_job_lookup _ _ _ _ Hfind) Hst)
      as [(key & Hk & Hne) _].
    exists key. split; [exact Hk|].
    unfold job_result. rewrite Hfind, Hk, Hst.
    rewrite bool_decide_eq_false_2 by (intros H; apply H; reflexivity).
    rewrite bool_decide_eq_false_2 by exact Hne. reflexivity.
Qed.


Lemma scenario_done_reachable :
  reachable default_settings Scenario.hash_manifest Scenario.with_suffix
    (Scenario.work Scenario.quick Scenario.queued).1.
Proof.
  unfold Scenario.work.
  apply (reach_worker _ _ _ Scenario.queued (Scenario.env Scenario.quick) "rtx4090").
  unfold Scenario.queued, Scenario.submit.
  apply (reach_create _ _ _ Scenario.funded (Scenario.request true) Scenario.alice
           "j1" 0%Z "2026-01").
  unfold Scenario.funded.
  apply (reach_ledger _ _ _ (set_users [Scenario.alice] empty_world)).
  apply (reach_users _ _ _ empty_world). apply reach_empty.
Qed.

Lemma completed_jobs_have_result_and_cost_witness :
  match find_job "j1" Scenario.alice (Scenario.work Scenario.quick Scenario.queued).1 with
  | Some job =>
      job_status job = COMPLETED
      /\ exists key,
           job_result "j1" Scenario.alice (Scenario.work Scenario.quick Scenario.queued).1
           = inr key
  | None => False
  end.
Proof.
  destruct (completed_jobs_have_result_and_cost _ _ _ _ scenario_done_reachable)
    as (_ & _ & Hresult).
  specialize (Hresult "j1" Scenario.alice).
  destruct (find_job "j1" Scenario.alice (Scenario.work Scenario.quick Scenario.queued).1)
    as [job|] eqn:Hfind.
  - assert (Hst : job_status job = COMPLETED).
    { apply (f_equal (fmap job_status)) in Hfind. vm_compute in Hfind.
      injection Hfind as Hfind. symmetry. exact Hfind. }
    split; [exact Hst|].
    destruct (Hresult job eq_refl Hst) as (key & _ & Hr). exists key. exact Hr.
  - vm_compute in Hfind. discriminate Hfind.
Defined.

(** ** More on the credit ledger *)

(** A successful new reservation appends exactly one row and changes
    nothing else: a RESERVE row in status [reserved] for the user and the
    job, in USD, with the negated amount and no external id.  It happens
    only when the amount is not [<= 0], the job has no RESERVE row yet and
    the available balance is not below the amount.  The balances returned
    are those of the new ledger; the rows that count as posted are the same
    for every user, so the posted balance is the very same sum; the rows
    that count as reserved for the user are the former ones followed by the
    new row; and the balances of every other user are untouched. *)
Theorem reserve_appends_one_guarded_row
    (l l' : list CreditLedger) (u j : string) (a : Q) (b : CreditBalance) :
  reserve_credits l u j a = inr (l', b) ->
  l' ≠ l ->
  let entry := {| le_user_id := u; le_entry_type := RESERVE; le_status := reserved;
                  le_amount_usd := (- a)%Q; le_currency := "USD"; le_job_id := Some j;
                  le_external_id := None; le_details := NoDetails |} in
  l' = l ++ [entry]
  /\ b = get_balances l' u
  /\ ~ (a <= 0)%Q
  /\ ~ (available_usd (get_balances l u) < a)%Q
  /\ filter (fun e => le_user_id e = u ∧ le_job_id e = Some j ∧ le_entry_type e = RESERVE) l
     = []
  /\ (forall v, filter (fun e => le_user_id e = v ∧ le_status e = posted) l'
                = filter (fun e => le_user_id e = v ∧ le_status e = posted) l)
  /\ posted_usd b = posted_usd (get_balances l u)
  /\ filter (fun e => le_user_id e = u ∧ le_status e = reserved) l'
     = filter (fun e => le_user_id e = u ∧ le_status e = reserved) l ++ [entry]
  /\ (forall v, v ≠ u -> get_balances l' v = get_balances l v).
Proof.
  intros Hres Hne. cbv zeta. unfold reserve_credits in Hres.
  destruct (Qle_bool a 0) eqn:Hpos; [discriminate|]. apply Qle_bool_false in Hpos.
  destruct (one_or_none _) as [?|[?|]] eqn:Hone; cbn [rbind] in Hres; try discriminate.
  { inversion Hres; subst. contradiction. }
  apply one_or_none_None in Hone.
  destruct (Qlt_bool _ a) eqn:Hfunds; [discriminate|]. apply Qlt_bool_false in Hfunds.
  unfold ledger_add in Hres. destruct (decide _); cbn [rbind] in Hres; [discriminate|].
  inversion Hres; subst l' b; clear Hres.
  assert (Hposted : forall v,
            filter (fun e => le_user_id e = v ∧ le_status e = posted)
              (l ++ [ {| le_user_id := u; le_entry_type := RESERVE; le_status := reserved;
                         le_amount_usd := (- a)%Q; le_currency := "USD";
                         le_job_id := Some j; le_external_id := None;
                         le_details := NoDetails |} ])
            = filter (fun e => le_user_id e = v ∧ le_status e = posted) l).
  { intros v. rewrite filter_snoc.
    destruct (decide _) as [[_ Hst]|_]; [discriminate Hst|]. apply app_nil_r. }
  split; [reflexivity|]. split; [reflexivity|].
  split; [intros H; lra|]. split; [intros H; lra|].
  split; [exact Hone|]. split; [exact Hposted|].
  split; [unfold get_balances; cbn [posted_usd]; rewrite Hposted; reflexivity|].
  split.
  - rewrite filter_snoc.
    destruct (decide _) as [_|Hn]; [reflexivity|exfalso; apply Hn; split; reflexivity].
  - intros v Hv. unfold get_balances. rewrite Hposted. rewrite filter_snoc.
    destruct (decide _) as [[Hu _]|_]; [cbn in Hu; congruence|].
    rewrite app_nil_r. reflexivity.
Qed.

Lemma reserve_appends_one_guarded_row_witness :
  Scenario.reserved_ten
  = [Scenario.purchase 100]
    ++ [{| le_user_id := "u1"; le_entry_type := RESERVE; le_status := reserved;
           le_amount_usd := (- 10)%Q; le_currency := "USD"; le_job_id := Some "j1";
           le_external_id := None; le_details := NoDetails |}]
  /\ posted_usd (get_balances Scenario.reserved_ten "u1")
     = posted_usd (get_balances [Scenario.purchase 100] "u1").
Proof.
  pose proof (reserve_appends_one_guarded_row [Scenario.purchase 100]
                Scenario.reserved_ten "u1" "j1" 10
                (get_balances Scenario.reserved_ten "u1")) as H.
  destruct H as (Hl & _ & _ & _ & _ & _ & Hp & _).
  - vm_compute. reflexivity.
  - vm_compute. discriminate.
  - split; [exact Hl|exact Hp].
Defined.

(** [reserve_credits] is idempotent per job: once a call for [(user, job)]
    has returned, any further call with a positive amount returns the
    current balances and leaves the ledger as it is. *)
Theorem reserve_twice_is_reserve_once
    (l l' : list CreditLedger) (u j : string) (a a' : Q) (b : CreditBalance) :
  reserve_credits l u j a = inr (l', b) ->
  (0 < a')%Q ->
  reserve_credits l' u j a' = inr (l', get_balances l' u).
Proof.
  intros Hres Hpos'. unfold reserve_credits in *.
  assert (Qle_bool a' 0 = false) as -> by (apply Qle_bool_false; exact Hpos').
  destruct (Qle_bool a 0); [discriminate|].
  destruct (one_or_none (filter _ l)) as [?|[e|]] eqn:Hone;
    cbn [rbind] in Hres; try discriminate.
  - inversion Hres; subst. rewrite Hone. reflexivity.
  - destruct (Qlt_bool _ a); [discriminate|].
    unfold ledger_add in Hres. destruct (decide _); cbn [rbind] in Hres; [discriminate|].
    inversion Hres; subst l' b; clear Hres.
    apply one_or_none_None in Hone.
    rewrite filter_snoc, Hone.
    destruct (decide _) as [_|Hn]; [reflexivity|].
    exfalso. apply Hn. repeat split.
Qed.

Lemma reserve_twice_is_reserve_once_witness :
  reserve_credits Scenario.reserved_ten "u1" "j1" 500
  = inr (Scenario.reserved_ten, get_balances Scenario.reserved_ten "u1").
Proof.
  apply (reserve_twice_is_reserve_once [Scenario.purchase 100] Scenario.reserved_ten
           "u1" "j1" 10 500 (get_balances Scenario.reserved_ten "u1")).
  - vm_compute. reflexivity.
  - reflexivity.
Defined.

(** The row [reserve_credits] inserts. *)
Definition reserve_row (u j : string) (a : Q) : CreditLedger :=
  {| le_user_id := u; le_entry_type := RESERVE; le_status := reserved;
     le_amount_usd := (- a)%Q; le_currency := "USD"; le_job_id := Some j;
     le_external_id := None; le_details := NoDetails |}.

Lemma reserve_credits_new l l' u j a b :
  reserve_credits l u j a = inr (l', b) -> l' ≠ l -> l' = l ++ [reserve_row u j a].
Proof.
  intros Hres Hne. unfold reserve_credits in Hres.
  destruct (Qle_bool a 0); [discriminate|].
  destruct (one_or_none _) as [?|[?|]]; cbn [rbind] in Hres; try discriminate.
  { inversion Hres; subst. contradiction. }
  destruct (Qlt_bool _ a); [discriminate|].
  unfold ledger_add in Hres. destruct (decide _); cbn [rbind] in Hres; [discriminate|].
  inversion Hres. reflexivity.
Qed.

(** Reserve, then void: every user's posted, reserved and available balance
    is back to what it was before the reservation (the voided row stays in
    the ledger and counts for nothing). *)
Theorem reserve_then_void_restores_balances
    (l l1 : list CreditLedger) (u j reason : string) (a : Q) (b : CreditBalance) :
  reserve_credits l u j a = inr (l1, b) ->
  l1 ≠ l ->
  Forall (fun e => ¬ (le_job_id e = Some j ∧ le_entry_type e = RESERVE)) l ->
  exists l2, void_reservation l1 j reason = inr l2
    /\ length l2 = S (length l)
    /\ forall v, get_balances l2 v = get_balances l v.
Proof.
  intros Hres Hne Hnew.
  rewrite (reserve_credits_new _ _ _ _ _ _ Hres Hne).
  unfold void_reservation.
  rewrite select_snoc, (select_none _ _ Hnew).
  destruct (decide _) as [_|Hn]; [|exfalso; apply Hn; split; reflexivity].
  cbn [app rbind one_or_none]. cbn [reserve_row le_status]. cbn [bool_decide negb].
  rewrite bool_decide_eq_true_2 by reflexivity. cbn [negb].
  rewrite insert_snoc. eexists. split; [reflexivity|]. split.
  - rewrite length_app. simpl. lia.
  - intros v. unfold get_balances. rewrite !filter_snoc.
    destruct (decide _) as [[_ Hst]|_]; [discriminate Hst|].
    destruct (decide _) as [[_ Hst]|_]; [discriminate Hst|].
    rewrite !app_nil_r. reflexivity.
Qed.

Lemma reserve_then_void_restores_balances_witness :
  exists l2, void_reservation Scenario.reserved_ten "j1" "cancelled" = inr l2
    /\ length l2 = 2
    /\ forall v, get_balances l2 v = get_balances [Scenario.purchase 100] v.
Proof.
  apply (reserve_then_void_restores_balances [Scenario.purchase 100]
           Scenario.reserved_ten "u1" "j1" "cancelled" 10
           (get_balances Scenario.reserved_ten "u1")).
  - vm_compute. reflexivity.
  - vm_compute. discriminate.
  - repeat constructor. intros [Hj _]. discriminate Hj.
Defined.

Lemma filter_insert_length {A} (P : A -> Prop) `{!∀ e, Decision (P e)}
    (l : list A) (i : nat) (e x : A) :
  l !! i = Some e -> P e -> P x ->
  length (filter P (<[i := x]> l)) = length (filter P l).
Proof.
  intros Hl He Hx.
  transitivity (length (filter P (take i l ++ e :: drop (S i) l))).
  - rewrite insert_take_drop by (eapply lookup_lt_Some; exact Hl).
    rewrite !filter_app, !filter_cons, !length_app.
    destruct (decide (P x)); [|contradiction].
    destruct (decide (P e)); [|contradiction]. reflexivity.
  - rewrite take_drop_middle by exact Hl. reflexivity.
Qed.

Lemma select_singleton {A} (P : A -> Prop) `{!∀ e, Decision (P e)}
    (l : list A) (i : nat) (x : A) :
  l !! i = Some x -> P x -> length (filter P l) = 1 -> select P l = [(i, x)].
Proof.
  intros Hl Hx Hlen. rewrite <- select_length in Hlen.
  assert (Hin : (i, x) ∈ select P l) by (apply elem_of_select; auto).
  destruct (select P l) as [|p [|? ?]]; simpl in Hlen; try discriminate.
  apply list_elem_of_singleton in Hin. congruence.
Qed.

(** The RESERVE row of a job after [settle_job_credits] or
    [void_reservation] touched it: still the only one, no longer [reserved]. *)
Definition reserve_closed (l : list CreditLedger) (job_id : string) : Prop :=
  length (filter (fun e => le_job_id e = Some job_id ∧ le_entry_type e = RESERVE) l) <= 1
  /\ Forall (fun e => le_job_id e = Some job_id ∧ le_entry_type e = RESERVE ->
                      le_status e ≠ reserved) l.

Lemma closed_is_noop l job_id :
  reserve_closed l job_id ->
  (forall c, settle_job_credits l job_id c = inr l)
  /\ (forall r, void_reservation l job_id r = inr l).
Proof.
  intros [Huniq Hclosed]. rewrite <- select_length in Huniq.
  unfold settle_job_credits, void_reservation.
  destruct (select _ l) as [|[i e] [|? ?]] eqn:Hsel; simpl in Huniq; [| |lia].
  - split; reflexivity.
  - assert (Hin : (i, e) ∈ select (fun e => le_job_id e = Some job_id
                                            ∧ le_entry_type e = RESERVE) l)
      by (rewrite Hsel; left).
    apply elem_of_select in Hin as [Hl HP].
    rewrite Forall_forall in Hclosed.
    specialize (Hclosed e (list_elem_of_lookup_2 _ _ _ Hl) HP).
    cbn [rbind one_or_none].
    rewrite bool_decide_eq_false_2 by exact Hclosed. split; reflexivity.
Qed.

Lemma settle_closes l job_id c l' :
  length (filter (fun e => le_job_id e = Some job_id ∧ le_entry_type e = RESERVE) l) <= 1 ->
  settle_job_credits l job_id c = inr l' ->
  reserve_closed l' job_id.
Proof.
  intros Huniq Hsettle.
  destruct (void_reservation_voids l job_id "x" Huniq) as (lv & Hvoid & _ & Hall).
  unfold settle_job_credits in Hsettle. unfold void_reservation in Hvoid.
  pose proof Huniq as Hlen. rewrite <- select_length in Hlen.
  destruct (select _ l) as [|[i e] [|? ?]] eqn:Hsel; simpl in Hlen; [| |lia];
    cbn [rbind one_or_none] in Hsettle, Hvoid.
  - injection Hsettle as <-. injection Hvoid as <-. split; assumption.
  - assert (Hin : (i, e) ∈ select (fun e => le_job_id e = Some job_id
                                            ∧ le_entry_type e = RESERVE) l)
      by (rewrite Hsel; left).
    apply elem_of_select in Hin as [Hl [Hj Hty]].
    destruct (bool_decide (le_status e = reserved)) eqn:Hst; cbn [negb] in Hsettle, Hvoid.
    2:{ injection Hsettle as <-. injection Hvoid as <-. split; assumption. }
    set (settled := set_settled e posted _ _) in Hsettle.
    assert (Hfilter : length (filter (fun e => le_job_id e = Some job_id
                                               ∧ le_entry_type e = RESERVE)
                                     (<[i := settled]> l)) <= 1).
    { rewrite (filter_insert_length _ l i e settled Hl); [exact Huniq| |];
        split; assumption. }
    assert (Hall' : Forall (fun e => le_job_id e = Some job_id ∧ le_entry_type e = RESERVE ->
                                     le_status e ≠ reserved) (<[i := settled]> l)).
    { injection Hvoid as <-.
      apply Forall_forall. intros x Hx HP.
      apply list_elem_of_lookup in Hx as [k Hk].
      destruct (decide (k = i)) as [->|Hne].
      - rewrite list_lookup_insert_eq in Hk by (eapply lookup_lt_Some; exact Hl).
        injection Hk as <-. discriminate.
      - rewrite list_lookup_insert_ne in Hk by auto.
        rewrite Forall_forall in Hall. apply (Hall x); [|exact HP].
        apply list_elem_of_lookup. exists k.
        rewrite list_lookup_insert_ne by auto. exact Hk. }
    assert (Hadd : forall row, le_entry_type row ≠ RESERVE ->
              forall l2, ledger_add (<[i := settled]> l) row = inr l2 ->
              reserve_closed l2 job_id).
    { intros row Hrow l2 Hl2. unfold ledger_add in Hl2.
      destruct (decide _); [discriminate|]. injection Hl2 as <-.
      split.
      - rewrite filter_snoc. destruct (decide _) as [[_ Hr]|_]; [contradiction|].
        rewrite app_nil_r. exact Hfilter.
      - apply Forall_app. split; [exact Hall'|].
        constructor; [|constructor]. intros [_ Hr]. contradiction. }
    repeat match type of Hsettle with
           | (if ?b then _ else _) = _ => destruct b
           end.
    + eapply Hadd; [|exact Hsettle]. discriminate.
    + eapply Hadd; [|exact Hsettle]. discriminate.
    + injection Hsettle as <-. split; assumption.
Qed.

(** Settling and voiding are final: after [settle_job_credits] or
    [void_reservation] has returned for a job (on a ledger holding at most
    one RESERVE row for it), every later settle or void of that job, at any
    cost and for any reason, leaves the ledger unchanged. *)
Theorem settle_and_void_are_final
    (l l' : list CreditLedger) (job_id : string) (c : Q) (reason : string) :
  length (filter (fun e => le_job_id e = Some job_id ∧ le_entry_type e = RESERVE) l) <= 1 ->
  settle_job_credits l job_id c = inr l' \/ void_reservation l job_id reason = inr l' ->
  (forall c', settle_job_credits l' job_id c' = inr l')
  /\ (forall reason', void_reservation l' job_id reason' = inr l').
Proof.
  intros Huniq [Hsettle|Hvoid].
  - apply closed_is_noop. eapply settle_closes; eassumption.
  - apply closed_is_noop.
    destruct (void_reservation_voids l job_id reason Huniq) as (lv & Hv & Hlen & Hall).
    rewrite Hvoid in Hv. injection Hv as <-.
    split; [|exact Hall].
    unfold void_reservation in Hvoid.
    pose proof Huniq as Hl. rewrite <- select_length in Hl.
    destruct (select _ l) as [|[i e] [|? ?]] eqn:Hsel; simpl in Hl; [| |lia];
      cbn [rbind one_or_none] in Hvoid.
    + injection Hvoid as <-. exact Huniq.
    + assert (Hin : (i, e) ∈ select (fun e => le_job_id e = Some job_id
                                              ∧ le_entry_type e = RESERVE) l)
        by (rewrite Hsel; left).
      apply elem_of_select in Hin as [Hlk [Hj Hty]].
      destruct (negb _); injection Hvoid as <-; [exact Huniq|].
      rewrite (filter_insert_length _ l i e _ Hlk); [exact Huniq| |]; split; assumption.
Qed.

Lemma settle_and_void_are_final_witness :
  exists l', settle_job_credits Scenario.reserved_ten "j1" 4 = inr l'
    /\ settle_job_credits l' "j1" 9 = inr l'
    /\ void_reservation l' "j1" "failed" = inr l'.
Proof.
  destruct (settle_job_credits Scenario.reserved_ten "j1" 4) as [e|l'] eqn:Hs;
    [vm_compute in Hs; discriminate Hs|].
  exists l'. split; [reflexivity|].
  destruct (settle_and_void_are_final Scenario.reserved_ten l' "j1" 4 "x") as [H1 H2].
  - vm_compute. lia.
  - left. exact Hs.
  - split; [apply H1|apply H2].
Defined.



(** The row [manual_adjust] inserts. *)
Definition adjustment_row (u : string) (amount : Q) (reason : string)
    (external_id : option string) : CreditLedger :=
  {| le_user_id := u; le_entry_type := ADJUSTMENT; le_status := posted;
     le_amount_usd := amount; le_currency := "USD"; le_job_id := None;
     le_external_id := external_id; le_details := DReason reason |}.

(** Idempotency keys: once [manual_adjust] has returned for a non-empty key
    [x], a later adjustment or purchase carrying [x], for any user and
    amount, changes nothing; without a key every call appends its row. *)
Theorem adjustment_key_blocks_replays
    (l l1 : list CreditLedger) (u reason x : string) (amount : Q) :
  manual_adjust l u amount reason (Some x) = inr l1 ->
  x ≠ "" ->
  (forall u' amount' reason', manual_adjust l1 u' amount' reason' (Some x) = inr l1)
  /\ (forall u' amount' source, credit_purchase l1 u' amount' x source = inr l1)
  /\ (forall u' amount' reason',
        manual_adjust l1 u' amount' reason' None
        = inr (l1 ++ [adjustment_row u' amount' reason' None])).
Proof.
  intros Hadj Hx.
  assert (Hfound : exists e, one_or_none (filter (fun e => le_external_id e = Some x) l1)
                             = inr (Some e)).
  { unfold manual_adjust in Hadj. rewrite bool_decide_eq_true_2 in Hadj by exact Hx.
    destruct (one_or_none _) as [?|[e|]] eqn:Hone; cbn [rbind] in Hadj; [discriminate| |].
    - injection Hadj as <-. exists e. exact Hone.
    - unfold ledger_add in Hadj. destruct (decide _); [discriminate|].
      injection Hadj as <-. apply one_or_none_None in Hone.
      rewrite filter_snoc, Hone.
      destruct (decide _) as [_|Hn]; [|exfalso; apply Hn; reflexivity].
      eexists. reflexivity. }
  destruct Hfound as [e He].
  split; [|split].
  - intros u' amount' reason'. unfold manual_adjust.
    rewrite bool_decide_eq_true_2 by exact Hx. rewrite He. reflexivity.
  - intros u' amount' source. unfold credit_purchase.
    rewrite bool_decide_eq_true_2 by exact Hx. rewrite He. reflexivity.
  - intros u' amount' reason'. unfold manual_adjust, ledger_add. cbn [rbind].
    destruct (decide _) as [Hex|_]; [|reflexivity].
    exfalso. apply Exists_exists in Hex as (e' & _ & [[Hne _]|[Hne _]]);
      apply Hne; reflexivity.
Qed.

Lemma adjustment_key_blocks_replays_witness :
  exists l1,
    manual_adjust [Scenario.purchase 100] "u1" (-5) "goodwill" (Some "adj-1") = inr l1
    /\ manual_adjust l1 "u1" (-5) "goodwill" (Some "adj-1") = inr l1
    /\ credit_purchase l1 "u1" 30 "adj-1" "lemon" = inr l1.
Proof.
  destruct (manual_adjust [Scenario.purchase 100] "u1" (-5) "goodwill" (Some "adj-1"))
    as [e|l1] eqn:Hadj; [vm_compute in Hadj; discriminate Hadj|].
  exists l1. split; [reflexivity|].
  destruct (adjustment_key_blocks_replays _ _ _ _ _ _ Hadj) as (H1 & H2 & _).
  - discriminate.
  - split; [apply H1|apply H2].
Defined.

(** ** More on classification and pricing *)

(** [classify_effects] splits its input: the two lists together are a
    permutation of the effects, a name starting with [ADBE] always lands in
    the native list, a native name starts with [ADBE], [PG] or [CC], and a
    name in the blocked set or with a blocked prefix is native only if it
    starts with [ADBE]. *)
Theorem classify_effects_partitions (effs : list string) :
  (classify_effects effs).1 ++ (classify_effects effs).2 ≡ₚ effs
  /\ Forall (fun e => startswith e "ADBE" = false) (classify_effects effs).2
  /\ Forall (fun e => startswith e "ADBE" = true
                      \/ ((startswith e "PG" = true \/ startswith e "CC" = true)
                          /\ (e ∉ BLOCKED_EFFECTS)
                          /\ existsb (startswith e) BLOCKED_EFFECT_PREFIXES = false))
            (classify_effects effs).1.
Proof.
  induction effs as [|e effs (IHp & IHt & IHn)]; [repeat split; constructor|].
  cbn [classify_effects].
  destruct (classify_effects effs) as [native third_party]. cbn [fst snd] in *.
  destruct (startswith e "ADBE") eqn:Hadbe; cbn [fst snd].
  { split; [constructor; exact IHp|]. split; [exact IHt|]. constructor; auto. }
  assert (Hthird : (native ++ e :: third_party ≡ₚ e :: effs)
                   /\ Forall (fun e => startswith e "ADBE" = false) (e :: third_party)).
  { split; [|constructor; assumption].
    rewrite <- Permutation_middle. constructor. exact IHp. }
  case_bool_decide as Hblocked; cbn [fst snd].
  { destruct Hthird. repeat split; assumption. }
  destruct (existsb (startswith e) BLOCKED_EFFECT_PREFIXES) eqn:Hprefix; cbn [fst snd].
  { destruct Hthird. repeat split; assumption. }
  destruct (startswith e "PG" || startswith e "CC") eqn:Hpg; cbn [fst snd].
  - split; [constructor; exact IHp|]. split; [exact IHt|].
    constructor; [|exact IHn]. right. apply orb_true_iff in Hpg. auto.
  - destruct Hthird. repeat split; assumption.
Qed.

(** The complexity factor lies between 1 and 4, and the GPU class chosen is
    one of the two configured names, [a100] as soon as the preset is
    [high_quality] or the complexity reaches 2.5. *)
Theorem complexity_and_gpu_class_bounds (manifest : Manifest) (preset : string) :
  (1 <= compute_complexity manifest <= 4)%Q
  /\ (choose_gpu_class manifest preset = "a100"
      \/ choose_gpu_class manifest preset = "rtx4090")
  /\ (preset = "high_quality" \/ (25 # 10 <= compute_complexity manifest)%Q ->
      choose_gpu_class manifest preset = "a100").
Proof.
  split; [|split].
  - unfold compute_complexity. cbv zeta.
    repeat match goal with
           | |- context [if ?b then _ else _] => destruct b
           end; split; vm_compute; discriminate.
  - unfold choose_gpu_class. destruct (_ || _); auto.
  - intros H. unfold choose_gpu_class.
    destruct H as [->|H].
    + rewrite bool_decide_eq_true_2 by reflexivity. rewrite orb_true_r. reflexivity.
    + apply Qle_bool_iff in H. rewrite H. rewrite orb_true_r. reflexivity.
Qed.

(** Rounding is monotone. *)
Lemma Qround_half_even_bounds (q : Q) :
  (Qfloor q <= Qround_half_even q <= Qfloor q + 1)%Z.
Proof.
  unfold Qround_half_even. cbv zeta.
  repeat match goal with |- context [if ?b then _ else _] => destruct b end; lia.
Qed.

Lemma Qround_half_even_mono (a b : Q) :
  (a <= b)%Q -> (Qround_half_even a <= Qround_half_even b)%Z.
Proof.
  intros Hab.
  pose proof (Qfloor_resp_le a b Hab) as Hfl.
  pose proof (Qround_half_even_bounds a) as Ha.
  pose proof (Qround_half_even_bounds b) as Hb.
  destruct (Z.eq_dec (Qfloor a) (Qfloor b)) as [Heq|Hne]; [|lia].
  unfold Qround_half_even in *. cbv zeta in *. rewrite <- Heq in *.
  assert (Hr : (a - inject_Z (Qfloor a) <= b - inject_Z (Qfloor a))%Q) by lra.
  destruct (Qlt_bool (a - inject_Z (Qfloor a)) (1 # 2)) eqn:E1.
  { repeat match goal with |- context [if ?c then _ else _] => destruct c end; lia. }
  apply Qlt_bool_false in E1.
  assert (Qlt_bool (b - inject_Z (Qfloor a)) (1 # 2) = false) as ->
    by (apply Qlt_bool_false; lra).
  destruct (Qlt_bool (1 # 2) (a - inject_Z (Qfloor a))) eqn:E2.
  { apply Qlt_bool_iff in E2.
    assert (Qlt_bool (1 # 2) (b - inject_Z (Qfloor a)) = true) as ->
      by (apply Qlt_bool_iff; lra).
    lia. }
  repeat match goal with |- context [if ?c then _ else _] => destruct c end; lia.
Qed.

Lemma round2_mono (a b : Q) : (a <= b)%Q -> (round2 a <= round2 b)%Q.
Proof.
  intros Hab. unfold round2.
  assert (Hz : (Qround_half_even (a * 100) <= Qround_half_even (b * 100))%Z)
    by (apply Qround_half_even_mono; lra).
  apply Qmult_le_compat_r; [|discriminate].
  rewrite <- Zle_Qle. exact Hz.
Qed.

(** No job is billed below the configured minimum: the worker's final cost
    and the estimator's cost are at least the minimum job cost rounded to
    cents. *)
Theorem cost_is_at_least_minimum
    (settings : Settings) (manifest : Manifest) (preset : string)
    (bundle_size_bytes : Z) (custom_options : option CustomOptions) :
  (forall render_minutes,
     (round2 (min_job_cost_usd settings)
      <= compute_actual_cost settings manifest preset bundle_size_bytes
           render_minutes custom_options)%Q)
  /\ (forall cost eta gpu_class warnings,
        estimate_cost settings manifest preset bundle_size_bytes custom_options
          = inr (cost, eta, gpu_class, warnings) ->
        (round2 (min_job_cost_usd settings) <= cost)%Q).
Proof.
  split.
  - intros m. unfold compute_actual_cost. apply round2_mono. apply Q.le_max_l.
  - intros cost eta gpu_class warnings Hest. unfold estimate_cost in Hest.
    destruct (Qeq_bool _ 0); [discriminate|].
    destruct (Qeq_bool (upload_mbps settings * 1000000) 0); [discriminate|].
    inversion Hest; subst. apply round2_mono. apply Q.le_max_l.
Qed.

(** With non-negative rates and sizes, more render minutes never cost
    less. *)
Theorem actual_cost_is_monotone_in_minutes
    (settings : Settings) (manifest : Manifest) (preset : string)
    (bundle_size_bytes : Z) (custom_options : option CustomOptions) (m m' : Q) :
  (0 <= default 1 (gpu_rate_per_minute settings !! choose_gpu_class manifest preset))%Q ->
  (0 <= storage_rate_per_gb_hour settings)%Q ->
  (0 <= inject_Z bundle_size_bytes / GiB
        + estimate_output_size_gb (durationSeconds (composition manifest)) preset
            custom_options)%Q ->
  (m <= m')%Q ->
  (compute_actual_cost settings manifest preset bundle_size_bytes m custom_options
   <= compute_actual_cost settings manifest preset bundle_size_bytes m' custom_options)%Q.
Proof.
  intros Hrate Hstorage Hsize Hm. unfold compute_actual_cost. cbv zeta.
  apply round2_mono. apply Q.max_le_compat_l.
  set (rate := default 1%Q _) in *.
  set (size := (inject_Z bundle_size_bytes / GiB + _)%Q) in *.
  assert (Hh : (Qmax 1 (m / 60) <= Qmax 1 (m' / 60))%Q).
  { apply Q.max_le_compat_l. unfold Qdiv. apply Qmult_le_compat_r; [exact Hm|].
    discriminate. }
  assert (H1 : (m * rate <= m' * rate)%Q) by (apply Qmult_le_compat_r; assumption).
  assert (H2 : (size * storage_rate_per_gb_hour settings * Qmax 1 (m / 60)
                <= size * storage_rate_per_gb_hour settings * Qmax 1 (m' / 60))%Q).
  { rewrite (Qmult_comm _ (Qmax 1 (m / 60))), (Qmult_comm _ (Qmax 1 (m' / 60))).
    apply Qmult_le_compat_r; [exact Hh|]. apply Qmult_le_0_compat; assumption. }
  lra.
Qed.

Lemma actual_cost_is_monotone_in_minutes_witness :
  (compute_actual_cost default_settings Scenario.manifest "web" 120000000 1 None
   <= compute_actual_cost default_settings Scenario.manifest "web" 120000000 90 None)%Q.
Proof.
  apply actual_cost_is_monotone_in_minutes.
  - vm_compute. discriminate.
  - vm_compute. discriminate.
  - vm_compute. discriminate.
  - vm_compute. discriminate.
Defined.

Lemma cost_is_at_least_minimum_witness :
  (round2 1 <= round2 1)%Q
  /\ (round2 (min_job_cost_usd default_settings)
      <= compute_actual_cost default_settings Scenario.manifest "web" 120000000 90 None)%Q.
Proof.
  destruct (cost_is_at_least_minimum default_settings Scenario.manifest "web"
              120000000 None) as [Hactual Hestimate].
  split.
  - apply (Hestimate (round2 1) 199%Z "rtx4090" []). vm_compute. reflexivity.
  - apply Hactual.
Defined.

(** ** The work queues *)

(** [enqueue_job] for each id in turn, then [n] pops. *)
Definition enqueue_all (ids : list string) (gpu_class : string) (w : World) : World :=
  foldl (fun w id => enqueue_job id gpu_class w) w ids.

Fixpoint dequeue_n (n : nat) (gpu_class : string) (w : World) : World * list string :=
  match n with
  | O => (w, [])
  | S n' =>
      match dequeue_job gpu_class w with
      | (w', Some id) =>
          let '(w'', rest) := dequeue_n n' gpu_class w' in (w'', id :: rest)
      | (w', None) => (w', [])
      end
  end.

Definition queue_of (gpu_class : string) (w : World) : list string :=
  default [] (queues w !! gpu_class).

Lemma queue_of_enqueue id gpu_class w :
  queue_of gpu_class (enqueue_job id gpu_class w) = id :: queue_of gpu_class w.
Proof.
  unfold queue_of, enqueue_job. cbn [queues set_queues].
  rewrite lookup_insert_eq. reflexivity.
Qed.

Lemma queue_of_enqueue_all ids gpu_class w :
  queue_of gpu_class (enqueue_all ids gpu_class w) = rev ids ++ queue_of gpu_class w.
Proof.
  revert w. induction ids as [|id ids IH]; intros w; [reflexivity|].
  cbn [enqueue_all foldl]. fold (enqueue_all ids gpu_class (enqueue_job id gpu_class w)).
  rewrite IH, queue_of_enqueue. cbn [rev]. rewrite <- app_assoc. reflexivity.
Qed.

Lemma dequeue_job_snoc gpu_class w (c : list string) (x : string) :
  queue_of gpu_class w = c ++ [x] ->
  (dequeue_job gpu_class w).2 = Some x
  /\ queue_of gpu_class (dequeue_job gpu_class w).1 = c.
Proof.
  intros Hq. unfold dequeue_job. fold (queue_of gpu_class w). rewrite Hq.
  rewrite last_snoc. cbn [fst snd]. split; [reflexivity|].
  unfold queue_of in *. cbn [queues set_queues]. rewrite lookup_alter_eq.
  destruct (queues w !! gpu_class) as [q|]; cbn in *.
  - rewrite Hq. apply removelast_last.
  - destruct c; discriminate Hq.
Qed.

Lemma dequeue_job_empty gpu_class w :
  queue_of gpu_class w = [] -> dequeue_job gpu_class w = (w, None).
Proof.
  intros Hq. unfold dequeue_job. fold (queue_of gpu_class w). rewrite Hq. reflexivity.
Qed.

Lemma dequeue_n_rev ids gpu_class w :
  queue_of gpu_class w = rev ids ->
  (dequeue_n (length ids) gpu_class w).2 = ids
  /\ queue_of gpu_class (dequeue_n (length ids) gpu_class w).1 = [].
Proof.
  revert w. induction ids as [|id ids IH]; intros w Hq.
  - split; [reflexivity|exact Hq].
  - cbn [rev] in Hq. destruct (dequeue_job_snoc gpu_class w (rev ids) id Hq) as [Hid Hrest].
    cbn [length dequeue_n].
    destruct (dequeue_job gpu_class w) as [w' o]. cbn [fst snd] in Hid, Hrest. subst o.
    specialize (IH w' Hrest).
    destruct (dequeue_n (length ids) gpu_class w') as [w'' rest]. cbn [fst snd] in *.
    destruct IH as [-> Hempty]. split; [reflexivity|exact Hempty].
Qed.

(** A work queue is first in, first out: ids pushed on an empty queue of a
    GPU class come back from [dequeue_job] in the order they were pushed;
    after that the queue is empty and the next pop returns nothing and
    changes nothing. *)
Theorem work_queue_is_fifo (ids : list string) (gpu_class : string) (w : World) :
  queue_of gpu_class w = [] ->
  let popped := dequeue_n (length ids) gpu_class (enqueue_all ids gpu_class w) in
  popped.2 = ids
  /\ queue_of gpu_class popped.1 = []
  /\ dequeue_job gpu_class popped.1 = (popped.1, None).
Proof.
  intros Hempty. cbv zeta.
  assert (Hq : queue_of gpu_class (enqueue_all ids gpu_class w) = rev ids).
  { rewrite queue_of_enqueue_all, Hempty. apply app_nil_r. }
  destruct (dequeue_n_rev ids gpu_class _ Hq) as [Hids Hnil].
  split; [exact Hids|]. split; [exact Hnil|].
  apply dequeue_job_empty. exact Hnil.
Qed.

Lemma work_queue_is_fifo_witness :
  (dequeue_n 3 "a100" (enqueue_all ["j1"; "j2"; "j3"] "a100" Scenario.funded)).2
  = ["j1"; "j2"; "j3"].
Proof.
  apply (work_queue_is_fifo ["j1"; "j2"; "j3"] "a100" Scenario.funded).
  reflexivity.
Defined.

(** [remove_job] takes every occurrence of the id out of the queue of the
    given GPU class, keeps the other ids in order, leaves the other queues
    alone, and the next pop from that queue never returns the id. *)
Theorem removed_job_is_never_dequeued (job_id gpu_class : string) (w : World) :
  queue_of gpu_class (remove_job job_id gpu_class w)
  = filter (fun x => x ≠ job_id) (queue_of gpu_class w)
  /\ (job_id ∉ queue_of gpu_class (remove_job job_id gpu_class w))
  /\ (forall other, other ≠ gpu_class ->
        queues (remove_job job_id gpu_class w) !! other = queues w !! other)
  /\ (dequeue_job gpu_class (remove_job job_id gpu_class w)).2 ≠ Some job_id.
Proof.
  assert (Hq : queue_of gpu_class (remove_job job_id gpu_class w)
               = filter (fun x => x ≠ job_id) (queue_of gpu_class w)).
  { unfold queue_of, remove_job. cbn [queues set_queues]. rewrite lookup_alter_eq.
    destruct (queues w !! gpu_class); reflexivity. }
  assert (Hnot : job_id ∉ queue_of gpu_class (remove_job job_id gpu_class w)).
  { rewrite Hq. intros Hin. apply list_elem_of_filter in Hin as [Hne _]. contradiction. }
  split; [exact Hq|]. split; [exact Hnot|]. split.
  - intros other Hother. unfold remove_job. cbn [queues set_queues].
    apply lookup_alter_ne. auto.
  - unfold dequeue_job. fold (queue_of gpu_class (remove_job job_id gpu_class w)).
    destruct (last _) as [item|] eqn:Hlast; cbn [snd]; [|discriminate].
    intros [= ->]. apply Hnot. apply last_Some in Hlast as [c ->].
    apply elem_of_app. right. left.
Qed.

(** ** The history is append-only *)

(** [history_kept w w']: every message published, every job event and every
    committed version of [jobs] in [w] is still there, in place, in [w']. *)
Definition history_kept (w w' : World) : Prop :=
  published w `prefix_of` published w'
  ∧ job_events w `prefix_of` job_events w'
  ∧ commits w `prefix_of` commits w'.

Lemma history_kept_refl w : history_kept w w.
Proof. repeat split; reflexivity. Qed.

Lemma history_kept_trans w1 w2 w3 :
  history_kept w1 w2 -> history_kept w2 w3 -> history_kept w1 w3.
Proof. intros (?&?&?) (?&?&?). repeat split; etrans; eassumption. Qed.

(** A write that only appends to the three logs, or leaves them alone. *)
Ltac history_leaf :=
  lazymatch goal with
  | H : history_kept _ _ |- history_kept _ _ =>
      destruct H as (?&?&?); unfold history_kept;
      cbn [published job_events commits ws_world
           publish_progress save_job commit_jobs enqueue_job remove_job
           set_users set_jobs set_job_events set_usage set_cache_entries
           set_credit_ledger set_queues set_published set_commits];
      repeat split; try assumption; try (apply prefix_app_r; assumption)
  end.

Lemma update_job_history w0 status message progress error now :
  preserves (in_world (history_kept w0)) (update_job status message progress error now).
Proof.
  intros st Hst. unfold update_job, mmodify, in_world in *. cbn [ws_world]. history_leaf.
Qed.

Ltac history_step :=
  first
    [ preserves_step
    | apply update_job_history
    | apply preserves_on_world
    | apply preserves_modify; intros ? ?; history_leaf
    | apply preserves_with_ledger; intros ? ? ?; history_leaf ].

Lemma add_job_history w0 j : preserves (history_kept w0) (add_job j).
Proof.
  intros w Hw. unfold add_job. destruct (jobs w !! job_uuid j); [exact Hw|]. history_leaf.
Qed.

Lemma cancel_job_history w0 job_id user now :
  preserves (history_kept w0) (cancel_job job_id user now).
Proof. unfold cancel_job. repeat history_step. Qed.

Lemma create_job_history w0 settings hash_manifest payload user new_id now month :
  preserves (history_kept w0)
    (create_job settings hash_manifest payload user new_id now month).
Proof.
  unfold create_job. cbv zeta.
  preserves_step; [apply preserves_raise|].
  preserves_step; [apply preserves_lift|].
  destruct a as [[[cost eta] gpu_class] warnings].
  destruct (check_manifest (req_manifest payload)) as [compat_warnings compat_errors].
  preserves_step; [apply preserves_raise|].
  apply preserves_bind; [apply ensure_usage_limit_preserves|intros _].
  apply preserves_bind; [repeat history_step|intros [cache|]].
  - preserves_step; [apply add_job_history|].
    preserves_step.
    { intros s Hs. destruct (reserve_credits _ _ _ _) as [[]|[? ?]];
        first [exact Hs|history_leaf]. }
    repeat history_step.
  - preserves_step; [apply add_job_history|].
    preserves_step.
    { intros s Hs. destruct (reserve_credits _ _ _ _) as [[]|[? ?]];
        first [exact Hs|history_leaf]. }
    repeat history_step.
Qed.

Lemma lemon_webhook_history w0 settings str_upper hexdigest request new_user :
  preserves (history_kept w0)
    (lemon_webhook settings str_upper hexdigest request new_user).
Proof. unfold lemon_webhook. repeat history_step. Qed.

Lemma update_usage_history w0 job minutes month :
  preserves (history_kept w0) (update_usage job minutes month).
Proof. unfold update_usage. repeat history_step. Qed.

Section WorkerHistory.
Context (settings : Settings) (with_suffix : string -> string -> string)
        (env : WorkerEnv) (w0 : World).

Lemma handle_line_history line :
  preserves (in_world (history_kept w0)) (handle_line env line).
Proof. unfold handle_line. repeat history_step. Qed.

Lemma run_render_loop_history trace :
  preserves (in_world (history_kept w0)) (run_render_loop env trace).
Proof.
  induction trace as [line rc|line cancel_by timed_out rest IH]; cbn [run_render_loop].
  - preserves_step; [apply handle_line_history|]. repeat history_step.
  - preserves_step; [apply handle_line_history|].
    preserves_step; [apply preserves_get|].
    preserves_step.
    { destruct cancel_by as [caller|]; [|apply preserves_ret].
      apply preserves_on_world. intros w Hw.
      exact (preserves_final _ _ w (cancel_job_history w0 _ caller _) Hw). }
    preserves_step.
    { apply preserves_modify. intros st Hst. exact Hst. }
    preserves_step; [apply preserves_get|].
    preserves_step; [repeat history_step|].
    preserves_step; [repeat history_step|exact IH].
Qed.

Lemma handle_error_history err :
  preserves (in_world (history_kept w0)) (handle_error env err).
Proof. unfold handle_error. repeat history_step. Qed.
End WorkerHistory.

(** Any part of [process_job]'s [try] block. *)
Ltac history_worker :=
  repeat first
    [ apply run_render_loop_history
    | apply update_usage_history
    | history_step ].

Lemma process_body_history settings with_suffix env w0 :
  preserves (in_world (history_kept w0)) (process_body settings with_suffix env).
Proof. unfold process_body, run_render, transcode_output. history_worker. Qed.

Lemma process_job_history settings with_suffix env job_id w0 w :
  history_kept w0 w ->
  history_kept w0 (process_job settings with_suffix env job_id w).1.
Proof.
  intros Hw. unfold process_job.
  destruct (jobs w !! job_id) as [job|]; [|exact Hw].
  pose proof (process_body_history settings with_suffix env w0
                {| ws_world := w; ws_job := job |} Hw) as Hbody.
  destruct (process_body _ _ _ _) as [st [err|[]]]; [|exact Hbody].
  pose proof (handle_error_history env w0 err st Hbody) as Herr.
  destruct (handle_error env err st) as [st' [e|[]]]; exact Herr.
Qed.

Lemma main_iteration_history settings with_suffix env gpu_class w :
  history_kept w (main_iteration settings with_suffix env gpu_class w).1.
Proof.
  unfold main_iteration, dequeue_job.
  destruct (last _) as [item|]; [|apply history_kept_refl].
  case_bool_decide; [repeat split; reflexivity|].
  apply process_job_history. repeat split; reflexivity.
Qed.

(** No request and no worker turn rewrites history: whatever the outcome
    (return or exception), the messages published so far, the job events and
    the committed versions of the [jobs] table are kept, in order, and new
    ones are only appended. *)
Theorem history_is_append_only
    (settings : Settings) (hash_manifest : Manifest -> string)
    (with_suffix : string -> string -> string) (w : World) :
  (forall payload user new_id now month,
     history_kept w (create_job settings hash_manifest payload user new_id now month w).1)
  /\ (forall job_id user now, history_kept w (cancel_job job_id user now w).1)
  /\ (forall env job_id,
        history_kept w (process_job settings with_suffix env job_id w).1)
  /\ (forall env gpu_class,
        history_kept w (main_iteration settings with_suffix env gpu_class w).1)
  /\ (forall str_upper hexdigest request new_user,
        history_kept w
          (lemon_webhook settings str_upper hexdigest request new_user w).1).
Proof.
  pose proof (history_kept_refl w) as Hw.
  split; [|split; [|split; [|split]]].
  - intros. exact (preserves_final _ _ w (create_job_history w _ _ _ _ _ _ _) Hw).
  - intros. exact (preserves_final _ _ w (cancel_job_history w _ _ _) Hw).
  - intros. apply process_job_history. exact Hw.
  - intros. apply main_iteration_history.
  - intros. exact (preserves_final _ _ w (lemon_webhook_history w _ _ _ _ _) Hw).
Qed.

(** ** The worker does not look at the status *)

(** After its first [update_job], [process_job] only appends. *)
Lemma process_job_after_first_update settings with_suffix env job_id w job :
  jobs w !! job_id = Some job ->
  history_kept
    (ws_world (update_job DOWNLOADING "Downloading bundle" None None
                 (env_utcnow env DOWNLOADING) {| ws_world := w; ws_job := job |}).1)
    (process_job settings with_suffix env job_id w).1.
Proof.
  intros Hjob. unfold process_job. rewrite Hjob.
  unfold process_body. unfold mbind at 1.
  destruct (update_job DOWNLOADING _ _ _ _ _) as [st1 [e|[]]] eqn:Hup;
    [unfold update_job, mmodify in Hup; discriminate Hup|].
  cbn [fst].
  match goal with
  | |- context [match ?m st1 with pair _ _ => _ end] =>
      assert (Htail : preserves (in_world (history_kept (ws_world st1))) m)
  end.
  { unfold run_render, transcode_output. history_worker. }
  specialize (Htail st1 (history_kept_refl _)).
  match type of Htail with
  | match ?m st1 with _ => _ end => destruct (m st1) as [st2 [err|[]]]
  end; [|exact Htail].
  pose proof (handle_error_history env (ws_world st1) err st2 Htail) as Herr.
  destruct (handle_error env err st2) as [st3 [e|[]]]; exact Herr.
Qed.

(** [process_job] leaves the store alone when the row does not exist; on an
    existing row it starts regardless of the row's status, of its
    [cancel_requested] flag and of its attempts: the first thing it commits
    is the row at DOWNLOADING with progress 10, and the first thing it
    publishes is that status, with whatever error message the row carried. *)
Theorem process_job_has_no_status_guard
    (settings : Settings) (with_suffix : string -> string -> string)
    (env : WorkerEnv) (job_id : string) (w : World) :
  match jobs w !! job_id with
  | None => process_job settings with_suffix env job_id w = (w, inr tt)
  | Some job =>
      let w' := (process_job settings with_suffix env job_id w).1 in
      let row := set_job_progress_percent 10 (set_job_status DOWNLOADING job) in
      (exists later,
         published w'
         = published w
           ++ {| msg_job_id := job_uuid job; msg_status := DOWNLOADING;
                 msg_progress := 10; msg_error := job_error_message job |} :: later)
      /\ (exists later,
            commits w' = commits w ++ <[job_uuid job := row]> (jobs w) :: later)
      /\ (exists later,
            job_events w'
            = job_events w
              ++ {| ev_job_id := job_uuid job; ev_event_type := DOWNLOADING;
                    ev_message := "Downloading bundle" |} :: later)
  end.
Proof.
  destruct (jobs w !! job_id) as [job|] eqn:Hjob.
  2:{ unfold process_job. rewrite Hjob. reflexivity. }
  intros w' row.
  destruct (process_job_after_first_update settings with_suffix env job_id w job Hjob)
    as ((l1 & H1) & (l2 & H2) & (l3 & H3)).
  fold w' in H1, H2, H3. clearbody w'.
  rewrite H1, H2, H3.
  unfold update_job, mmodify.
  cbn [fst published job_events commits ws_world publish_progress save_job commit_jobs
       set_jobs set_job_events set_published set_commits].
  rewrite <- !app_assoc. (split; [|split]); eexists; reflexivity.
Qed.

(** ** Progress follows the status *)

(** The progress values a status is ever stored or published with. *)
Definition progress_fits (status : JobStatus) (p : Q) : Prop :=
  match status with
  | CREATED => False
  | QUEUED => (p == 0)%Q \/ (p == 10)%Q
  | DOWNLOADING => (p == 10)%Q
  | VALIDATING => (p == 20)%Q
  | RENDERING => (p <= 90)%Q
  | PACKAGING => (p == 85)%Q
  | UPLOADING => (p == 92)%Q
  | COMPLETED => (p == 100)%Q
  | FAILED | CANCELLED => (p == 0)%Q
  end.

Definition progress_ok (w : World) : Prop :=
  (forall id j, jobs w !! id = Some j ->
     progress_fits (job_status j) (job_progress_percent j))
  /\ Forall (fun m => progress_fits (msg_status m) (msg_progress m)) (published w).

Lemma progress_ok_save_job w j :
  progress_ok w -> progress_fits (job_status j) (job_progress_percent j) ->
  progress_ok (save_job j w).
Proof.
  intros [Hrows Hmsgs] Hj. split; [|exact Hmsgs].
  intros id j' Hl. cbn in Hl.
  destruct (decide (job_uuid j = id)) as [Heq|Hne].
  - subst id. rewrite lookup_insert_eq in Hl. injection Hl as <-. exact Hj.
  - rewrite lookup_insert_ne in Hl by exact Hne. eauto.
Qed.

Lemma progress_ok_publish w m :
  progress_ok w -> progress_fits (msg_status m) (msg_progress m) ->
  progress_ok (publish_progress m w).
Proof.
  intros [Hrows Hmsgs] Hm. split; [exact Hrows|].
  cbn. apply Forall_app. split; [exact Hmsgs|]. constructor; [exact Hm|constructor].
Qed.

(** [update_job] writes the status together with its progress. *)
Lemma update_job_progress_ok status message progress error now :
  (forall old, progress_fits status
     match progress with
     | Some p => p
     | None => default old (STATUS_PROGRESS status)
     end) ->
  preserves (in_world progress_ok) (update_job status message progress error now).
Proof.
  intros Hfits st Hst. unfold update_job, mmodify, in_world in *. cbn [ws_world].
  specialize (Hfits (job_progress_percent (ws_job st))).
  apply progress_ok_publish; [apply progress_ok_save_job; [exact Hst|]|];
    repeat case_inner; exact Hfits.
Qed.

Ltac progress_side :=
  intros ?; cbn [progress_fits STATUS_PROGRESS default from_option];
  lazymatch goal with
  | |- (Qmin _ _ <= _)%Q => apply Q.le_min_l
  | |- (_ <= _)%Q => discriminate
  | |- (_ == _)%Q => reflexivity
  | |- _ \/ _ => right; reflexivity
  end.

Ltac progress_step :=
  lazymatch goal with
  | |- preserves _ (update_job _ _ _ _ _) => apply update_job_progress_ok; progress_side
  | |- preserves _ (on_world _) => apply preserves_on_world
  | |- preserves _ (mmodify _) => apply preserves_modify; intros ? Hs; exact Hs
  | |- preserves _ (with_ledger _) => apply preserves_with_ledger; intros ? ? Hs; exact Hs
  | |- _ => preserves_step
  end.

Lemma add_job_progress_ok j :
  progress_fits (job_status j) (job_progress_percent j) ->
  preserves progress_ok (add_job j).
Proof.
  intros Hj w Hw. unfold add_job.
  destruct (jobs w !! job_uuid j); [exact Hw|].
  apply (progress_ok_save_job w j Hw Hj).
Qed.

Lemma cancel_job_progress_ok job_id user now :
  preserves progress_ok (cancel_job job_id user now).
Proof.
  intros w Hw. unfold cancel_job. run_M.
  destruct (find_job job_id user w) as [job|] eqn:Hfind; [|exact Hw].
  apply find_job_lookup in Hfind.
  change (job_status (set_job_cancel_requested true job)) with (job_status job).
  destruct (bool_decide (job_status job = QUEUED)) eqn:Hq.
  - cbn beta iota.
    match goal with
    | |- context [void_reservation ?l ?j ?r] => destruct (void_reservation l j r)
    end; cbn beta iota;
      [|apply progress_ok_publish; [|reflexivity]];
      refine (progress_ok_save_job (remove_job _ _ w) _ Hw _); reflexivity.
  - cbn beta iota. refine (progress_ok_save_job w _ Hw _).
    destruct Hw as (Hrows & _). exact (Hrows job_id job Hfind).
Qed.

Lemma create_job_progress_ok settings hash_manifest payload user new_id now month :
  preserves progress_ok
    (create_job settings hash_manifest payload user new_id now month).
Proof.
  unfold create_job. cbv zeta.
  preserves_step; [apply preserves_raise|].
  preserves_step; [apply preserves_lift|].
  destruct a as [[[cost eta] gpu_class] warnings].
  destruct (check_manifest (req_manifest payload)) as [compat_warnings compat_errors].
  preserves_step; [apply preserves_raise|].
  apply preserves_bind; [apply ensure_usage_limit_preserves|intros _].
  apply preserves_bind; [repeat progress_step|intros [cache|]].
  - preserves_step; [apply add_job_progress_ok; reflexivity|].
    preserves_step.
    { intros s Hs. destruct (reserve_credits _ _ _ _) as [[]|[? ?]]; exact Hs. }
    preserves_step; [apply preserves_with_ledger; intros ? ? Hs; exact Hs|].
    preserves_step; [|apply preserves_ret].
    apply preserves_modify. intros s Hs. apply progress_ok_publish; [exact Hs|reflexivity].
  - preserves_step; [apply add_job_progress_ok; left; reflexivity|].
    preserves_step.
    { intros s Hs. destruct (reserve_credits _ _ _ _) as [[]|[? ?]]; try exact Hs.
      apply progress_ok_save_job; [exact Hs|reflexivity]. }
    preserves_step; [apply preserves_modify; intros s Hs; exact Hs|].
    preserves_step.
    { apply preserves_modify. intros s Hs.
      apply progress_ok_publish; [exact Hs|left; reflexivity]. }
    repeat progress_step.
Qed.

Lemma update_usage_progress_ok job minutes month :
  preserves progress_ok (update_usage job minutes month).
Proof. unfold update_usage. repeat progress_step. Qed.

Section WorkerProgress.
Context (settings : Settings) (with_suffix : string -> string -> string)
        (env : WorkerEnv).

Lemma handle_line_progress_ok line :
  preserves (in_world progress_ok) (handle_line env line).
Proof. unfold handle_line. repeat progress_step. Qed.

Lemma run_render_loop_progress_ok trace :
  preserves (in_world progress_ok) (run_render_loop env trace).
Proof.
  induction trace as [line rc|line cancel_by timed_out rest IH]; cbn [run_render_loop].
  - preserves_step; [apply handle_line_progress_ok|]. repeat progress_step.
  - preserves_step; [apply handle_line_progress_ok|].
    preserves_step; [apply preserves_get|].
    preserves_step.
    { destruct cancel_by as [caller|]; [|apply preserves_ret].
      apply preserves_on_world. intros w Hw.
      exact (preserves_final _ _ w (cancel_job_progress_ok _ caller _) Hw). }
    preserves_step.
    { apply preserves_modify. intros st Hst. exact Hst. }
    preserves_step; [apply preserves_get|].
    preserves_step; [repeat progress_step|].
    preserves_step; [repeat progress_step|exact IH].
Qed.

Lemma process_body_progress_ok :
  preserves (in_world progress_ok) (process_body settings with_suffix env).
Proof.
  unfold process_body, run_render, transcode_output.
  repeat first
    [ apply run_render_loop_progress_ok
    | apply update_usage_progress_ok
    | progress_step ].
Qed.

Lemma handle_error_progress_ok err :
  preserves (in_world progress_ok) (handle_error env err).
Proof. unfold handle_error. repeat progress_step. Qed.

Lemma process_job_progress_ok job_id w :
  progress_ok w -> progress_ok (process_job settings with_suffix env job_id w).1.
Proof.
  intros Hw. unfold process_job.
  destruct (jobs w !! job_id) as [job|]; [|exact Hw].
  pose proof (process_body_progress_ok {| ws_world := w; ws_job := job |} Hw) as Hbody.
  destruct (process_body _ _ _ _) as [st [err|[]]]; [|exact Hbody].
  pose proof (handle_error_progress_ok err st Hbody) as Herr.
  destruct (handle_error env err st) as [st' [e|[]]]; exact Herr.
Qed.

Lemma main_iteration_progress_ok gpu_class w :
  progress_ok w -> progress_ok (main_iteration settings with_suffix env gpu_class w).1.
Proof.
  intros Hw. unfold main_iteration, dequeue_job.
  destruct (last _) as [item|]; [|exact Hw].
  case_bool_decide; [exact Hw|].
  apply process_job_progress_ok. exact Hw.
Qed.
End WorkerProgress.

Lemma reachable_progress_ok settings hash_manifest with_suffix w :
  reachable settings hash_manifest with_suffix w -> progress_ok w.
Proof.
  induction 1 as [|w us _ IH|w l _ IH|w payload user new_id now month _ IH
                 |w job_id user now _ IH|w env gpu_class _ IH|w env job_id _ IH].
  - split; [|constructor]. intros id j Hl. cbn in Hl.
    rewrite lookup_empty in Hl. discriminate.
  - exact IH.
  - exact IH.
  - exact (preserves_final _ _ w (create_job_progress_ok _ _ _ _ _ _ _) IH).
  - exact (preserves_final _ _ w (cancel_job_progress_ok _ _ _) IH).
  - apply main_iteration_progress_ok. exact IH.
  - apply process_job_progress_ok. exact IH.
Qed.

(** In every reachable store, each job row and each published message
    carries a progress that fits its status: fixed values for DOWNLOADING
    (10), VALIDATING (20), PACKAGING (85), UPLOADING (92), COMPLETED (100),
    FAILED and CANCELLED (0); 0 or 10 for QUEUED; at most 90 for RENDERING;
    no row is ever CREATED.  Hence no message exceeds 100, and 100 is only
    ever published with COMPLETED. *)
Theorem progress_matches_status
    (settings : Settings) (hash_manifest : Manifest -> string)
    (with_suffix : string -> string -> string) (w : World) :
  reachable settings hash_manifest with_suffix w ->
  (forall id j, jobs w !! id = Some j ->
     progress_fits (job_status j) (job_progress_percent j))
  /\ (forall m, m ∈ published w ->
        progress_fits (msg_status m) (msg_progress m)
        /\ (msg_progress m <= 100)%Q
        /\ ((msg_progress m == 100)%Q -> msg_status m = COMPLETED)).
Proof.
  intros Hreach. apply reachable_progress_ok in Hreach as [Hrows Hmsgs].
  split; [exact Hrows|]. intros m Hm.
  rewrite Forall_forall in Hmsgs. specialize (Hmsgs m Hm).
  split; [exact Hmsgs|].
  destruct (msg_status m); cbn [progress_fits] in Hmsgs;
    try contradiction; split; try lra; try (intros H100; lra); try reflexivity.
  all: destruct Hmsgs; try lra; intros H100; lra.
Qed.

Lemma progress_matches_status_witness :
  Forall (fun m => (msg_progress m <= 100)%Q)
    (published (Scenario.work Scenario.quick Scenario.queued).1).
Proof.
  destruct (progress_matches_status _ _ _ _ scenario_done_reachable) as [_ Hmsgs].
  apply Forall_forall. intros m Hm. apply (Hmsgs m Hm).
Defined.

(** ** Submitting a job *)

(** The month's spend [ensure_usage_limit] reads for the user. *)
Definition month_total (user : User) (month : string) (w : World) : Q :=
  match one_or_none
          (filter (fun us => us_user_id us = u_id user ∧ us_month us = month) (usage w)) with
  | inr (Some us) => us_cost_usd us
  | _ => 0%Q
  end.


Lemma ensure_usage_limit_ok user cost month w w' :
  ensure_usage_limit user cost month w = (w', inr tt) ->
  w' = w /\ (cost <= u_per_job_max_usd user)%Q
  /\ (month_total user month w + cost <= u_monthly_limit_usd user)%Q.
Proof.
  unfold ensure_usage_limit, month_total. run_M.
  destruct (one_or_none _) as [e|row]; [discriminate|].
  destruct (Qlt_bool (u_per_job_max_usd user) cost) eqn:Hmax; [discriminate|].
  destruct (Qlt_bool (u_monthly_limit_usd user) _) eqn:Hmonth; [discriminate|].
  intros [= <-]. apply Qlt_bool_false in Hmax, Hmonth.
  split; [reflexivity|]. split; [exact Hmax|].
  destruct row; exact Hmonth.
Qed.




(** The cache lookup of [create_job]. *)
Definition cache_lookup (hash_manifest : Manifest -> string) (payload : JobCreateRequest)
    (w : World) : Result (option CacheEntry) :=
  if req_allowCache payload
  then one_or_none
         (filter (fun c => ce_manifest_hash c = hash_manifest (req_manifest payload)
                           ∧ ce_preset c = req_preset payload)
                 (cache_entries w))
  else inr None.

Definition insufficient : Exn := HTTPException 400 "Insufficient credits".

Lemma one_or_none_error {A} (l : list A) e : one_or_none l = inl e -> e = MultipleResultsFound.
Proof. destruct l as [|? [|? ?]]; simpl; congruence. Qed.

Lemma estimate_cost_error settings manifest preset size custom e :
  estimate_cost settings manifest preset size custom = inl e -> e ≠ insufficient.
Proof.
  unfold estimate_cost. cbv zeta. repeat case_inner; intros [= <-]; discriminate.
Qed.

Lemma ensure_usage_limit_error user cost month w w1 e :
  ensure_usage_limit user cost month w = (w1, inl e) -> e ≠ insufficient.
Proof.
  unfold ensure_usage_limit. run_M.
  destruct (one_or_none _) as [e'|row] eqn:Hone.
  - apply one_or_none_error in Hone as ->. intros [= _ <-]. discriminate.
  - repeat case_inner; intros [= _ <-]; discriminate.
Qed.

Lemma ledger_add_error l row e : ledger_add l row = inl e -> e = IntegrityError.
Proof. unfold ledger_add. destruct (decide _); congruence. Qed.

Lemma reserve_credits_error l u j a e :
  reserve_credits l u j a = inl e ->
  (exists msg, e = ValueError msg) \/ e = MultipleResultsFound \/ e = IntegrityError.
Proof.
  unfold reserve_credits.
  destruct (Qle_bool a 0); [intros [= <-]; left; eauto|].
  destruct (one_or_none _) as [e'|[row|]] eqn:Hone; cbn [rbind].
  - apply one_or_none_error in Hone as ->. intros [= <-]. auto.
  - discriminate.
  - destruct (Qlt_bool _ _); [intros [= <-]; left; eauto|].
    destruct (ledger_add _ _) as [e'|l'] eqn:Hadd; cbn [rbind]; [|discriminate].
    apply ledger_add_error in Hadd as ->. intros [= <-]. auto.
Qed.

Lemma settle_job_credits_error l j c e :
  settle_job_credits l j c = inl e -> e = MultipleResultsFound \/ e = IntegrityError.
Proof.
  unfold settle_job_credits.
  destruct (one_or_none _) as [e'|[[i row]|]] eqn:Hone; cbn [rbind].
  - apply one_or_none_error in Hone as ->. intros [= <-]. auto.
  - cbv zeta. repeat case_inner; try discriminate; intros Hadd;
      apply ledger_add_error in Hadd as ->; auto.
  - discriminate.
Qed.

(** How a submission ends in "400 Insufficient credits": every check was
    passed, the row was inserted under a fresh id, and [reserve_credits]
    raised [ValueError].  The row stays: FAILED on the normal path,
    COMPLETED with the cached result on a cache hit. *)
Lemma create_job_insufficient settings hash_manifest payload user new_id now month w w' :
  create_job settings hash_manifest payload user new_id now month w = (w', inl insufficient) ->
  credit_ledger w' = credit_ledger w /\ queues w' = queues w
  /\ published w' = published w /\ job_events w' = job_events w
  /\ jobs w !! new_id = None
  /\ (forall id, id ≠ new_id -> jobs w' !! id = jobs w !! id)
  /\ exists j,
       jobs w' !! new_id = Some j /\ job_user_id j = u_id user
       /\ (exists msg, reserve_credits (credit_ledger w) (u_id user) new_id
                         (job_cost_estimate_usd j) = inl (ValueError msg))
       /\ match cache_lookup hash_manifest payload w with
          | inr (Some c) =>
              job_status j = COMPLETED /\ job_result_key j = Some (ce_result_key c)
              /\ job_cost_final_usd j = Some (job_cost_estimate_usd j)
          | _ =>
              job_status j = FAILED
              /\ job_error_message j = Some "Insufficient credits"
              /\ job_result_key j = None
          end.
Proof.
  unfold create_job at 1. cbv zeta.
  case_bool_decide as Hhash; [discriminate|]. clear Hhash.
  unfold mbind at 1, mlift at 1.
  destruct (estimate_cost _ _ _ _ _) as [e|[[[cost eta] gpu_class] warnings]] eqn:Hest.
  { apply estimate_cost_error in Hest. intros [= _ ->]. contradiction. }
  unfold check_manifest. cbn [nonempty].
  unfold mbind at 1.
  destruct (ensure_usage_limit user cost month w) as [w1 [e|[]]] eqn:Hlimit.
  { apply ensure_usage_limit_error in Hlimit. intros [= _ ->]. contradiction. }
  apply ensure_usage_limit_ok in Hlimit as (-> & _ & _).
  unfold mbind at 1.
  assert (Hcache : forall (m : M World (option CacheEntry)),
            m = (if req_allowCache payload
                 then w0 <~ mget ;;
                      mlift (one_or_none
                        (filter (fun c => ce_manifest_hash c = hash_manifest (req_manifest payload)
                                          ∧ ce_preset c = req_preset payload)
                                (cache_entries w0)))
                 else mret None) ->
            m w = (w, cache_lookup hash_manifest payload w)).
  { intros m ->. unfold cache_lookup. destruct (req_allowCache payload); reflexivity. }
  match goal with
  | |- context [match ?m w with pair _ _ => _ end] =>
      rewrite (Hcache m eq_refl)
  end. clear Hcache.
  destruct (cache_lookup hash_manifest payload w) as [e|cache] eqn:Hlookup.
  { unfold cache_lookup in Hlookup. destruct (req_allowCache payload); [|discriminate].
    apply one_or_none_error in Hlookup as ->. discriminate. }
  intros Hk.
  assert (Hfresh : jobs w !! new_id = None).
  { destruct cache; unfold add_job in Hk; run_M; cbn [job_uuid] in Hk;
      destruct (jobs w !! new_id); [discriminate Hk|reflexivity
                                   |discriminate Hk|reflexivity]. }
  assert (Hres : exists msg,
            reserve_credits (credit_ledger w) (u_id user) new_id cost = inl (ValueError msg)).
  { destruct (reserve_credits (credit_ledger w) (u_id user) new_id cost)
      as [e|[l b]] eqn:Hres.
    - destruct (reserve_credits_error _ _ _ _ _ Hres) as [[msg ->]|[->| ->]];
        [eauto| |];
        destruct cache; unfold add_job in Hk; run_M; cbn [job_uuid] in Hk;
        rewrite Hfresh in Hk;
        cbn [credit_ledger commit_jobs set_jobs set_commits] in Hk;
        rewrite Hres in Hk; discriminate Hk.
    - exfalso.
      destruct cache; unfold add_job in Hk; run_M; cbn [job_uuid] in Hk;
        rewrite Hfresh in Hk;
        cbn [credit_ledger commit_jobs set_jobs set_commits] in Hk;
        rewrite Hres in Hk; [|discriminate Hk].
      cbn [credit_ledger set_credit_ledger] in Hk.
      destruct (settle_job_credits l new_id cost) as [e|l'] eqn:Hsettle;
        [|discriminate Hk].
      apply settle_job_credits_error in Hsettle as [-> | ->]; discriminate Hk. }
  destruct Hres as [msg Hres].
  destruct cache as [c|]; unfold add_job in Hk; run_M; cbn [job_uuid] in Hk;
    rewrite Hfresh in Hk;
    cbn [credit_ledger commit_jobs set_jobs set_commits] in Hk;
    rewrite Hres in Hk; injection Hk as <-;
    cbn [fst jobs published job_events commits credit_ledger queues
         save_job commit_jobs set_jobs set_commits job_uuid
         set_job_status set_job_error_message];
    (do 4 (split; [reflexivity|]); split; [exact Hfresh|]; split;
     [ intros id Hne; rewrite !lookup_insert_ne by (intros Heq; apply Hne; symmetry; exact Heq);
       reflexivity
     | eexists; split; [apply lookup_insert_eq|];
       cbn [job_user_id job_cost_estimate_usd job_status job_result_key
            job_cost_final_usd job_error_message];
       repeat split; eauto ]).
Qed.

(** A submission refused for lack of credits leaves its row behind as
    FAILED with the message ['Insufficient credits'] and without a result
    key; nothing is reserved, queued, published or logged as an event, and
    no other row changes. *)
Theorem insufficient_credits_fail_the_job
    (settings : Settings) (hash_manifest : Manifest -> string)
    (payload : JobCreateRequest) (user : User) (new_id : string) (now : Z)
    (month : string) (w w' : World) :
  create_job settings hash_manifest payload user new_id now month w
  = (w', inl (HTTPException 400 "Insufficient credits")) ->
  cache_lookup hash_manifest payload w = inr None ->
  (exists j, jobs w' !! new_id = Some j /\ job_user_id j = u_id user
             /\ job_status j = FAILED
             /\ job_error_message j = Some "Insufficient credits"
             /\ job_result_key j = None)
  /\ jobs w !! new_id = None
  /\ (forall id, id ≠ new_id -> jobs w' !! id = jobs w !! id)
  /\ credit_ledger w' = credit_ledger w /\ queues w' = queues w
  /\ published w' = published w /\ job_events w' = job_events w.
Proof.
  intros Hrun Hmiss.
  destruct (create_job_insufficient _ _ _ _ _ _ _ _ _ Hrun)
    as (Hl & Hq & Hp & He & Hfresh & Hothers & j & Hj & Hu & _ & Hcase).
  rewrite Hmiss in Hcase. destruct Hcase as (Hst & Herr & Hkey).
  split; [exists j; auto|]. auto 10.
Qed.

Lemma insufficient_credits_fail_the_job_witness :
  let w := set_users [Scenario.alice] empty_world in
  credit_ledger (Scenario.submit false "j1" w).1 = credit_ledger w
  /\ published (Scenario.submit false "j1" w).1 = published w.
Proof.
  intros w.
  destruct (insufficient_credits_fail_the_job default_settings Scenario.hash_manifest
              (Scenario.request false) Scenario.alice "j1" 0 "2026-01" w
              (Scenario.submit false "j1" w).1)
    as (_ & _ & _ & Hl & _ & Hp & _); [vm_compute; reflexivity|reflexivity|].
  split; [exact Hl|exact Hp].
Defined.

(** On a cache hit the row is inserted as COMPLETED, with the cached result
    key, before the credits are reserved.  When the reservation is then
    refused, the caller gets "400 Insufficient credits" and is charged
    nothing, yet the row stays COMPLETED and [job_result] hands out the
    cached result for it. *)
Theorem cache_hit_without_credits_still_delivers
    (settings : Settings) (hash_manifest : Manifest -> string)
    (payload : JobCreateRequest) (user : User) (new_id : string) (now : Z)
    (month : string) (w w' : World) (c : CacheEntry) :
  create_job settings hash_manifest payload user new_id now month w
  = (w', inl (HTTPException 400 "Insufficient credits")) ->
  cache_lookup hash_manifest payload w = inr (Some c) ->
  ce_result_key c ≠ "" ->
  (exists j, jobs w' !! new_id = Some j /\ job_user_id j = u_id user
             /\ job_status j = COMPLETED
             /\ job_result_key j = Some (ce_result_key c))
  /\ job_result new_id user w' = inr (ce_result_key c)
  /\ credit_ledger w' = credit_ledger w
  /\ published w' = published w.
Proof.
  intros Hrun Hhit Hkey.
  destruct (create_job_insufficient _ _ _ _ _ _ _ _ _ Hrun)
    as (Hl & Hq & Hp & He & Hfresh & Hothers & j & Hj & Hu & _ & Hcase).
  rewrite Hhit in Hcase. destruct Hcase as (Hst & Hres & _).
  split; [exists j; auto|]. split; [|auto].
  unfold job_result, find_job. rewrite Hj, Hu.
  rewrite bool_decide_eq_true_2 by reflexivity. rewrite Hres, Hst.
  rewrite bool_decide_eq_false_2 by (intros H; apply H; reflexivity).
  rewrite bool_decide_eq_false_2 by exact Hkey. reflexivity.
Qed.

Lemma cache_hit_without_credits_still_delivers_witness :
  let w := set_cache_entries
             [{| ce_manifest_hash := "m-hash"; ce_preset := "web";
                 ce_result_key := "results/u2/j0/out.mp4"; ce_output_name := "out.mp4" |}]
             (set_users [Scenario.alice] empty_world) in
  job_result "j1" Scenario.alice (Scenario.submit true "j1" w).1
  = inr "results/u2/j0/out.mp4".
Proof.
  intros w.
  destruct (cache_hit_without_credits_still_delivers default_settings
              Scenario.hash_manifest (Scenario.request true) Scenario.alice "j1" 0
              "2026-01" w (Scenario.submit true "j1" w).1
              {| ce_manifest_hash := "m-hash"; ce_preset := "web";
                 ce_result_key := "results/u2/j0/out.mp4"; ce_output_name := "out.mp4" |})
    as (_ & Hr & _); [vm_compute; reflexivity|reflexivity|discriminate|].
  exact Hr.
Defined.


(** ** Ownership *)

(** Every row is stored under its own id. *)
Definition keys_ok (w : World) : Prop :=
  forall id j, jobs w !! id = Some j -> job_uuid j = id.

(** Only the owner reaches a job: for a caller who does not own the row
    stored under [job_id] (or when there is none), [cancel_job] and
    [job_result] answer 404 and [cancel_job] changes nothing.  And whatever
    job a caller cancels, the rows of other users stay as they are. *)
Theorem only_the_owner_reaches_a_job
    (job_id : string) (user : User) (now : Z) (w : World) :
  keys_ok w ->
  ((forall job, jobs w !! job_id = Some job -> job_user_id job ≠ u_id user) ->
     cancel_job job_id user now w = (w, inl (HTTPException 404 "Job not found"))
     /\ job_result job_id user w = inl (HTTPException 404 "Job not found"))
  /\ (forall id j, jobs w !! id = Some j -> job_user_id j ≠ u_id user ->
        jobs (cancel_job job_id user now w).1 !! id = Some j).
Proof.
  intros Hkeys. split.
  - intros Hforeign.
    assert (Hfind : find_job job_id user w = None).
    { unfold find_job. destruct (jobs w !! job_id) as [job|] eqn:Hjob; [|reflexivity].
      rewrite bool_decide_eq_false_2 by (apply Hforeign; reflexivity). reflexivity. }
    unfold cancel_job, job_result. run_M. rewrite Hfind. split; reflexivity.
  - intros id j Hj Hother. unfold cancel_job. run_M.
    destruct (find_job job_id user w) as [job|] eqn:Hfind; [|exact Hj].
    assert (Howner : job_user_id job = u_id user).
    { unfold find_job in Hfind. destruct (jobs w !! job_id); [|discriminate].
      case_bool_decide; congruence. }
    apply find_job_lookup in Hfind. pose proof (Hkeys _ _ Hfind) as Hkey.
    assert (Hne : job_id ≠ id) by (intros ->; congruence).
    change (job_status (set_job_cancel_requested true job)) with (job_status job).
    destruct (bool_decide (job_status job = QUEUED)); cbn beta iota;
      [match goal with
       | |- context [void_reservation ?l ?k ?r] => destruct (void_reservation l k r)
       end; cbn beta iota|];
      cbn [fst jobs published save_job commit_jobs remove_job publish_progress
           set_jobs set_commits set_queues set_published set_credit_ledger job_uuid
           set_job_cancel_requested set_job_status set_job_progress_percent
           set_job_finished_at];
      rewrite Hkey, lookup_insert_ne by exact Hne; exact Hj.
Qed.

Lemma only_the_owner_reaches_a_job_witness :
  let mallory := {| u_id := "u2"; u_email := "mallory@example.com";
                    u_api_key_hash := "$2b$12$other"; u_api_key_hint := "zzzzzz";
                    u_is_active := true; u_monthly_limit_usd := 200;
                    u_per_job_max_usd := 50; u_is_admin := false |} in
  cancel_job "j1" mallory 7 Scenario.queued
  = (Scenario.queued, inl (HTTPException 404 "Job not found")).
Proof.
  intros mallory.
  refine (proj1 (proj1 (only_the_owner_reaches_a_job "j1" mallory 7 Scenario.queued _) _)).
  - assert (Hall : map_Forall (fun id j => job_uuid j = id) (jobs Scenario.queued))
      by (refine (bool_decide_unpack _ _); vm_compute; exact I).
    intros id j Hj. exact (Hall id j Hj).
  - intros job Hj Heq. apply (f_equal (fmap job_user_id)) in Hj.
    cbn [fmap option_fmap option_map] in Hj. rewrite Heq in Hj.
    vm_compute in Hj. discriminate Hj.
Defined.

(** ** The payment webhook: what it never does *)

(** A delivery is refused with 500 when no secret is configured and with
    401 when the signature header is missing or empty, or when it is an
    ASCII string other than the hex digest of the body.  A signature that
    holds a non-ASCII character is not answered with 401: the [TypeError]
    of [hmac.compare_digest] leaves the handler.  In all these cases the
    store is unchanged.  An event other than the two payment events is
    ignored without any write; a delivery whose amount cannot be read
    credits nothing and creates no user; and no delivery ever touches jobs,
    queues, published messages, job events, usage or the result cache. *)
Theorem webhook_is_gated
    (settings : Settings) (str_upper : string -> string)
    (hexdigest : string -> string -> string)
    (request : LemonRequest) (new_user : User) (w : World) :
  let r := lemon_webhook settings str_upper hexdigest request new_user w in
  (truthy (lemon_webhook_secret settings) = None ->
     r = (w, inl (HTTPException 500 "Webhook not configured")))
  /\ (truthy (lemon_webhook_secret settings) ≠ None ->
      truthy (lr_signature request) = None ->
      r = (w, inl (HTTPException 401 "Invalid signature")))
  /\ (forall secret signature,
        truthy (lemon_webhook_secret settings) = Some secret ->
        truthy (lr_signature request) = Some signature ->
        let digest := hexdigest secret (lr_body request) in
        (is_ascii signature = false ->
           r = (w, inl (OtherException
                          "comparing strings with non-ASCII characters is not supported")))
        /\ (is_ascii digest = true -> is_ascii signature = true -> signature ≠ digest ->
              r = (w, inl (HTTPException 401 "Invalid signature"))))
  /\ (r.2 = inr "ignored" -> r.1 = w)
  /\ (forall err, _parse_lemon_amount_usd str_upper (lr_attributes request) = inl err ->
        credit_ledger r.1 = credit_ledger w /\ users r.1 = users w)
  /\ jobs r.1 = jobs w /\ queues r.1 = queues w /\ published r.1 = published w
  /\ job_events r.1 = job_events w /\ usage r.1 = usage w
  /\ cache_entries r.1 = cache_entries w.
Proof.
  cbv zeta. unfold lemon_webhook.
  destruct (truthy (lemon_webhook_secret settings)) as [secret|].
  2:{ run_M. cbn [fst snd]. repeat split; try reflexivity; try discriminate.
      intros H. contradiction. }
  split; [discriminate|].
  destruct (truthy (lr_signature request)) as [signature|].
  2:{ run_M. cbn [fst snd]. repeat split; try reflexivity; discriminate. }
  split; [discriminate|].
  unfold mbind at 1, mlift at 1.
  unfold _verify_lemon_signature, compare_digest. cbv zeta.
  destruct (is_ascii (hexdigest secret (lr_body request))) eqn:Hdigest;
    destruct (is_ascii signature) eqn:Hsig; cbn [andb].
  2,3,4:
    (split; [intros ? ? [= <-] [= <-]; rewrite ?Hdigest, ?Hsig;
             split; [intros H; first [discriminate H|reflexivity]
                    |intros H1 H2; first [discriminate H1|discriminate H2]]
            |cbn [fst snd]; repeat split; try reflexivity; discriminate]).
  case_bool_decide as Heq; cbn [negb].
  2:{ run_M. split; [intros ? ? [= <-] [= <-]; rewrite Hsig;
                     split; [discriminate|reflexivity]|].
      cbn [fst snd]. repeat split; try reflexivity; discriminate. }
  split.
  { intros ? ? [= <-] [= <-]. rewrite Hsig. split; [discriminate|]. intros _ _ Hne.
    exfalso. apply Hne. symmetry. exact Heq. }
  destruct (negb _).
  { run_M. cbn [fst snd]. repeat split; reflexivity. }
  run_M.
  repeat (case_inner;
          cbn beta iota zeta delta [fst snd credit_ledger users jobs queues published
                                    job_events usage cache_entries
                                    set_users set_credit_ledger]);
    (split; [intros H; try discriminate H|]);
    (split; [intros err Herr; try discriminate Herr; split; reflexivity|]);
    repeat split; reflexivity.
Qed.

Lemma webhook_is_gated_witness :
  let signature := String (Ascii.ascii_of_nat 233) "a41" in
  let request := {| lr_signature := Some signature; lr_body := lr_body Scenario.order;
                    lr_event_name := lr_event_name Scenario.order;
                    lr_data_id := lr_data_id Scenario.order;
                    lr_attributes := lr_attributes Scenario.order |} in
  lemon_webhook Scenario.lemon_settings Scenario.str_upper Scenario.hexdigest
    request Scenario.alice Scenario.funded
  = (Scenario.funded,
     inl (OtherException "comparing strings with non-ASCII characters is not supported")).
Proof.
  intros signature request.
  refine (proj1 (proj1 (proj2 (proj2 (webhook_is_gated Scenario.lemon_settings
            Scenario.str_upper Scenario.hexdigest request Scenario.alice Scenario.funded)))
            "whsec" signature eq_refl eq_refl) eq_refl).
Defined.

(** ** The credits page *)

Lemma get_balances_own ledger user_id :
  get_balances ledger user_id
  = get_balances (filter (fun e => le_user_id e = user_id) ledger) user_id.
Proof.
  unfold get_balances.
  rewrite !list_filter_filter_l by (intros e [H _]; exact H). reflexivity.
Qed.

(** What a user reads from [/credits] depends on the user's own ledger rows
    only: two stores whose ledgers agree on the rows of that user give the
    same balances and the same page, which lists at most 100 rows, all of
    them rows of the ledger that belong to the caller. *)
Theorem credits_depend_on_own_rows_only (user : User) (w1 w2 : World) :
  filter (fun e => le_user_id e = u_id user) (credit_ledger w1)
  = filter (fun e => le_user_id e = u_id user) (credit_ledger w2) ->
  get_credits user w1 = get_credits user w2
  /\ length (ledger_page (get_credits user w1)) <= 100
  /\ (forall e, e ∈ ledger_page (get_credits user w1) ->
        le_user_id e = u_id user /\ e ∈ credit_ledger w1).
Proof.
  intros Hown. split; [|split].
  - unfold get_credits.
    rewrite (get_balances_own (credit_ledger w1)), (get_balances_own (credit_ledger w2)).
    rewrite Hown. reflexivity.
  - unfold get_credits. cbn [ledger_page]. rewrite length_take. lia.
  - intros e He. unfold get_credits in He. cbn [ledger_page] in He.
    apply elem_of_take in He as (i & He & _).
    apply list_elem_of_lookup_2 in He. rewrite elem_of_reverse in He.
    apply list_elem_of_filter in He as [Hu He]. auto.
Qed.

Lemma credits_depend_on_own_rows_only_witness :
  let other := {| le_user_id := "u2"; le_entry_type := PURCHASE; le_status := posted;
                  le_amount_usd := 500; le_currency := "USD"; le_job_id := None;
                  le_external_id := Some "order-2"; le_details := DSource "lemon" |} in
  get_credits Scenario.alice Scenario.funded
  = get_credits Scenario.alice
      (set_credit_ledger (other :: credit_ledger Scenario.funded) Scenario.funded).
Proof.
  intros other.
  refine (proj1 (credits_depend_on_own_rows_only Scenario.alice Scenario.funded
                   (set_credit_ledger (other :: credit_ledger Scenario.funded)
                      Scenario.funded) _)).
  reflexivity.
Defined.

(** ** Monthly usage *)








(** ** One worker turn: what it may touch *)

(** The columns of a row that no code path of the worker changes, and the
    attempts counter. *)
Definition same_job (job row : Job) : Prop :=
  job_uuid row = job_uuid job /\ job_user_id row = job_user_id job
  /\ job_attempts row = job_attempts job
  /\ job_max_attempts row = job_max_attempts job
  /\ job_gpu_class row = job_gpu_class job.

Section WorkerFrame.
Context (w : World) (job : Job).

(** The store while the worker holds [job]: the queues and the rows of the
    other jobs are as in [w]; the row of the job satisfies [P]. *)
Definition own_row (P : Job -> Prop) (w1 : World) : Prop :=
  queues w1 = queues w
  /\ (forall id, id ≠ job_uuid job -> jobs w1 !! id = jobs w !! id)
  /\ exists row, jobs w1 !! job_uuid job = Some row /\ same_job job row /\ P row.

Definition working (P : Job -> Prop) (st : WState) : Prop :=
  own_row P (ws_world st) /\ same_job job (ws_job st).

Definition busy : WState -> Prop := working (fun _ => True).

Lemma working_weaken (P : Job -> Prop) st : working P st -> busy st.
Proof.
  intros [(Hq & Ho & row & Hl & Hs & _) Hj]. split; [|exact Hj].
  split; [exact Hq|]. split; [exact Ho|]. exists row. auto.
Qed.

Lemma own_row_save (P Q : Job -> Prop) w1 row :
  own_row P w1 -> same_job job row -> Q row -> own_row Q (save_job row w1).
Proof.
  intros (Hq & Ho & _) Hs HQ. pose proof Hs as (Hu & _).
  split; [exact Hq|]. split.
  - intros id Hne. cbn. rewrite lookup_insert_ne by congruence. apply Ho. exact Hne.
  - exists row. cbn. rewrite Hu, lookup_insert_eq. auto.
Qed.

Lemma own_row_frame (P : Job -> Prop) w1 w2 :
  own_row P w1 -> jobs w2 = jobs w1 -> queues w2 = queues w1 -> own_row P w2.
Proof.
  intros (Hq & Ho & Hrow) Hj Hq2. unfold own_row. rewrite Hj, Hq2. auto.
Qed.

Lemma update_job_working status message progress error now E :
  hoare busy (update_job status message progress error now)
        (fun _ => working (fun row => job_status row = status)) E.
Proof.
  intros st [Hown Hj]. unfold update_job, mmodify, working. cbn [ws_world ws_job].
  assert (Hsame : forall j, same_job job j ->
            same_job job (set_job_progress_percent
                            match progress with
                            | Some p => p
                            | None => default (job_progress_percent (set_job_status status j))
                                        (STATUS_PROGRESS status)
                            end (set_job_status status j))) by (intros j H; exact H).
  split.
  - eapply own_row_frame; [|reflexivity|reflexivity].
    eapply own_row_save;
      [eapply own_row_frame; [exact Hown|reflexivity|reflexivity]| |];
      repeat case_inner; first [exact Hj|reflexivity].
  - repeat case_inner; exact Hj.
Qed.

Lemma update_job_busy status message progress error now :
  preserves busy (update_job status message progress error now).
Proof.
  eapply hoare_conseq; [apply (update_job_working _ _ _ _ _ (fun _ => busy))|auto| |auto].
  intros ? st. apply working_weaken.
Qed.

Lemma busy_on_world (m : M World unit) :
  (forall w1, jobs (m w1).1 = jobs w1 /\ queues (m w1).1 = queues w1) ->
  preserves busy (on_world m).
Proof.
  intros Hm st [Hown Hj]. unfold on_world.
  destruct (Hm (ws_world st)) as [Hjobs Hqueues].
  destruct (m (ws_world st)) as [w1 [e|[]]]; cbn [fst] in *;
    (split; [eapply own_row_frame; eassumption|exact Hj]).
Qed.

Lemma with_ledger_frame f w1 :
  jobs (with_ledger f w1).1 = jobs w1 /\ queues (with_ledger f w1).1 = queues w1.
Proof. unfold with_ledger. destruct (f (credit_ledger w1)); split; reflexivity. Qed.

Lemma update_usage_frame j minutes month w1 :
  jobs (update_usage j minutes month w1).1 = jobs w1
  /\ queues (update_usage j minutes month w1).1 = queues w1.
Proof.
  unfold update_usage. run_M.
  destruct (one_or_none _) as [e|[[i us]|]]; split; reflexivity.
Qed.

Lemma set_job_busy (f : Job -> Job) :
  (forall j, same_job job j -> same_job job (f j)) -> preserves busy (set_job f).
Proof.
  intros Hf st [Hown Hj]. split; [exact Hown|]. apply Hf. exact Hj.
Qed.

(** A cancel request that arrives while the row is RENDERING only sets the
    flag. *)
Lemma cancel_job_rendering caller now w1 :
  own_row (fun row => job_status row = RENDERING) w1 ->
  own_row (fun row => job_status row = RENDERING)
    (cancel_job (job_uuid job) caller now w1).1.
Proof.
  intros Hown. pose proof Hown as (Hq & Ho & row & Hl & Hs & Hst).
  unfold cancel_job, find_job. run_M. rewrite Hl.
  case_bool_decide; [|exact Hown].
  change (job_status (set_job_cancel_requested true row)) with (job_status row).
  rewrite Hst. rewrite bool_decide_eq_false_2 by discriminate. cbn beta iota.
  cbn [fst]. eapply own_row_save; [exact Hown|exact Hs|exact Hst].
Qed.

Context (settings : Settings) (with_suffix : string -> string -> string)
        (env : WorkerEnv).

Ltac busy_step :=
  lazymatch goal with
  | |- preserves _ (update_job _ _ _ _ _) => apply update_job_busy
  | |- preserves _ (on_world (with_ledger _)) =>
      apply busy_on_world; intros ?; apply with_ledger_frame
  | |- preserves _ (on_world (update_usage _ _ _)) =>
      apply busy_on_world; intros ?; apply update_usage_frame
  | |- preserves _ (on_world (mmodify _)) =>
      apply busy_on_world; intros ?; split; reflexivity
  | |- preserves _ (set_job _) => apply set_job_busy; intros ? H; exact H
  | |- _ => preserves_step
  end.

Lemma handle_line_rendering line :
  hoare (working (fun row => job_status row = RENDERING)) (handle_line env line)
        (fun _ => working (fun row => job_status row = RENDERING)) (fun _ => busy).
Proof.
  destruct line; try (intros st Hst; exact Hst). cbn [handle_line].
  eapply hoare_conseq;
    [apply (update_job_working _ _ _ _ _ (fun _ => busy))
    |apply working_weaken|intros ? st Hst; exact Hst|intros ? st Hst; exact Hst].
Qed.

Lemma run_render_loop_working trace :
  hoare (working (fun row => job_status row = RENDERING)) (run_render_loop env trace)
        (fun _ => busy) (fun _ => busy).
Proof.
  induction trace as [line rc|line cancel_by timed_out rest IH]; cbn [run_render_loop].
  - eapply hoare_bind; [apply handle_line_rendering|]. intros ?.
    eapply hoare_conseq with (P' := busy) (Q' := fun _ => busy) (E' := fun _ => busy);
      [|apply working_weaken|auto|auto].
    repeat busy_step.
  - eapply hoare_bind; [apply handle_line_rendering|]. intros ?.
    eapply hoare_bind with
      (R := fun st0 st => working (fun row => job_status row = RENDERING) st /\ st0 = st).
    { intros st Hst. split; [exact Hst|reflexivity]. }
    intros st0.
    eapply hoare_bind with
      (R := fun _ => working (fun row => job_status row = RENDERING)).
    { intros st [Hst <-]. destruct cancel_by as [caller|]; [|exact Hst].
      unfold on_world. cbn [fst snd]. destruct Hst as [Hown Hj]. split; [|exact Hj].
      cbn [ws_world]. destruct Hj as (Hu & _). rewrite Hu.
      apply cancel_job_rendering. exact Hown. }
    intros ?.
    eapply hoare_bind with
      (R := fun _ => working (fun row => job_status row = RENDERING)).
    { intros st [Hown Hj]. unfold refresh, mmodify. split; [exact Hown|].
      cbn [ws_world ws_job]. destruct Hown as (_ & _ & row & Hl & Hs & _).
      destruct Hj as (Hu & _). rewrite Hu, Hl. exact Hs. }
    intros ?.
    eapply hoare_bind with
      (R := fun _ => working (fun row => job_status row = RENDERING)).
    { intros st Hst. exact Hst. }
    intros st1.
    destruct (job_cancel_requested (ws_job st1)).
    { eapply hoare_conseq with (P' := busy) (Q' := fun _ => busy) (E' := fun _ => busy);
        [|apply working_weaken|auto|auto].
      repeat busy_step. }
    destruct timed_out; [|exact IH].
    eapply hoare_conseq with (P' := busy) (Q' := fun _ => busy) (E' := fun _ => busy);
      [|apply working_weaken|auto|auto].
    repeat busy_step.
Qed.

Lemma process_body_busy :
  preserves busy (process_body settings with_suffix env).
Proof.
  unfold process_body.
  do 10 (apply preserves_bind; [repeat busy_step|intros ?]).
  eapply hoare_bind; [apply update_job_working|]. intros ?.
  eapply hoare_bind.
  { unfold run_render.
    eapply hoare_bind with
      (R := fun _ => working (fun row => job_status row = RENDERING)).
    - intros st Hst. unfold mlift. destruct (env_render env); [|exact Hst].
      eapply working_weaken. exact Hst.
    - intros trace. apply run_render_loop_working. }
  intros ?. unfold transcode_output. repeat busy_step.
Qed.

(** What one turn leaves behind. *)
Definition turn_outcome (w' : World) : Prop :=
  (forall id, id ≠ job_uuid job -> jobs w' !! id = jobs w !! id)
  /\ exists row,
       jobs w' !! job_uuid job = Some row
       /\ job_user_id row = job_user_id job
       /\ job_max_attempts row = job_max_attempts job
       /\ (job_attempts row = job_attempts job
           \/ job_attempts row = (job_attempts job + 1)%Z)
       /\ (queues w' = queues w
           \/ (queues w'
               = queues (enqueue_job (job_uuid job)
                           (default (job_gpu_class job) (env_GPU_CLASS env)) w)
               /\ job_status row = QUEUED
               /\ job_attempts row = (job_attempts job + 1)%Z
               /\ (job_attempts row < job_max_attempts row)%Z)).

Lemma busy_outcome st : busy st -> turn_outcome (ws_world st).
Proof.
  intros [(Hq & Ho & row & Hl & (Hu & Hus & Ha & Hm & Hg) & _) _].
  split; [exact Ho|]. exists row. auto 10.
Qed.

Lemma outcome_ledger w1 f :
  turn_outcome w1 -> turn_outcome (with_ledger f w1).1.
Proof. intros H. unfold with_ledger. destruct (f (credit_ledger w1)); exact H. Qed.

Lemma update_job_effect status message progress error now st :
  exists st',
    update_job status message progress error now st = (st', inr tt)
    /\ queues (ws_world st') = queues (ws_world st)
    /\ jobs (ws_world st') = <[job_uuid (ws_job st) := ws_job st']> (jobs (ws_world st))
    /\ job_uuid (ws_job st') = job_uuid (ws_job st)
    /\ job_user_id (ws_job st') = job_user_id (ws_job st)
    /\ job_attempts (ws_job st') = job_attempts (ws_job st)
    /\ job_max_attempts (ws_job st') = job_max_attempts (ws_job st)
    /\ job_status (ws_job st') = status.
Proof.
  unfold update_job, mmodify. eexists. split; [reflexivity|].
  cbn [ws_world ws_job queues jobs publish_progress save_job commit_jobs
       set_published set_commits set_jobs set_job_events].
  split; [reflexivity|]. split.
  { f_equal. repeat case_inner; reflexivity. }
  repeat split; repeat case_inner; reflexivity.
Qed.

(** The store after the row was written once more with a new attempts
    counter and the queues possibly changed. *)
Lemma outcome_after_update st st' w' :
  busy st ->
  jobs w' = <[job_uuid (ws_job st) := ws_job st']> (jobs (ws_world st)) ->
  job_user_id (ws_job st') = job_user_id (ws_job st) ->
  job_max_attempts (ws_job st') = job_max_attempts (ws_job st) ->
  (job_attempts (ws_job st') = job_attempts job
   \/ job_attempts (ws_job st') = (job_attempts job + 1)%Z) ->
  (queues w' = queues w
   \/ (queues w'
       = queues (enqueue_job (job_uuid job)
                   (default (job_gpu_class job) (env_GPU_CLASS env)) w)
       /\ job_status (ws_job st') = QUEUED
       /\ job_attempts (ws_job st') = (job_attempts job + 1)%Z
       /\ (job_attempts (ws_job st') < job_max_attempts (ws_job st'))%Z)) ->
  turn_outcome w'.
Proof.
  intros [(Hq & Ho & _) (Hu & Hus & Ha & Hm & Hg)] Hjobs Hus' Hm' Hatt Hqueue.
  split.
  - intros id Hne. rewrite Hjobs, lookup_insert_ne by congruence. apply Ho. exact Hne.
  - exists (ws_job st'). rewrite Hjobs, Hu, lookup_insert_eq.
    split; [reflexivity|]. split; [congruence|]. split; [congruence|].
    split; [exact Hatt|exact Hqueue].
Qed.

Lemma handle_error_outcome err st :
  busy st -> turn_outcome (ws_world (handle_error env err st).1).
Proof.
  intros Hst. pose proof Hst as [(Hq & Ho & _) (Hu & Hus & Ha & Hm & Hg)].
  unfold handle_error. unfold mbind at 1, mget at 1.
  destruct (is_RuntimeError err).
  - case_bool_decide.
    + unfold on_world. pose proof (outcome_ledger (ws_world st)
        (fun l => void_reservation l (job_uuid (ws_job st)) "cancelled")
        (busy_outcome st Hst)) as Hout.
      destruct (with_ledger _ (ws_world st)) as [w1 [e|[]]]; exact Hout.
    + unfold mbind at 1, set_job at 1, mmodify at 1.
      unfold mbind at 1, mget at 1. cbv zeta. cbn [ws_job ws_world].
      set (job1 := set_job_attempts (job_attempts (ws_job st) + 1) (ws_job st)).
      set (st1 := {| ws_world := ws_world st; ws_job := job1 |}).
      destruct (job_attempts job1 <? job_max_attempts job1)%Z eqn:Hlt.
      * destruct (update_job_effect QUEUED
                    ("Retrying (" ++ pretty (job_attempts job1) ++ ")")%string
                    (Some 10%Q) None (env_utcnow env QUEUED) st1)
          as (st2 & Hrun & Hq2 & Hj2 & Hu2 & Hus2 & Ha2 & Hm2 & Hs2).
        unfold mbind. rewrite Hrun. unfold on_world, mmodify. cbn [fst snd ws_world].
        apply Z.ltb_lt in Hlt.
        apply (outcome_after_update st st2); [exact Hst| exact Hj2|exact Hus2|exact Hm2| |].
        { right. rewrite Ha2. cbn. congruence. }
        right. split.
        { unfold enqueue_job. cbn [queues set_queues]. rewrite Hq2.
          cbn [ws_world st1 job_uuid job_gpu_class job1 set_job_attempts].
          rewrite Hq, Hu, Hg. reflexivity. }
        split; [exact Hs2|]. split; [rewrite Ha2; cbn; congruence|].
        rewrite Ha2, Hm2. exact Hlt.
      * destruct (update_job_effect FAILED "Render failed" None (Some (str_exn err))
                    (env_utcnow env FAILED) st1)
          as (st2 & Hrun & Hq2 & Hj2 & Hu2 & Hus2 & Ha2 & Hm2 & Hs2).
        unfold mbind. rewrite Hrun. unfold on_world.
        assert (Hout : turn_outcome (ws_world st2)).
        { apply (outcome_after_update st st2);
            [exact Hst|exact Hj2|exact Hus2|exact Hm2| |].
          - right. rewrite Ha2. cbn. congruence.
          - left. rewrite Hq2. exact Hq. }
        pose proof (outcome_ledger (ws_world st2)
          (fun l => void_reservation l (job_uuid job1) "failed") Hout) as Hout'.
        destruct (with_ledger _ (ws_world st2)) as [w1 [e|[]]]; exact Hout'.
  - pose proof (update_job_busy FAILED "Unhandled error" None (Some (str_exn err))
                  (env_utcnow env FAILED) st Hst) as Hup.
    unfold mbind.
    destruct (update_job FAILED _ _ _ _ _) as [st2 [e|[]]] eqn:Hrun;
      [unfold update_job, mmodify in Hrun; discriminate Hrun|].
    unfold on_world.
    pose proof (outcome_ledger (ws_world st2)
      (fun l => void_reservation l (job_uuid (ws_job st)) "failed")
      (busy_outcome st2 Hup)) as Hout.
    destruct (with_ledger _ (ws_world st2)) as [w1 [e|[]]]; exact Hout.
Qed.
End WorkerFrame.

(** One run of [process_job] on a stored row writes to that row only, keeps
    its owner and its attempt limit, raises its attempts counter by at most
    one, and pushes its id on a queue at most once: only when it sets the row
    back to QUEUED after a failure, with the raised counter still below the
    limit, and then on the queue of the worker's GPU class (the job's own
    class when the variable is unset). *)
Theorem process_job_requeues_at_most_once
    (settings : Settings) (with_suffix : string -> string -> string)
    (env : WorkerEnv) (w : World) (job : Job) :
  jobs w !! job_uuid job = Some job ->
  turn_outcome w job env (process_job settings with_suffix env (job_uuid job) w).1.
Proof.
  intros Hjob. unfold process_job. rewrite Hjob.
  assert (Hstart : busy w job {| ws_world := w; ws_job := job |}).
  { split; [|repeat split]. split; [reflexivity|]. split; [reflexivity|].
    exists job. repeat split. exact Hjob. }
  pose proof (process_body_busy w job settings with_suffix env _ Hstart) as Hbody.
  destruct (process_body _ _ _ _) as [st [err|[]]].
  - pose proof (handle_error_outcome w job env err st Hbody) as Hout.
    destruct (handle_error env err st) as [st' r]. exact Hout.
  - apply busy_outcome. exact Hbody.
Qed.

Lemma process_job_requeues_at_most_once_witness :
  match jobs Scenario.queued !! "j1" with
  | Some job =>
      turn_outcome Scenario.queued job (Scenario.env Scenario.overrunning)
        (process_job default_settings Scenario.with_suffix
           (Scenario.env Scenario.overrunning) (job_uuid job) Scenario.queued).1
  | None => False
  end.
Proof.
  destruct (jobs Scenario.queued !! "j1") as [job|] eqn:Hjob.
  - apply process_job_requeues_at_most_once.
    assert (Hu : job_uuid job = "j1").
    { apply (f_equal (fmap job_uuid)) in Hjob. vm_compute in Hjob.
      injection Hjob as Hjob. symmetry. exact Hjob. }
    rewrite Hu. exact Hjob.
  - vm_compute in Hjob. discriminate Hjob.
Defined.

(** ** A cancel request during the render *)

(** What the polling loop needs of the session: the row it holds is stored
    under its id, belongs to [caller] and is not QUEUED (the worker has set
    it to RENDERING before spawning the renderer). *)
Definition rendering_for (caller : User) (st : WState) : Prop :=
  exists row,
    jobs (ws_world st) !! job_uuid (ws_job st) = Some row
    /\ job_uuid row = job_uuid (ws_job st)
    /\ job_user_id row = u_id caller
    /\ job_status row ≠ QUEUED.

(** The row a cancelled render leaves behind. *)
Definition cancelled_row (now : Z) (row : Job) : Prop :=
  job_status row = CANCELLED /\ job_cancel_requested row = true
  /\ job_progress_percent row = 0%Q /\ job_finished_at row = Some now.

Lemma cancel_job_sets_flag caller now w job_id row :
  jobs w !! job_id = Some row -> job_user_id row = u_id caller ->
  job_status row ≠ QUEUED ->
  (cancel_job job_id caller now w).1 = save_job (set_job_cancel_requested true row) w.
Proof.
  intros Hrow Howner Hstatus. unfold cancel_job, find_job. run_M.
  rewrite Hrow, Howner. rewrite bool_decide_eq_true_2 by reflexivity.
  change (job_status (set_job_cancel_requested true row)) with (job_status row).
  rewrite (bool_decide_eq_false_2 (job_status row = QUEUED)) by exact Hstatus.
  reflexivity.
Qed.

Lemma poll_with_cancel env caller timed_out rest st :
  rendering_for caller st ->
  let r := run_render_loop env (RPoll NoLine (Some caller) timed_out rest) st in
  r.2 = inl (RuntimeError "cancelled")
  /\ queues (ws_world r.1) = queues (ws_world st)
  /\ credit_ledger (ws_world r.1) = credit_ledger (ws_world st)
  /\ job_uuid (ws_job r.1) = job_uuid (ws_job st)
  /\ jobs (ws_world r.1) !! job_uuid (ws_job st) = Some (ws_job r.1)
  /\ cancelled_row (env_utcnow env CANCELLED) (ws_job r.1)
  /\ (forall id, id ≠ job_uuid (ws_job st) ->
        jobs (ws_world r.1) !! id = jobs (ws_world st) !! id).
Proof.
  intros (row & Hrow & Hu & Howner & Hstatus). cbv zeta.
  cbn [run_render_loop handle_line]. run_M. unfold on_world. cbn [fst snd ws_world ws_job].
  rewrite (cancel_job_sets_flag caller _ _ _ row Hrow Howner Hstatus).
  unfold refresh, mmodify.
  cbn [ws_world ws_job jobs save_job commit_jobs set_jobs set_commits job_uuid
       set_job_cancel_requested].
  rewrite Hu, lookup_insert_eq.
  cbn [default from_option id job_cancel_requested set_job_cancel_requested].
  unfold update_job, mmodify.
  cbn [fst snd ws_world ws_job bool_decide decide_rel is_terminal truthy STATUS_PROGRESS
       default from_option id queues credit_ledger jobs publish_progress save_job
       commit_jobs set_published set_commits set_jobs set_job_events job_uuid
       set_job_status set_job_progress_percent set_job_finished_at].
  rewrite bool_decide_eq_false_2 by discriminate.
  cbn [andb fst snd ws_world ws_job queues credit_ledger jobs publish_progress save_job
       commit_jobs set_published set_commits set_jobs set_job_events job_uuid
       set_job_status set_job_progress_percent set_job_finished_at
       set_job_cancel_requested].
  rewrite ?Hu.
  split; [reflexivity|]. split; [reflexivity|]. split; [reflexivity|].
  split; [reflexivity|]. split; [apply lookup_insert_eq|].
  split; [repeat split|].
  intros id Hne. rewrite !lookup_insert_ne by congruence. reflexivity.
Qed.

Lemma run_render_loop_poll env line cancel_by timed_out rest st :
  run_render_loop env (RPoll line cancel_by timed_out rest) st
  = match handle_line env line st with
    | (st', inr _) => run_render_loop env (RPoll NoLine cancel_by timed_out rest) st'
    | (st', inl e) => (st', inl e)
    end.
Proof. cbn [run_render_loop handle_line]. unfold mbind at 1 3. reflexivity. Qed.

(** A cancel request by the owner that reaches the controller while the
    renderer runs stops the render at the next poll, whatever the renderer
    printed, however long it has run and whatever it would have done next:
    [run_render] raises ['cancelled'], the row is committed as CANCELLED
    with the flag set, progress 0 and a finish time, no other row, no queue
    and no ledger entry is touched on the way, and the handler of
    ['cancelled'] then only voids the reservation: the job is neither
    retried nor re-enqueued. *)
Theorem cancel_request_stops_the_render
    (env : WorkerEnv) (caller : User) (line : RenderLine) (timed_out : bool)
    (rest : RenderTrace) (st : WState) :
  rendering_for caller st ->
  job_user_id (ws_job st) = u_id caller ->
  let r := run_render_loop env (RPoll line (Some caller) timed_out rest) st in
  let h := handle_error env (RuntimeError "cancelled") r.1 in
  r.2 = inl (RuntimeError "cancelled")
  /\ queues (ws_world r.1) = queues (ws_world st)
  /\ credit_ledger (ws_world r.1) = credit_ledger (ws_world st)
  /\ (exists row, jobs (ws_world r.1) !! job_uuid (ws_job st) = Some row
                  /\ cancelled_row (env_utcnow env CANCELLED) row)
  /\ (forall id, id ≠ job_uuid (ws_job st) ->
        jobs (ws_world r.1) !! id = jobs (ws_world st) !! id)
  /\ jobs (ws_world h.1) = jobs (ws_world r.1)
  /\ queues (ws_world h.1) = queues (ws_world st)
  /\ (ws_world h.1, h.2)
     = with_ledger (fun l => void_reservation l (job_uuid (ws_job st)) "cancelled")
         (ws_world r.1).
Proof.
  intros Hrow Howner.
  assert (Hcore : forall st0,
            rendering_for caller st0 ->
            job_uuid (ws_job st0) = job_uuid (ws_job st) ->
            queues (ws_world st0) = queues (ws_world st) ->
            credit_ledger (ws_world st0) = credit_ledger (ws_world st) ->
            (forall id, id ≠ job_uuid (ws_job st) ->
               jobs (ws_world st0) !! id = jobs (ws_world st) !! id) ->
            let r := run_render_loop env (RPoll NoLine (Some caller) timed_out rest) st0 in
            let h := handle_error env (RuntimeError "cancelled") r.1 in
            r.2 = inl (RuntimeError "cancelled")
            /\ queues (ws_world r.1) = queues (ws_world st)
            /\ credit_ledger (ws_world r.1) = credit_ledger (ws_world st)
            /\ (exists row, jobs (ws_world r.1) !! job_uuid (ws_job st) = Some row
                            /\ cancelled_row (env_utcnow env CANCELLED) row)
            /\ (forall id, id ≠ job_uuid (ws_job st) ->
                  jobs (ws_world r.1) !! id = jobs (ws_world st) !! id)
            /\ jobs (ws_world h.1) = jobs (ws_world r.1)
            /\ queues (ws_world h.1) = queues (ws_world st)
            /\ (ws_world h.1, h.2)
               = with_ledger
                   (fun l => void_reservation l (job_uuid (ws_job st)) "cancelled")
                   (ws_world r.1)).
  { intros st0 Hst0 Hu0 Hq0 Hl0 Ho0.
    destruct (poll_with_cancel env caller timed_out rest st0 Hst0)
      as (Hr & Hq & Hl & Hu & Hj & Hc & Ho).
    cbv zeta.
    destruct (run_render_loop env _ st0) as [st1 res]. cbn [fst snd] in *.
    split; [exact Hr|]. split; [congruence|]. split; [congruence|].
    split; [exists (ws_job st1); rewrite <- Hu0; auto|].
    split; [intros id Hne; rewrite Ho by congruence; apply Ho0; exact Hne|].
    unfold handle_error. run_M. cbn [is_RuntimeError str_exn].
    rewrite bool_decide_eq_true_2 by reflexivity.
    unfold on_world. rewrite Hu, Hu0.
    destruct (void_reservation _ _ _) as [e|l'];
      cbn [fst snd ws_world jobs queues set_credit_ledger];
      (split; [reflexivity|]); (split; [congruence|reflexivity]). }
  rewrite run_render_loop_poll.
  destruct line as [| | |percent]; cbn [handle_line];
    try exact (Hcore st Hrow eq_refl eq_refl eq_refl (fun _ _ => eq_refl)).
  destruct (update_job_effect RENDERING "Rendering"
              (Some (Qmin 90 (30 + percent * (6 # 10)))) None
              (env_utcnow env RENDERING) st)
    as (st0 & Hrun & Hq0 & Hj0 & Hu0 & Hus0 & _ & _ & Hs0).
  rewrite Hrun.
  apply (Hcore st0); [|exact Hu0|exact Hq0| |].
  - exists (ws_job st0). rewrite Hj0, Hu0, <- Hu0, lookup_insert_eq.
    split; [reflexivity|]. split; [reflexivity|].
    split; [congruence|]. rewrite Hs0. discriminate.
  - unfold update_job, mmodify in Hrun. injection Hrun as <-. reflexivity.
  - intros id Hne. rewrite Hj0, lookup_insert_ne by congruence. reflexivity.
Qed.

Lemma cancel_request_stops_the_render_witness :
  let job := {| job_uuid := "j1"; job_user_id := "u1"; job_status := RENDERING;
                job_preset := "web"; job_gpu_class := "rtx4090";
                job_manifest := Scenario.manifest; job_custom_options := None;
                job_manifest_hash := "m-hash"; job_project_hash := "p-hash";
                job_bundle_key := "bundles/u1/m-hash.zip"; job_bundle_sha256 := "pending";
                job_bundle_size_bytes := 120000000; job_result_key := None;
                job_output_name := "out"; job_notification_email := None;
                job_cost_estimate_usd := 1; job_cost_final_usd := None;
                job_eta_seconds := 200; job_progress_percent := 60; job_attempts := 0;
                job_max_attempts := 3; job_error_message := None;
                job_cancel_requested := false; job_cache_hit := false;
                job_created_at := 0; job_started_at := Some 1000%Z;
                job_finished_at := None |} in
  let st := {| ws_world := set_jobs (<["j1" := job]> ∅) Scenario.funded;
               ws_job := job |} in
  (run_render_loop (Scenario.env Scenario.quick)
     (RPoll (Progress 50) (Some Scenario.alice) false Scenario.quick) st).2
  = inl (RuntimeError "cancelled").
Proof.
  intros job st.
  refine (proj1 (cancel_request_stops_the_render (Scenario.env Scenario.quick)
                   Scenario.alice (Progress 50) false Scenario.quick st _ _)).
  - exists job. repeat split. discriminate.
  - reflexivity.
Defined.
